(** * saf_veclib: vector primitives and LAPACK drivers of the Spatial Audio Framework

    A shallow embedding of [framework/saf_utilities/saf_veclib.c].

    Conventions of the embedding.
    - [float] and [double] values are IEEE-754 values of the Standard
      Library's [spec_float]; arithmetic is [SFmul], [SFdiv], ... at
      precision 24/128 (binary32) or 53/1024 (binary64).  Where C lets the
      compiler contract a product and a sum into one fused multiply-add
      ([c[0] += a[i] * b[i]] in [utility_svvdot]) both evaluations are
      modelled, selected by an [fp_contract].
    - A buffer is a list of elements; [b !!! i] reads element [i] and
      [<[i:=v]> b] writes it.  Reads and writes outside the buffer are
      undefined in C; here a read gives [+0] and a write does nothing, and
      the theorems carry the buffer sizes as hypotheses.
    - [int] dimensions, lengths and indices are natural numbers (the products
      [dim*dim] etc. are assumed to fit an [int]).
    - A pointer that the code tests against [NULL] is an [option]; storing
      through [NULL] is a fault ([None] in the monad [M]).
    - [memset] is byte-granular: its third argument is a number of bytes.
    - The BLAS/LAPACK kernels and the C library's [qsort] are parameters. *)

From Stdlib Require Import ZArith Lia.
From Stdlib Require Import Floats.SpecFloat.
From stdpp Require Import base list gmap sorting.

Local Open Scope nat_scope.

(** ** Floating-point values *)

Abbreviation float := spec_float (only parsing).

#[global] Instance spec_float_inhabited : Inhabited spec_float :=
  populate (S754_zero false).

#[global] Instance spec_float_eq_dec : EqDecision spec_float.
Proof. solve_decision. Defined.

(** A floating-point format: precision, infinity exponent, size in bytes. *)
Record format := Format { prec : Z; emax : Z; fbytes : nat }.

Definition binary32 : format := Format 24 128 4.
Definition binary64 : format := Format 53 1024 8.

Definition fzero : float := S754_zero false.

Definition fmul (fm : format) : float -> float -> float := SFmul (prec fm) (emax fm).
Definition fdiv (fm : format) : float -> float -> float := SFdiv (prec fm) (emax fm).
Definition fadd (fm : format) : float -> float -> float := SFadd (prec fm) (emax fm).

(** [x == y], [x < y], [x > y] and [x <= y] of C *)
Definition feq (x y : float) : bool := SFeqb x y.
Definition flt (x y : float) : bool := SFltb x y.
Definition fgt (x y : float) : bool := SFltb y x.
Definition fle (x y : float) : bool := SFleb x y.

(** The value [m * 2^e] rounded to the format: how literals are written. *)
Definition lit (fm : format) (m e : Z) : float :=
  binary_normalize (prec fm) (emax fm) m e false.

(** The implicit conversion of a [float] to a [double]; it is exact. *)
Definition float_to_double (x : float) : float :=
  match x with
  | S754_finite s m e => binary_round (prec binary64) (emax binary64) s m e
  | _ => x
  end.

(** [(int)x]: truncation towards zero (undefined for infinities and NaN,
    given as [0] here). *)
Definition int_of_float (x : float) : Z :=
  match x with
  | S754_finite s m e =>
      let v := match e with
               | Zneg p => Z.shiftr (Zpos m) (Zpos p)
               | _ => Z.shiftl (Zpos m) e
               end in
      if s then Z.opp v else v
  | _ => 0%Z
  end.

(** [0.0f], [1.0f], [1.0e-5f] and [1.0e-9f] as binary32 values *)
Definition f0_0 : float := fzero.
Definition f1_0 : float := lit binary32 1 0.
Definition f1e_5 : float := S754_finite false 10995116 (-40).
Definition f1e_9 : float := S754_finite false 9007199 (-53).

Definition is_nan (x : float) : bool :=
  match x with S754_nan => true | _ => false end.

Definition is_inf (x : float) : bool :=
  match x with S754_infinity _ => true | _ => false end.

(** ** Complex values *)

(** Modelled from the spec: [saf_complex.h], which declares [float_complex],
    [cmplxf] and the arithmetic on complex values, is not among the sources.
    A complex scalar is a pair of real components (real, imaginary);
    [cmplxf(re, im)] builds one, [crealf] and [cimagf] are its parts. *)
Record float_complex := cmplxf { crealf : float; cimagf : float }.

#[global] Instance float_complex_inhabited : Inhabited float_complex :=
  populate (cmplxf fzero fzero).

(** ** Bytes and the representation of values *)

(** Little-endian bytes of a word and back. *)
Fixpoint le_bytes (n : nat) (w : Z) : list Z :=
  match n with
  | O => []
  | S n' => (w mod 256)%Z :: le_bytes n' (w / 256)%Z
  end.

Fixpoint le_word (bs : list Z) : Z :=
  match bs with
  | [] => 0%Z
  | b :: bs' => (b + 256 * le_word bs')%Z
  end.

(** Widths of the mantissa and exponent fields of a format. *)
Definition mant_bits (fm : format) : Z := (prec fm - 1)%Z.
Definition expo_bits (fm : format) : Z := (8 * Z.of_nat (fbytes fm) - prec fm)%Z.

(** The IEEE-754 interchange encoding; a NaN is the canonical quiet NaN. *)
Definition bits_of (fm : format) (x : float) : Z :=
  let mw := mant_bits fm in
  let ew := expo_bits fm in
  let sign (s : bool) := if s then (2 ^ (ew + mw))%Z else 0%Z in
  match x with
  | S754_zero s => sign s
  | S754_infinity s => (sign s + (2 ^ ew - 1) * 2 ^ mw)%Z
  | S754_nan => ((2 ^ ew - 1) * 2 ^ mw + 2 ^ (mw - 1))%Z
  | S754_finite s m e =>
      if (Zpos m <? 2 ^ mw)%Z then (sign s + Zpos m)%Z
      else (sign s + (e - emin (prec fm) (emax fm) + 1) * 2 ^ mw + (Zpos m - 2 ^ mw))%Z
  end.

Definition of_bits (fm : format) (w : Z) : float :=
  let mw := mant_bits fm in
  let ew := expo_bits fm in
  let s := Z.testbit w (ew + mw) in
  let E := ((w / 2 ^ mw) mod 2 ^ ew)%Z in
  let m := (w mod 2 ^ mw)%Z in
  if (E =? 0)%Z then
    match m with
    | Zpos p => S754_finite s p (emin (prec fm) (emax fm))
    | _ => S754_zero s
    end
  else if (E =? 2 ^ ew - 1)%Z then
    (if (m =? 0)%Z then S754_infinity s else S754_nan)
  else
    match (m + 2 ^ mw)%Z with
    | Zpos p => S754_finite s p (E + emin (prec fm) (emax fm) - 1)
    | _ => S754_nan
    end.

(** How a C type lies in memory: [sizeof], object to bytes, bytes to object. *)
Record layout (T : Type) := Layout {
  sizeof : nat;
  encode : T -> list Z;
  decode : list Z -> T
}.
Arguments Layout {T} _ _ _.
Arguments sizeof {T} _.
Arguments encode {T} _ _.
Arguments decode {T} _ _.

Definition lay_real (fm : format) : layout float :=
  Layout (fbytes fm)
         (fun x => le_bytes (fbytes fm) (bits_of fm x))
         (fun bs => of_bits fm (le_word bs)).

Definition lay_float : layout float := lay_real binary32.
Definition lay_double : layout float := lay_real binary64.

Definition lay_float_complex : layout float_complex :=
  Layout (2 * sizeof lay_float)
         (fun z => encode lay_float (crealf z) ++ encode lay_float (cimagf z))
         (fun bs => cmplxf (decode lay_float (take (sizeof lay_float) bs))
                           (decode lay_float (drop (sizeof lay_float) bs))).

(** [memset(buf, c, n)] on a buffer of [T]: the first [n] bytes become
    [(unsigned char)c].  Element [i] occupies bytes [i*sizeof .. (i+1)*sizeof):
    it is overwritten whole, in part, or not at all. *)
Definition memset {T} (lay : layout T) (buf : list T) (c : Z) (n : nat) : list T :=
  imap (fun i x =>
          let lo := i * sizeof lay in
          if decide (lo + sizeof lay <= n) then
            decode lay (replicate (sizeof lay) (c mod 256)%Z)
          else if decide (n <= lo) then x
          else decode lay (replicate (n - lo) (c mod 256)%Z
                             ++ drop (n - lo) (encode lay x)))
       buf.

(** ** Control: [for (i = 0; i < n; i++) body] *)

Definition for_ {S : Type} (n : nat) (body : nat -> S -> S) (s : S) : S :=
  fold_left (fun s i => body i s) (seq 0 n) s.

(** ** Pointers that may be [NULL], and faults *)

Definition ptr (T : Type) : Type := option (list T).
Abbreviation NULL := None (only parsing).

(** [Some r]: the call returns with result [r]; [None]: a store through
    a null pointer. *)
Definition M (A : Type) : Type := option A.

Definition ret {A} (a : A) : M A := Some a.
Definition bind {A B} (m : M A) (k : A -> M B) : M B :=
  match m with Some a => k a | None => None end.

Notation "x <- m ;; k" := (bind m (fun x => k))
  (at level 100, m at next level, right associativity).

(** [p[i] = v] *)
Definition store {T} (p : ptr T) (i : nat) (v : T) : M (ptr T) :=
  match p with
  | Some b => ret (Some (<[i:=v]> b))
  | NULL => None
  end.

(** [memset(p, c, n)] through a pointer *)
Definition memset_at {T} (lay : layout T) (p : ptr T) (c : Z) (n : nat) : M (ptr T) :=
  match p with
  | Some b => ret (Some (memset lay b c n))
  | NULL => None
  end.

(** A loop whose body may fault. *)
Definition forM {S : Type} (n : nat) (body : nat -> S -> M S) (s : S) : M S :=
  for_ n (fun i m => bind m (body i)) (ret s).

(** Uninitialised memory returned by [malloc] for a scratch buffer; every
    element is written before it is read. *)
Definition malloc_buf {T} `{Inhabited T} (n : nat) : list T := replicate n inhabitant.

(** ** [sortf] *)

Record sort_float := Build_sort_float { val : float; idx : nat }.

#[global] Instance sort_float_inhabited : Inhabited sort_float :=
  populate (Build_sort_float fzero 0).

Definition cmp_asc_float (a1 a2 : sort_float) : Z :=
  if flt (val a1) (val a2) then (-1)%Z
  else if fgt (val a1) (val a2) then 1%Z
  else 0%Z.

Definition cmp_desc_float (a1 a2 : sort_float) : Z :=
  if fgt (val a1) (val a2) then (-1)%Z
  else if flt (val a1) (val a2) then 1%Z
  else 0%Z.

Section Sortf.
(** [qsort(base, nmemb, size, compar)] of the C library, on an array of
    [nmemb] records. *)
Variable qsort : (sort_float -> sort_float -> Z) -> list sort_float -> list sort_float.

(** Returns the final contents of [in_vec], [out_vec] and [new_idices]. *)
Definition sortf (in_vec : list float) (out_vec : ptr float) (new_idices : ptr nat)
    (len : nat) (descendFLAG : Z) : list float * ptr float * ptr nat :=
  let data := malloc_buf len in
  let data :=
    for_ len (fun i data => <[i := Build_sort_float (in_vec !!! i) i]> data) data in
  let data :=
    if (descendFLAG =? 0)%Z then qsort cmp_asc_float data
    else qsort cmp_desc_float data in
  for_ len
    (fun i '(in_vec, out_vec, new_idices) =>
       let '(in_vec, out_vec) :=
         match out_vec with
         | Some o => (in_vec, Some (<[i := val (data !!! i)]> o))
         | NULL => (<[i := val (data !!! i)]> in_vec, NULL)
         end in
       let new_idices :=
         match new_idices with
         | Some ni => Some (<[i := idx (data !!! i)]> ni)
         | NULL => NULL
         end in
       (in_vec, out_vec, new_idices))
    (in_vec, out_vec, new_idices).
End Sortf.

(** ** Vector primitives *)

(** The three configurations the preprocessor selects between:
    [__ACCELERATE__] defined, [INTEL_MKL_VERSION] defined, or neither. *)
Inductive build := ACCELERATE | INTEL_MKL | PLAIN.

(** Backend vector routines, with unit strides as they are called here.
    Each writes [n] elements of its output array. *)

(** [cblas_scopy(n, x, 1, y, 1)] *)
Definition cblas_scopy (n : nat) (x y : list float) : list float :=
  for_ n (fun i y => <[i := x !!! i]> y) y.

(** [memcpy(dst, src, n)] between two arrays of [T], for [n] a multiple of
    [sizeof(T)]: [n / sizeof(T)] elements are copied. *)
Definition memcpy {T} `{Inhabited T} (lay : layout T) (dst src : list T) (n : nat) : list T :=
  for_ (n / sizeof lay) (fun i dst => <[i := src !!! i]> dst) dst.

(** [vDSP_vmul(a, 1, b, 1, c, 1, n)] *)
Definition vDSP_vmul (a b c : list float) (n : nat) : list float :=
  for_ n (fun i c => <[i := fmul binary32 (a !!! i) (b !!! i)]> c) c.

(** [vsMul(n, a, b, y)] *)
Definition vsMul (n : nat) (a b y : list float) : list float :=
  for_ n (fun i y => <[i := fmul binary32 (a !!! i) (b !!! i)]> y) y.

(** [cblas_sscal(n, alpha, x + off, 1)] and [cblas_dscal] *)
Definition cblas_scal (fm : format) (n : nat) (alpha : float) (x : list float)
    (off : nat) : list float :=
  for_ n (fun r x => <[off + r := fmul fm alpha (x !!! (off + r))]> x) x.

(** [vDSP_vsmul(a, 1, s, c, 1, n)] *)
Definition vDSP_vsmul (a : list float) (s : float) (c : list float) (n : nat) : list float :=
  for_ n (fun i c => <[i := fmul binary32 (a !!! i) s]> c) c.

(** [vDSP_vsdiv(a, 1, s, c, 1, n)] *)
Definition vDSP_vsdiv (a : list float) (s : float) (c : list float) (n : nat) : list float :=
  for_ n (fun i c => <[i := fdiv binary32 (a !!! i) s]> c) c.

(** A routine that writes its result through the pointer [p]. *)
Definition through {T} (p : ptr T) (f : list T -> list T) : M (ptr T) :=
  match p with
  | Some b => ret (Some (f b))
  | NULL => None
  end.

Definition utility_svvcopy (bld : build) (a : list float) (len : nat) (c : list float)
    : list float :=
  match bld with
  | ACCELERATE | INTEL_MKL => cblas_scopy len a c
  | PLAIN => memcpy lay_float c a (len * sizeof lay_float)
  end.

(** The vector primitives return the final contents of [a] and of [c]. *)
Definition utility_svvmul (bld : build) (a b : list float) (len : nat) (c : ptr float)
    : M (list float * ptr float) :=
  match bld with
  | ACCELERATE =>
      match c with
      | NULL =>
          let tmp := malloc_buf len in
          let tmp := vDSP_vmul a b tmp len in
          ret (utility_svvcopy ACCELERATE tmp len a, NULL)
      | Some _ =>
          c <- through c (fun c => vDSP_vmul a b c len);;
          ret (a, c)
      end
  | INTEL_MKL =>
      c <- through c (fun c => vsMul len a b c);;
      ret (a, c)
  | PLAIN =>
      forM len
        (fun i '(a, c) =>
           c <- store c i (fmul binary32 (a !!! i) (b !!! i));;
           ret (a, c))
        (a, c)
  end.

Definition utility_svsmul (bld : build) (a : list float) (s : float) (len : nat)
    (c : ptr float) : M (list float * ptr float) :=
  match bld with
  | ACCELERATE =>
      match c with
      | NULL => ret (cblas_scal binary32 len s a 0, NULL)
      | Some _ =>
          c <- through c (fun c => vDSP_vsmul a s c len);;
          ret (a, c)
      end
  | INTEL_MKL =>
      match c with
      | NULL => ret (cblas_scal binary32 len s a 0, NULL)
      | Some _ =>
          c <- through c (fun c => memcpy lay_float c a (len * sizeof lay_float));;
          c <- through c (fun c => cblas_scal binary32 len s c 0);;
          ret (a, c)
      end
  | PLAIN =>
      forM len
        (fun i '(a, c) =>
           c <- store c i (fmul binary32 (a !!! i) s);;
           ret (a, c))
        (a, c)
  end.

Definition utility_svsdiv (bld : build) (a : list float) (s : float) (len : nat)
    (c : ptr float) : M (list float * ptr float) :=
  if feq s f0_0 then
    c <- memset_at lay_float c 0 (len * sizeof lay_float);;
    ret (a, c)
  else
    match bld with
    | ACCELERATE =>
        c <- through c (fun c => vDSP_vsdiv a s c len);;
        ret (a, c)
    | _ =>
        forM len
          (fun i '(a, c) =>
             c <- store c i (fdiv binary32 (a !!! i) s);;
             ret (a, c))
          (a, c)
    end.

(** ** The LAPACK and BLAS kernels *)

(** [jobu]/[jobvt] of [?gesvd]: "A" (all columns) or "S" (economy size). *)
Inductive job := JobA | JobS.

(** What one call of [?gesvd] leaves in [info], [a], [s], [u], [vt] and
    [work[0]]. *)
Record gesvd_out := Gesvd_out {
  gesvd_info : Z;
  gesvd_a : list float;
  gesvd_s : list float;
  gesvd_u : list float;
  gesvd_vt : list float;
  gesvd_work0 : float
}.

(** [?gesvd(jobu, jobvt, m, n, a, lda, _, _, ldu, _, ldvt, _, lwork, _)] *)
Definition gesvd_t : Type :=
  job -> job -> nat -> nat -> list float -> nat -> nat -> nat -> Z -> gesvd_out.

(** What one call of [ssyev] leaves in [info], [a], [w] and [work[0]]. *)
Record syev_out := Syev_out {
  syev_info : Z;
  syev_a : list float;
  syev_w : list float;
  syev_work0 : float
}.

(** [ssyev("Vectors", "Upper", n, a, lda, _, _, lwork, _)] *)
Definition syev_t : Type := nat -> list float -> nat -> Z -> syev_out.

(** What one call of [cgeev] leaves in [info], [a], [w], [vl], [vr] and
    [work[0]]. *)
Record geev_out := Geev_out {
  geev_info : Z;
  geev_a : list float_complex;
  geev_w : list float_complex;
  geev_vl : list float_complex;
  geev_vr : list float_complex;
  geev_work0 : float_complex
}.

(** [cgeev("Vectors", "Vectors", n, a, lda, _, _, ldvl, _, ldvr, _, lwork, _, _)] *)
Definition geev_t : Type :=
  nat -> list float_complex -> nat -> nat -> nat -> Z -> geev_out.

Inductive CBLAS_TRANSPOSE := CblasNoTrans | CblasTrans.

(** [cblas_?gemm(CblasColMajor, transa, transb, m, n, k, alpha, a, lda, b,
    ldb, beta, c, ldc)]: the new contents of [c]. *)
Definition gemm_t : Type :=
  CBLAS_TRANSPOSE -> CBLAS_TRANSPOSE -> nat -> nat -> nat -> float ->
  list float -> nat -> list float -> nat -> float -> list float -> nat -> list float.

(** ** The heap of [utility_ssvd]'s output matrices *)

(** Blocks obtained from [malloc]/[calloc], by address. *)
Abbreviation heap := (gmap nat (list float)).

(** [free(p)]: nothing for [NULL]; a fault when [p] is not a live block. *)
Definition free (h : heap) (p : option nat) : M heap :=
  match p with
  | NULL => ret h
  | Some l => match h !! l with
              | Some _ => ret (delete l h)
              | None => None
              end
  end.

(** [malloc(n*sizeof(float))]: a block at an address that is not live. *)
Definition malloc (h : heap) (n : nat) : nat * heap :=
  let l := fresh (dom h) in (l, <[l := malloc_buf n]> h).

(** [calloc(n, sizeof(float))] *)
Definition calloc (h : heap) (n : nat) : nat * heap :=
  let l := fresh (dom h) in (l, <[l := replicate n fzero]> h).

(** [p[i] = v] for a block [p] of the heap *)
Definition poke (h : heap) (p : nat) (i : nat) (v : float) : heap :=
  alter (<[i := v]>) p h.

(** ** Drivers *)

Section Drivers.
Variable sgesvd : gesvd_t.
Variable dgesvd : gesvd_t.
Variable ssyev : syev_t.
Variable cgeev : geev_t.
Variable cblas_sgemm : gemm_t.
Variable cblas_dgemm : gemm_t.
Variable qsort : (sort_float -> sort_float -> Z) -> list sort_float -> list sort_float.

(** The factorisation of [utility_ssvd]: the column-major copy, the
    workspace query and the call proper. *)
Definition ssvd_factor (A : list float) (dim1 dim2 : nat) : gesvd_out :=
  let m := dim1 in let n := dim2 in
  let lda := dim1 in let ldu := dim1 in let ldvt := dim2 in
  let a : list float := malloc_buf (lda * n) in
  let a :=
    for_ dim1 (fun i a =>
      for_ dim2 (fun j a => <[j * dim1 + i := A !!! (i * dim2 + j)]> a) a) a in
  let lwork := (-1)%Z in
  let r := sgesvd JobA JobA m n a lda ldu ldvt lwork in
  let lwork := int_of_float (gesvd_work0 r) in
  sgesvd JobA JobA m n (gesvd_a r) lda ldu ldvt lwork.

(** [U], [S], [V] are the values of [*U], [*S], [*V] at entry; the result
    holds the heap and their values at exit. *)
Definition utility_ssvd (A : list float) (dim1 dim2 : nat)
    (h : heap) (U S V : option nat)
    : M (heap * option nat * option nat * option nat) :=
  let r := ssvd_factor A dim1 dim2 in
  let s := gesvd_s r in let u := gesvd_u r in let vt := gesvd_vt r in
  h <- free h U;;
  h <- free h S;;
  h <- free h V;;
  if (0 <? gesvd_info r)%Z then
    ret (h, NULL, NULL, NULL)
  else
    let '(U', h) := malloc h (dim1 * dim1) in
    let '(S', h) := calloc h (dim1 * dim2) in
    let '(V', h) := malloc h (dim2 * dim2) in
    let h :=
      for_ dim1 (fun i h =>
        for_ dim1 (fun j h => poke h U' (i * dim1 + j) (u !!! (j * dim1 + i))) h) h in
    let h :=
      for_ (dim1 `min` dim2) (fun i h => poke h S' (i * dim2 + i) (s !!! i)) h in
    let h :=
      for_ dim2 (fun i h =>
        for_ dim2 (fun j h => poke h V' (i * dim2 + j) (vt !!! (i * dim2 + j))) h) h in
    ret (h, Some U', Some S', Some V').

(** The eigensolver call of [utility_sseig]. *)
Definition sseig_solve (A : list float) (dim : nat) : syev_out :=
  let n := dim in let lda := dim in
  let a : list float := malloc_buf (dim * dim) in
  let a :=
    for_ dim (fun i a =>
      for_ dim (fun j a => <[i * dim + j := A !!! (j * dim + i)]> a) a) a in
  let lwork := (-1)%Z in
  let r := ssyev n a lda lwork in
  let lwork := int_of_float (syev_work0 r) in
  ssyev n (syev_a r) lda lwork.

(** Returns the final contents of [V] and [D]. *)
Definition utility_sseig (A : list float) (dim : nat) (sortDecFLAG : Z)
    (V D : list float) : list float * list float :=
  let r := sseig_solve A dim in
  let a := syev_a r in let w := syev_w r in
  let D := memset lay_float D 0 (dim * dim * sizeof lay_float) in
  if (0 <? syev_info r)%Z then
    (memset lay_float V 0 (dim * dim * sizeof lay_float), D)
  else if (sortDecFLAG =? 0)%Z then
    for_ dim (fun i '(V, D) =>
      let V := for_ dim (fun j V => <[i * dim + j := a !!! (j * dim + i)]> V) V in
      let D := <[i * dim + i := w !!! i]> D in
      (V, D)) (V, D)
  else
    for_ dim (fun i '(V, D) =>
      let V :=
        for_ dim (fun j V => <[i * dim + j := a !!! ((dim - j - 1) * dim + i)]> V) V in
      let D := <[i * dim + i := w !!! (dim - i - 1)]> D in
      (V, D)) (V, D).

(** The eigensolver call of [utility_ceig].  The two calls of [cgeev_] are
    compiled under [__APPLE__] or [INTEL_MKL_VERSION]; in any other build [w],
    [vl], [vr] and [info] are indeterminate, which an arbitrary [cgeev]
    covers. *)
Definition ceig_solve (A : list float_complex) (dim : nat) : geev_out :=
  let n := dim in let lda := dim in let ldvl := dim in let ldvr := dim in
  let a : list float_complex := malloc_buf (dim * dim) in
  let a :=
    for_ dim (fun i a =>
      for_ dim (fun j a => <[i * dim + j := A !!! (j * dim + i)]> a) a) a in
  let lwork := (-1)%Z in
  let r := cgeev n a lda ldvl ldvr lwork in
  let lwork := int_of_float (crealf (geev_work0 r)) in
  cgeev n (geev_a r) lda ldvl ldvr lwork.

(** The sorted real parts [wr] and the permutation [sort_idx]. *)
Definition ceig_sort (w : list float_complex) (dim : nat) (sortDecFLAG : Z)
    : list float * list nat :=
  let wr : list float := malloc_buf dim in
  let sort_idx : list nat := malloc_buf dim in
  let wr := for_ dim (fun i wr => <[i := crealf (w !!! i)]> wr) wr in
  match sortf qsort wr NULL (Some sort_idx) dim sortDecFLAG with
  | (wr, _, Some sort_idx) => (wr, sort_idx)
  | (wr, _, NULL) => (wr, sort_idx)
  end.

(** Returns the final contents of [VL], [VR] and [D]. *)
Definition utility_ceig (A : list float_complex) (dim : nat) (sortDecFLAG : Z)
    (VL VR D : ptr float_complex)
    : M (ptr float_complex * ptr float_complex * ptr float_complex) :=
  let r := ceig_solve A dim in
  let w := geev_w r in let vl := geev_vl r in let vr := geev_vr r in
  let '(wr, sort_idx) := ceig_sort w dim sortDecFLAG in
  D <- (if D is Some _
        then memset_at lay_float_complex D 0 (dim * dim * sizeof lay_float_complex)
        else ret D);;
  if (0 <? geev_info r)%Z then
    VL <- (if VL is Some _
           then memset_at lay_float_complex VL 0 (dim * dim * sizeof lay_float_complex)
           else ret VL);;
    VR <- (if VR is Some _
           then memset_at lay_float_complex VR 0 (dim * dim * sizeof lay_float_complex)
           else ret VR);;
    ret (VL, VR, D)
  else
    forM dim (fun i '(VL, VR, D) =>
      VL <- (if VL is Some _
             then forM dim (fun j VL =>
                    store VL (i * dim + j) (vl !!! ((sort_idx !!! j) * dim + i))) VL
             else ret VL);;
      VR <- (if VR is Some _
             then forM dim (fun j VR =>
                    store VR (i * dim + j) (vr !!! ((sort_idx !!! j) * dim + i))) VR
             else ret VR);;
      D <- (if D is Some _
            then store D (i * dim + i) (cmplxf (wr !!! i) f0_0)
            else ret D);;
      ret (VL, VR, D)) (VL, VR, D).

(** [utility_spinv] and [utility_dpinv] are one text at two precisions:
    [fm] is the arithmetic, [lay] the element type of [outM], [tol],
    [one] and [zero] the constants after their conversion to that type. *)
Definition pinv_factor (gesvd : gesvd_t) (inM : list float) (dim1 dim2 : nat)
    : gesvd_out :=
  let m := dim1 in let lda := dim1 in let ldu := dim1 in
  let n := dim2 in
  let k := if m <? n then m else n in let ldvt := k in
  let a : list float := malloc_buf (m * n) in
  let a :=
    for_ m (fun i a =>
      for_ n (fun j a => <[j * m + i := inM !!! (i * n + j)]> a) a) a in
  let lwork := (-1)%Z in
  let r := gesvd JobS JobS m n a lda ldu ldvt lwork in
  let lwork := int_of_float (gesvd_work0 r) in
  gesvd JobS JobS m n (gesvd_a r) lda ldu ldvt lwork.

(** The loop over the singular values: column [i] of [u] is scaled. *)
Definition pinv_scale (fm : format) (tol one : float) (s u : list float) (m k : nat)
    : list float :=
  for_ k (fun i u =>
    let ss := if fgt (s !!! i) tol then fdiv fm one (s !!! i) else s !!! i in
    cblas_scal fm m ss u (i * m)) u.

Definition pinv (fm : format) (lay : layout float) (tol one zero : float)
    (gesvd : gesvd_t) (gemm : gemm_t)
    (inM : list float) (dim1 dim2 : nat) (outM : list float) : list float :=
  let m := dim1 in let ldu := dim1 in
  let n := dim2 in
  let k := if m <? n then m else n in let ldvt := k in
  let r := pinv_factor gesvd inM dim1 dim2 in
  let s := gesvd_s r in let u := gesvd_u r in let vt := gesvd_vt r in
  if (0 <? gesvd_info r)%Z then
    memset lay outM 0 (dim1 * dim2 * sizeof lay_float)
  else
    let u := pinv_scale fm tol one s u m k in
    let inva : list float := malloc_buf (n * m) in
    let ld_inva := n in
    let inva :=
      gemm CblasTrans CblasTrans n m k one vt ldvt u ldu zero inva ld_inva in
    for_ m (fun i outM =>
      for_ n (fun j outM => <[j * m + i := inva !!! (i * n + j)]> outM) outM) outM.

Definition utility_spinv : list float -> nat -> nat -> list float -> list float :=
  pinv binary32 lay_float f1e_5 f1_0 f0_0 sgesvd cblas_sgemm.

Definition utility_dpinv : list float -> nat -> nat -> list float -> list float :=
  pinv binary64 lay_double (float_to_double f1e_9) (float_to_double f1_0)
       (float_to_double f0_0) dgesvd cblas_dgemm.
End Drivers.

(** ** A reference [qsort]: insertion sort by the comparison function *)

Fixpoint insert_by {T} (cmp : T -> T -> Z) (x : T) (l : list T) : list T :=
  match l with
  | [] => [x]
  | y :: l' => if (cmp x y <=? 0)%Z then x :: y :: l' else y :: insert_by cmp x l'
  end.

Definition isort {T} (cmp : T -> T -> Z) (l : list T) : list T :=
  foldr (insert_by cmp) [] l.

(** Small integers as binary32 and binary64 values, for examples. *)
Definition fZ (z : Z) : float := lit binary32 z 0.
Definition dZ (z : Z) : float := lit binary64 z 0.

(** The reciprocal a singular value is replaced by in the pseudo-inverse, in
    the words of the specification: [1/x] above the tolerance, [x] itself
    otherwise. *)
Definition clamped_reciprocal (fm : format) (tol one x : float) : float :=
  if fgt x tol then fdiv fm one x else x.

(** The heap after [free(p)] of a valid pointer. *)
Definition release (p : option nat) (h : heap) : heap :=
  match p with
  | Some l => delete l h
  | NULL => h
  end.

(** The contract of [qsort] in the C standard: when the comparison function
    orders the elements consistently, the array is rearranged into
    ascending order according to it (the order of equal elements is
    unspecified). *)
Definition consistent {T} (cmp : T -> T -> Z) (l : list T) : Prop :=
  forall x y z, x ∈ l -> y ∈ l -> z ∈ l ->
    ((cmp x y <= 0)%Z \/ (cmp y x <= 0)%Z) /\
    ((cmp x y <= 0)%Z -> (cmp y z <= 0)%Z -> (cmp x z <= 0)%Z).

Definition sorted_by {T} (cmp : T -> T -> Z) (l : list T) : Prop :=
  forall i j x y, i < j -> l !! i = Some x -> l !! j = Some y -> (cmp x y <= 0)%Z.

Definition qsort_contract
    (qsort : (sort_float -> sort_float -> Z) -> list sort_float -> list sort_float)
    : Prop :=
  forall cmp l, consistent cmp l -> qsort cmp l ≡ₚ l /\ sorted_by cmp (qsort cmp l).

(** The records of [sortf] before and after [qsort]. *)
Definition sortf_records (in_vec : list float) (len : nat) : list sort_float :=
  (fun i => Build_sort_float (in_vec !!! i) i) <$> seq 0 len.

Definition sortf_sorted
    (qsort : (sort_float -> sort_float -> Z) -> list sort_float -> list sort_float)
    (in_vec : list float) (len : nat) (descendFLAG : Z) : list sort_float :=
  if (descendFLAG =? 0)%Z then qsort cmp_asc_float (sortf_records in_vec len)
  else qsort cmp_desc_float (sortf_records in_vec len).

(** What [utility_ceig] does to an output buffer that is there: cleared on
    failure; on success filled with the selected eigenvectors, or with the
    sorted real parts on a cleared diagonal. *)
Definition ceig_clear (dim : nat) (b : list float_complex) : list float_complex :=
  memset lay_float_complex b 0 (dim * dim * sizeof lay_float_complex).

Definition ceig_vectors (dim : nat) (sort_idx : list nat) (v b : list float_complex)
    : list float_complex :=
  for_ dim (fun i b =>
    for_ dim (fun j b => <[i * dim + j := v !!! ((sort_idx !!! j) * dim + i)]> b) b) b.

Definition ceig_values (dim : nat) (wr : list float) (b : list float_complex)
    : list float_complex :=
  for_ dim (fun i b => <[i * dim + i := cmplxf (wr !!! i) f0_0]> b) (ceig_clear dim b).

(** Records whose values are not NaN. *)
Definition no_nan (l : list sort_float) : Prop :=
  forall x, x ∈ l -> is_nan (val x) = false.

(** The position of a value that is not a NaN in the order of the floats:
    the sign class, then exponent and mantissa. *)
Definition fkey (x : float) : Z * Z * Z :=
  match x with
  | S754_zero _ => (0, 0, 0)%Z
  | S754_infinity s => (if s then (-2)%Z else 2%Z, 0%Z, 0%Z)
  | S754_nan => (3, 0, 0)%Z
  | S754_finite s m e => if s then ((-1)%Z, (- e)%Z, Zneg m) else (1%Z, e, Zpos m)
  end.

Definition kcmp (k k' : Z * Z * Z) : comparison :=
  match (k.1.1 ?= k'.1.1)%Z with
  | Eq => match (k.1.2 ?= k'.1.2)%Z with
          | Eq => (k.2 ?= k'.2)%Z
          | c => c
          end
  | c => c
  end.

(** What [free] requires of the three output pointers: each is null or a
    live block, and no block is named twice. *)
Definition valid_ptr (h : heap) (p : option nat) : Prop :=
  forall l, p = Some l -> is_Some (h !! l).

Definition distinct_ptrs (p q : option nat) : Prop :=
  forall l, p = Some l -> q <> Some l.

(** ** Example kernels, for concrete instances *)

(** A [?gesvd] that reports non-convergence. *)
Definition gesvd_diverged : gesvd_t :=
  fun _ _ _ _ a _ _ _ _ => Gesvd_out 1 a [] [] [] fzero.

(** A [?gesvd] that answers, for the matrix diag(4, 2) in the given format:
    [s = (4, 2)], [u = vt = I]. *)
Definition gesvd_diag42 (fm : format) : gesvd_t :=
  fun _ _ _ _ a _ _ _ _ =>
    Gesvd_out 0 a [lit fm 4 0; lit fm 2 0]
      [lit fm 1 0; fzero; fzero; lit fm 1 0]
      [lit fm 1 0; fzero; fzero; lit fm 1 0] (lit fm 64 0).

(** The reference [?gemm] for column-major operands. *)
Definition gemm_ref (fm : format) : gemm_t :=
  fun ta tb m n k alpha a lda b ldb beta c ldc =>
    let opa i l := match ta with
                   | CblasNoTrans => a !!! (l * lda + i)
                   | CblasTrans => a !!! (i * lda + l)
                   end in
    let opb l j := match tb with
                   | CblasNoTrans => b !!! (j * ldb + l)
                   | CblasTrans => b !!! (l * ldb + j)
                   end in
    for_ n (fun j c =>
      for_ m (fun i c =>
        let temp := for_ k (fun l t => fadd fm t (fmul fm (opa i l) (opb l j))) fzero in
        <[j * ldc + i :=
            if feq beta fzero then fmul fm alpha temp
            else fadd fm (fmul fm alpha temp) (fmul fm beta (c !!! (j * ldc + i)))]> c) c) c.

(** An [ssyev] that answers, for the matrix diag(4, 9): [w = (4, 9)],
    eigenvectors [I]. *)
Definition ssyev_diag49 : syev_t :=
  fun _ _ _ _ => Syev_out 0 [fZ 1; fZ 0; fZ 0; fZ 1] [fZ 4; fZ 9] (fZ 68).

(** A [cgeev] that answers, for the matrix diag(i, 2): [w = (i, 2)],
    eigenvectors [I]; and one that reports non-convergence. *)
Definition cgeev_diag (info : Z) : geev_t :=
  let c0 := cmplxf fzero fzero in
  let c1 := cmplxf (fZ 1) fzero in
  fun _ a _ _ _ _ =>
    Geev_out info a [cmplxf fzero (fZ 1); cmplxf (fZ 2) fzero]
      [c1; c0; c0; c1] [c1; c0; c0; c1] (cmplxf (fZ 8) fzero).

(** ** The remaining vector primitives *)

Definition fsub (fm : format) : float -> float -> float := SFsub (prec fm) (emax fm).

(** [cblas_ccopy(n, x, 1, y, 1)] *)
Definition cblas_ccopy (n : nat) (x y : list float_complex) : list float_complex :=
  for_ n (fun i y => <[i := x !!! i]> y) y.

Definition utility_cvvcopy (bld : build) (a : list float_complex) (len : nat)
    (c : list float_complex) : list float_complex :=
  match bld with
  | ACCELERATE | INTEL_MKL => cblas_ccopy len a c
  | PLAIN => memcpy lay_float_complex c a (len * sizeof lay_float_complex)
  end.

(** [vDSP_vsadd(a, 1, s, c, 1, n)] *)
Definition vDSP_vsadd (a : list float) (s : float) (c : list float) (n : nat) : list float :=
  for_ n (fun i c => <[i := fadd binary32 (a !!! i) s]> c) c.

Definition utility_svsadd (bld : build) (a : list float) (s : float) (len : nat)
    (c : ptr float) : M (list float * ptr float) :=
  match bld with
  | ACCELERATE =>
      c <- through c (fun c => vDSP_vsadd a s c len);;
      ret (a, c)
  | _ =>
      forM len
        (fun i '(a, c) =>
           c <- store c i (fadd binary32 (a !!! i) s);;
           ret (a, c))
        (a, c)
  end.

Definition utility_svssub (a : list float) (s : float) (len : nat) (c : ptr float)
    : M (list float * ptr float) :=
  forM len
    (fun i '(a, c) =>
       c <- store c i (fsub binary32 (a !!! i) s);;
       ret (a, c))
    (a, c).

(** [c[0] += a[i] * b[i]] is one expression of C, and the standard (C11
    6.5p8, [#pragma STDC FP_CONTRACT]) lets the compiler evaluate it either
    with the product rounded before the sum is, or contracted into one fused
    multiply-add, rounded once.  Which one a build takes is the compiler's
    choice. *)
Inductive fp_contract := FP_CONTRACT_OFF | FP_CONTRACT_ON.

(** [fma(x, y, z)] of IEEE 754: [x * y + z] rounded once.  For finite,
    non-zero [x] and [y] the product is kept exact (a mantissa and an
    exponent): [SFadd] aligns, adds and rounds it together with a finite [z];
    added to a zero it is the rounded product, with the product's sign even
    when it underflows; an infinite [z] absorbs it, also where the rounded
    product would overflow.  When [x] or [y] is a zero, an infinity or a NaN
    the product is exact as [SFmul] gives it. *)
Definition fma (fm : format) (x y z : float) : float :=
  match x, y with
  | S754_finite sx mx ex, S754_finite sy my ey =>
      match z with
      | S754_finite _ _ _ =>
          SFadd (prec fm) (emax fm) z (S754_finite (xorb sx sy) (mx * my) (ex + ey))
      | S754_zero _ => fmul fm x y
      | S754_infinity _ | S754_nan => z
      end
  | _, _ => fadd fm z (fmul fm x y)
  end.

(** [z + x * y] as the build evaluates it. *)
Definition mul_add (fc : fp_contract) (fm : format) (z x y : float) : float :=
  match fc with
  | FP_CONTRACT_OFF => fadd fm z (fmul fm x y)
  | FP_CONTRACT_ON => fma fm x y z
  end.

Section Dot.
(** [cblas_sdot(n, x, 1, y, 1)]: the order of the summation is the
    backend's. *)
Variable cblas_sdot : nat -> list float -> list float -> float.

(** [c] is dereferenced unconditionally; the result is its final contents. *)
Definition utility_svvdot (bld : build) (fc : fp_contract) (a b : list float) (len : nat)
    (c : list float) : list float :=
  match bld with
  | ACCELERATE | INTEL_MKL => <[0 := cblas_sdot len a b]> c
  | PLAIN =>
      let c := <[0 := f0_0]> c in
      for_ len (fun i c =>
        <[0 := mul_add fc binary32 (c !!! 0) (a !!! i) (b !!! i)]> c) c
  end.
End Dot.

Section ComplexPrimitives.
(** The arithmetic of [saf_complex.h], which is not among the sources:
    [ccaddf], [ccmulf] and [conjf] are parameters, and so is the value of the
    enumerator [CONJ] of [CONJ_FLAG] ([saf_veclib.h]). *)
Variables ccaddf ccmulf : float_complex -> float_complex -> float_complex.
Variable conjf : float_complex -> float_complex.
Variable CONJ : Z.

(** [cblas_cdotu_sub(n, x, 1, y, 1, &r)], [cblas_cdotc_sub] and
    [cblas_cscal(n, &alpha, x, 1)] *)
Variables cblas_cdotu_sub cblas_cdotc_sub :
  nat -> list float_complex -> list float_complex -> float_complex.
Variable cblas_cscal : nat -> float_complex -> list float_complex -> list float_complex.

(** The [switch] sends [CONJ] to the conjugating loop and every other value
    of [flag] ([default:] and [NO_CONJ]) to the plain one. *)
Definition utility_cvvdot (bld : build) (a b : list float_complex) (len : nat)
    (flag : Z) (c : list float_complex) : list float_complex :=
  match bld with
  | ACCELERATE | INTEL_MKL =>
      if (flag =? CONJ)%Z then <[0 := cblas_cdotc_sub len a b]> c
      else <[0 := cblas_cdotu_sub len a b]> c
  | PLAIN =>
      let c := <[0 := cmplxf f0_0 f0_0]> c in
      if (flag =? CONJ)%Z then
        for_ len (fun i c =>
          <[0 := ccaddf (c !!! 0) (ccmulf (conjf (a !!! i)) (b !!! i))]> c) c
      else
        for_ len (fun i c =>
          <[0 := ccaddf (c !!! 0) (ccmulf (a !!! i) (b !!! i))]> c) c
  end.

Definition utility_cvsmul (bld : build) (a : list float_complex) (s : float_complex)
    (len : nat) (c : ptr float_complex) : M (list float_complex * ptr float_complex) :=
  match bld with
  | ACCELERATE | INTEL_MKL =>
      match c with
      | NULL => ret (cblas_cscal len s a, NULL)
      | Some _ =>
          forM len
            (fun i '(a, c) =>
               c <- store c i (ccmulf (a !!! i) s);;
               ret (a, c))
            (a, c)
      end
  | PLAIN =>
      forM len
        (fun i '(a, c) =>
           c <- store c i (ccmulf (a !!! i) s);;
           ret (a, c))
        (a, c)
  end.
End ComplexPrimitives.

(** ** The linear solvers *)

(** What [?gesv] or [?posv] leaves in [info], [a] and [b]. *)
Record solve_out (T : Type) := Solve_out {
  solve_info : Z;
  solve_a : list T;
  solve_b : list T
}.
Arguments Solve_out {T} _ _ _.
Arguments solve_info {T} _.
Arguments solve_a {T} _.
Arguments solve_b {T} _.

(** [?gesv(n, nrhs, a, lda, _, b, ldb, _)] and [?posv("U", n, nrhs, a, lda,
    b, ldb, _)] *)
Definition solve_t (T : Type) : Type :=
  nat -> nat -> list T -> nat -> list T -> nat -> solve_out T.

(** The column-major copies the four solvers hand to the backend. *)
Definition lslv_a {T} `{Inhabited T} (A : list T) (dim : nat) : list T :=
  let a : list T := malloc_buf (dim * dim) in
  for_ dim (fun i a =>
    for_ dim (fun j a => <[j * dim + i := A !!! (i * dim + j)]> a) a) a.

Definition lslv_b {T} `{Inhabited T} (B : list T) (dim nCol : nat) : list T :=
  let nrhs := nCol in
  let b : list T := malloc_buf (dim * nrhs) in
  for_ dim (fun i b =>
    for_ nCol (fun j b => <[j * dim + i := B !!! (i * nCol + j)]> b) b) b.

(** The four solvers are one text, at two element types and with two
    kernels.  The result is the final contents of [X]; [B] is only read.
    (The complex kernels are called under [__APPLE__] or
    [INTEL_MKL_VERSION]; in any other build [b] stays as it is and [info] is
    indeterminate, which an arbitrary kernel covers.) *)
Definition lslv {T} `{Inhabited T} (lay : layout T) (kernel : solve_t T)
    (A : list T) (dim : nat) (B : list T) (nCol : nat) (X : list T) : list T :=
  let n := dim in let nrhs := nCol in let lda := dim in let ldb := dim in
  let a := lslv_a A dim in
  let b := lslv_b B dim nCol in
  let r := kernel n nrhs a lda b ldb in
  let b := solve_b r in
  if (0 <? solve_info r)%Z then
    memset lay X 0 (dim * nCol * sizeof lay)
  else
    for_ dim (fun i X =>
      for_ nCol (fun j X => <[i * nCol + j := b !!! (j * dim + i)]> X) X) X.

Definition utility_sglslv (sgesv : solve_t float) :
    list float -> nat -> list float -> nat -> list float -> list float :=
  lslv lay_float sgesv.

Definition utility_cglslv (cgesv : solve_t float_complex) :
    list float_complex -> nat -> list float_complex -> nat -> list float_complex
    -> list float_complex :=
  lslv lay_float_complex cgesv.

Definition utility_sslslv (sposv : solve_t float) :
    list float -> nat -> list float -> nat -> list float -> list float :=
  lslv lay_float sposv.

Definition utility_cslslv (cposv : solve_t float_complex) :
    list float_complex -> nat -> list float_complex -> nat -> list float_complex
    -> list float_complex :=
  lslv lay_float_complex cposv.

(** ** Further example kernels *)

(** A kernel that leaves the right-hand sides as they are (the answer for
    the identity matrix), and one that reports a singular matrix. *)
Definition solve_identity {T} : solve_t T :=
  fun _ _ a _ b _ => Solve_out 0 a b.

Definition solve_singular {T} : solve_t T :=
  fun _ _ a _ b _ => Solve_out 1 a b.

(** Complex arithmetic by the textbook formulas, and the reference dot
    product. *)
Definition ccaddf_ref (x y : float_complex) : float_complex :=
  cmplxf (fadd binary32 (crealf x) (crealf y)) (fadd binary32 (cimagf x) (cimagf y)).

Definition ccmulf_ref (x y : float_complex) : float_complex :=
  cmplxf (fsub binary32 (fmul binary32 (crealf x) (crealf y))
                        (fmul binary32 (cimagf x) (cimagf y)))
         (fadd binary32 (fmul binary32 (crealf x) (cimagf y))
                        (fmul binary32 (cimagf x) (crealf y))).

Definition conjf_ref (x : float_complex) : float_complex :=
  cmplxf (crealf x) (SFopp (cimagf x)).

Definition sdot_ref (fc : fp_contract) (n : nat) (x y : list float) : float :=
  for_ n (fun i t => mul_add fc binary32 t (x !!! i) (y !!! i)) fzero.

(** The binary64 value nearest to 1e-9, and the binary64 value next below
    it, which is below the real number 1e-9 as well. *)
Definition d1e_9 : float := S754_finite false 4835703278458517 (-82).
Definition d1e_9_pred : float := S754_finite false 4835703278458516 (-82).

(** A [dgesvd] that answers, for the 1 x 1 matrix [(s)] with [s > 0]: the
    singular value [s], [u = vt = (1)]. *)
Definition gesvd_scalar (s : float) : gesvd_t :=
  fun _ _ _ _ a _ _ _ _ => Gesvd_out 0 a [s] [dZ 1] [dZ 1] (dZ 64).

(** A [cgeev] that answers with the eigenvalues [2], [NaN] and [1] and the
    eigenvectors [I]. *)
Definition cgeev_nan : geev_t :=
  let c0 := cmplxf fzero fzero in
  let c1 := cmplxf (fZ 1) fzero in
  fun _ a _ _ _ _ =>
    Geev_out 0 a [cmplxf (fZ 2) fzero; cmplxf S754_nan fzero; cmplxf (fZ 1) fzero]
      [c1; c0; c0; c0; c1; c0; c0; c0; c1] [c1; c0; c0; c0; c1; c0; c0; c0; c1]
      (cmplxf (fZ 8) fzero).

(** A [qsort] that only rearranges: it reverses the array. *)
Definition qsort_reverse (cmp : sort_float -> sort_float -> Z) (l : list sort_float)
    : list sort_float := reverse l.

(** * Facts *)

(** ** Loops *)

Section Loops.
Context {St : Type}.
Implicit Types (body : nat -> St -> St) (s : St).

Lemma for_0 body s : for_ 0 body s = s.
Proof. reflexivity. Qed.

Lemma for_S n body s : for_ (S n) body s = body n (for_ n body s).
Proof.
  unfold for_. rewrite seq_S, fold_left_app. reflexivity.
Qed.

(** The invariant rule. *)
Lemma for_inv (P : nat -> St -> Prop) n body s :
  P 0 s ->
  (forall i t, i < n -> P i t -> P (S i) (body i t)) ->
  P n (for_ n body s).
Proof.
  intros H0 Hstep. induction n as [|n IH].
  - exact H0.
  - rewrite for_S. apply Hstep; [lia|]. apply IH.
    intros i t Hi. apply Hstep. lia.
Qed.

Lemma for_ext n body body' s :
  (forall i t, i < n -> body i t = body' i t) ->
  for_ n body s = for_ n body' s.
Proof.
  intros Heq. induction n as [|n IH]; [reflexivity|].
  rewrite !for_S, IH by (intros; apply Heq; lia).
  apply Heq. lia.
Qed.
End Loops.

(** A loop over a pair whose components do not interact. *)
Lemma for_prod {A B : Type} n (f : nat -> A -> A) (g : nat -> B -> B) a b :
  for_ n (fun i '(x, y) => (f i x, g i y)) (a, b) = (for_ n f a, for_ n g b).
Proof.
  induction n as [|n IH]; [reflexivity|].
  rewrite !for_S, IH. reflexivity.
Qed.

Lemma for_prod3 {A B C : Type} n (f : nat -> A -> A) (g : nat -> B -> B)
    (k : nat -> C -> C) a b c :
  for_ n (fun i '(x, y, z) => (f i x, g i y, k i z)) (a, b, c)
  = (for_ n f a, for_ n g b, for_ n k c).
Proof.
  induction n as [|n IH]; [reflexivity|].
  rewrite !for_S, IH. reflexivity.
Qed.

(** A loop whose body never faults is a pure loop. *)
Lemma forM_pure {St : Type} n (body : nat -> St -> M St) (f : nat -> St -> St) s :
  (forall i t, i < n -> body i t = ret (f i t)) ->
  forM n body s = ret (for_ n f s).
Proof.
  intros Hb. unfold forM. induction n as [|n IH]; [reflexivity|].
  rewrite !for_S, IH by (intros; apply Hb; lia).
  simpl. apply Hb. lia.
Qed.

(** A loop that faults in its first round faults. *)
Lemma forM_fault {St : Type} n (body : nat -> St -> M St) s :
  0 < n -> body 0 s = None -> forM n body s = None.
Proof.
  intros Hn H0. unfold forM.
  destruct n as [|n]; [lia|]. clear Hn.
  induction n as [|n IH].
  - rewrite for_S, for_0. exact H0.
  - rewrite for_S, IH. reflexivity.
Qed.

(** ** Indices of a matrix stored by rows or by columns *)

Lemma index_inj d i j i' j' :
  j < d -> j' < d -> i * d + j = i' * d + j' -> i = i' /\ j = j'.
Proof.
  intros Hj Hj' Heq.
  assert (i = i') as ->.
  { destruct (Nat.lt_trichotomy i i') as [Hlt|[Heq'|Hgt]]; [|exact Heq'|].
    - assert (i * d + d <= i' * d) by nia. lia.
    - assert (i' * d + d <= i * d) by nia. lia. }
  split; [reflexivity|lia].
Qed.

Lemma index_lt d n i j : i < n -> j < d -> i * d + j < n * d.
Proof. intros Hi Hj. assert (i * d + d <= n * d) by nia. lia. Qed.

Lemma index_diag_inj d i i' : i * d + i = i' * d + i' -> i = i'.
Proof. intros Heq. nia. Qed.

(** ** Filling a buffer *)

Section Fill.
Context {T : Type} `{!Inhabited T}.
Implicit Types (b : list T).

(** [for (r...) b[pos r] = g r b[pos r]]: an update in place. *)
Lemma for_update n (pos : nat -> nat) (g : nat -> T -> T) b :
  (forall r r', r < n -> r' < n -> pos r = pos r' -> r = r') ->
  (forall r, r < n -> pos r < length b) ->
  let b' := for_ n (fun r b => <[pos r := g r (b !!! pos r)]> b) b in
  length b' = length b /\
  (forall r, r < n -> b' !!! pos r = g r (b !!! pos r)) /\
  (forall k, (forall r, r < n -> pos r <> k) -> b' !!! k = b !!! k).
Proof.
  intros Hinj Hlen. cbv zeta.
  apply (for_inv (fun i b' =>
    length b' = length b /\
    (forall r, r < i -> b' !!! pos r = g r (b !!! pos r)) /\
    (forall k, (forall r, r < i -> pos r <> k) -> b' !!! k = b !!! k))).
  - split; [reflexivity|]. split; [intros; lia|reflexivity].
  - intros i t Hi (Hl & Hw & Hu). split; [|split].
    + rewrite length_insert. exact Hl.
    + intros r Hr. destruct (decide (r = i)) as [->|Hne].
      * rewrite list_lookup_total_insert_eq by (rewrite Hl; auto).
        f_equal. apply Hu. intros r Hr' Heq.
        apply Hinj in Heq; lia.
      * rewrite list_lookup_total_insert_ne.
        -- apply Hw. lia.
        -- intros Heq. apply Hinj in Heq; lia.
    + intros k Hk. rewrite list_lookup_total_insert_ne by (apply Hk; lia).
      apply Hu. intros r Hr. apply Hk. lia.
Qed.

(** [for (r...) b[pos r] = v r] *)
Lemma for_fill n (pos : nat -> nat) (v : nat -> T) b :
  (forall r r', r < n -> r' < n -> pos r = pos r' -> r = r') ->
  (forall r, r < n -> pos r < length b) ->
  let b' := for_ n (fun r b => <[pos r := v r]> b) b in
  length b' = length b /\
  (forall r, r < n -> b' !!! pos r = v r) /\
  (forall k, (forall r, r < n -> pos r <> k) -> b' !!! k = b !!! k).
Proof.
  intros Hinj Hlen. exact (for_update n pos (fun r _ => v r) b Hinj Hlen).
Qed.

(** Two nested loops that update a matrix in place. *)
Lemma for2_update rows cols (pos : nat -> nat -> nat) (g : nat -> nat -> T -> T) b :
  (forall i j i' j', i < rows -> j < cols -> i' < rows -> j' < cols ->
                     pos i j = pos i' j' -> i = i' /\ j = j') ->
  (forall i j, i < rows -> j < cols -> pos i j < length b) ->
  let b' :=
    for_ rows (fun i b =>
      for_ cols (fun j b => <[pos i j := g i j (b !!! pos i j)]> b) b) b in
  length b' = length b /\
  (forall i j, i < rows -> j < cols -> b' !!! pos i j = g i j (b !!! pos i j)) /\
  (forall k, (forall i j, i < rows -> j < cols -> pos i j <> k) -> b' !!! k = b !!! k).
Proof.
  intros Hinj Hlen. cbv zeta.
  apply (for_inv (fun i b' =>
    length b' = length b /\
    (forall i' j, i' < i -> j < cols -> b' !!! pos i' j = g i' j (b !!! pos i' j)) /\
    (forall k, (forall i' j, i' < i -> j < cols -> pos i' j <> k) -> b' !!! k = b !!! k))).
  - split; [reflexivity|]. split; [intros; lia|reflexivity].
  - intros i t Hi (Hl & Hw & Hu).
    destruct (for_update cols (pos i) (g i) t) as (Hl' & Hw' & Hu').
    + intros r r' Hr Hr' Heq. apply (Hinj i r i r') in Heq; tauto.
    + intros r Hr. rewrite Hl. auto.
    + split; [congruence|]. split.
      * intros i' j Hi' Hj. destruct (decide (i' = i)) as [->|Hne].
        -- rewrite Hw' by exact Hj. f_equal. apply Hu.
           intros i2 j2 Hi2 Hj2 Heq. apply Hinj in Heq; [lia|lia..].
        -- rewrite Hu'.
           ++ apply Hw; [lia|exact Hj].
           ++ intros r Hr Heq. apply Hinj in Heq; [lia|lia..].
      * intros k Hk. rewrite Hu' by (intros r Hr; apply Hk; [lia|exact Hr]).
        apply Hu. intros i' j Hi' Hj. apply Hk; [lia|exact Hj].
Qed.

(** The two nested loops that fill a matrix. *)
Lemma for2_fill rows cols (pos : nat -> nat -> nat) (v : nat -> nat -> T) b :
  (forall i j i' j', i < rows -> j < cols -> i' < rows -> j' < cols ->
                     pos i j = pos i' j' -> i = i' /\ j = j') ->
  (forall i j, i < rows -> j < cols -> pos i j < length b) ->
  let b' := for_ rows (fun i b => for_ cols (fun j b => <[pos i j := v i j]> b) b) b in
  length b' = length b /\
  (forall i j, i < rows -> j < cols -> b' !!! pos i j = v i j) /\
  (forall k, (forall i j, i < rows -> j < cols -> pos i j <> k) -> b' !!! k = b !!! k).
Proof.
  intros Hinj Hlen.
  exact (for2_update rows cols pos (fun i j _ => v i j) b Hinj Hlen).
Qed.
End Fill.

(** ** [memset] *)

Section Memset.
Context {T : Type} `{!Inhabited T}.
Variable lay : layout T.

Lemma length_memset (buf : list T) c n : length (memset lay buf c n) = length buf.
Proof. unfold memset. apply length_imap. Qed.

(** An element that lies within the first [n] bytes. *)
Lemma memset_lookup_covered (buf : list T) c n i :
  i < length buf -> (i + 1) * sizeof lay <= n ->
  memset lay buf c n !!! i = decode lay (replicate (sizeof lay) (c mod 256)%Z).
Proof.
  intros Hi Hn. unfold memset.
  rewrite list_lookup_total_alt, list_lookup_imap.
  destruct (lookup_lt_is_Some_2 buf i Hi) as [x ->]. simpl.
  destruct (decide _) as [|Hno]; [reflexivity|]. lia.
Qed.

(** An element that starts at or after byte [n]. *)
Lemma memset_lookup_beyond (buf : list T) c n i :
  0 < sizeof lay -> n <= i * sizeof lay ->
  memset lay buf c n !!! i = buf !!! i.
Proof.
  intros Hsz Hn. unfold memset.
  rewrite !list_lookup_total_alt, list_lookup_imap.
  destruct (buf !! i) as [x|]; [|reflexivity]. simpl.
  destruct (decide _) as [Hle|_]; [lia|].
  destruct (decide _) as [|Hno]; [reflexivity|]. lia.
Qed.
End Memset.

Lemma decode_zero_float : decode lay_float (replicate (sizeof lay_float) (0 mod 256)%Z) = fzero.
Proof. reflexivity. Qed.

Lemma decode_zero_double :
  decode lay_double (replicate (sizeof lay_double) (0 mod 256)%Z) = fzero.
Proof. reflexivity. Qed.

Lemma decode_zero_float_complex :
  decode lay_float_complex (replicate (sizeof lay_float_complex) (0 mod 256)%Z)
  = cmplxf fzero fzero.
Proof. reflexivity. Qed.

(** [memset(buf, 0, n*sizeof(float))] on a [float] buffer zeroes [n] elements. *)
Lemma memset_float_zero (buf : list float) n i :
  i < n -> n <= length buf ->
  memset lay_float buf 0 (n * sizeof lay_float) !!! i = fzero.
Proof.
  intros Hi Hn. rewrite memset_lookup_covered.
  - apply decode_zero_float.
  - lia.
  - apply Nat.mul_le_mono_r. lia.
Qed.

Lemma memset_float_rest (buf : list float) n i :
  n <= i -> memset lay_float buf 0 (n * sizeof lay_float) !!! i = buf !!! i.
Proof.
  intros Hi. apply memset_lookup_beyond.
  - simpl. lia.
  - apply Nat.mul_le_mono_r. exact Hi.
Qed.

Lemma memset_float_complex_zero (buf : list float_complex) n i :
  i < n -> n <= length buf ->
  memset lay_float_complex buf 0 (n * sizeof lay_float_complex) !!! i = cmplxf fzero fzero.
Proof.
  intros Hi Hn. rewrite memset_lookup_covered.
  - apply decode_zero_float_complex.
  - lia.
  - apply Nat.mul_le_mono_r. lia.
Qed.

(** ** Vector primitives *)

(** A loop of stores through a pointer that is not null is a pure fill. *)
Lemma forM_store_some (a : list float) (v : list float -> nat -> float) len
    (buf : list float) :
  forM len (fun i '(a, c) => c <- store c i (v a i);; ret (a, c)) (a, Some buf)
  = ret (a, Some (for_ len (fun i b => <[i := v a i]> b) buf)).
Proof.
  unfold forM. induction len as [|n IH]; [reflexivity|].
  rewrite !for_S, IH. reflexivity.
Qed.

(** ... and through [NULL] it faults in the first round. *)
Lemma forM_store_null (a : list float) (v : list float -> nat -> float) len :
  0 < len ->
  forM len (fun i '(a, c) => c <- store c i (v a i);; ret (a, c)) (a, @None (list float))
  = None.
Proof. intros Hlen. apply forM_fault; [exact Hlen|reflexivity]. Qed.

(** C2: for an output buffer [c] of at least [len] elements, in every build,
    [utility_svsdiv] returns; when [s[0] == 0.0f] the first [len] elements of
    [c] are [+0] (so neither NaN nor infinite), otherwise element [i] is
    [a[i] / s[0]]; [a] and the rest of [c] are unchanged. *)
Theorem utility_svsdiv_spec (bld : build) (a : list float) (s : float) (len : nat)
    (buf : list float) :
  len <= length buf ->
  exists c' : list float,
    utility_svsdiv bld a s len (Some buf) = Some (a, Some c') /\
    length c' = length buf /\
    (feq s f0_0 = true ->
       forall i, i < len ->
         c' !!! i = fzero /\ is_nan (c' !!! i) = false /\ is_inf (c' !!! i) = false) /\
    (feq s f0_0 = false ->
       forall i, i < len -> c' !!! i = fdiv binary32 (a !!! i) s) /\
    (forall i, len <= i -> c' !!! i = buf !!! i).
Proof.
  intros Hlen. unfold utility_svsdiv.
  destruct (feq s f0_0) eqn:Hs.
  - eexists. split; [reflexivity|]. split; [apply length_memset|].
    split; [|split].
    + intros _ i Hi. rewrite memset_float_zero by lia. auto.
    + discriminate.
    + intros i Hi. apply memset_float_rest. exact Hi.
  - destruct (for_fill len (fun i => i) (fun i => fdiv binary32 (a !!! i) s) buf)
      as (Hl & Hw & Hu); [auto|intros; lia|].
    exists (for_ len (fun i b => <[i := fdiv binary32 (a !!! i) s]> b) buf).
    split.
    + destruct bld; [reflexivity|..];
        apply (forM_store_some a (fun a i => fdiv binary32 (a !!! i) s)).
    + split; [exact Hl|]. split; [discriminate|]. split.
      * intros _ i Hi. apply Hw. exact Hi.
      * intros i Hi. apply Hu. intros r Hr. lia.
Qed.

Lemma utility_svsdiv_spec_witness :
  2 <= length [fZ 5; fZ 6; fZ 7] /\
  exists c' : list float,
    utility_svsdiv PLAIN [fZ 1; fZ 2] fzero 2 (Some [fZ 5; fZ 6; fZ 7])
      = Some ([fZ 1; fZ 2], Some c') /\
    length c' = length [fZ 5; fZ 6; fZ 7] /\
    (feq fzero f0_0 = true ->
       forall i, i < 2 ->
         c' !!! i = fzero /\ is_nan (c' !!! i) = false /\ is_inf (c' !!! i) = false) /\
    (feq fzero f0_0 = false ->
       forall i, i < 2 -> c' !!! i = fdiv binary32 ([fZ 1; fZ 2] !!! i) fzero) /\
    (forall i, 2 <= i -> c' !!! i = [fZ 5; fZ 6; fZ 7] !!! i).
Proof.
  split; [simpl; lia|].
  apply (utility_svsdiv_spec PLAIN [fZ 1; fZ 2] fzero 2 [fZ 5; fZ 6; fZ 7]).
  simpl; lia.
Defined.

(** In the builds with a backend, a null [c] makes [utility_svvmul]
    (Accelerate) and [utility_svsmul] (Accelerate, MKL) work in place. *)
Lemma utility_svvmul_accelerate_in_place (a b : list float) (len : nat) :
  len <= length a ->
  exists a' : list float,
    utility_svvmul ACCELERATE a b len NULL = Some (a', NULL) /\
    length a' = length a /\
    (forall i, i < len -> a' !!! i = fmul binary32 (a !!! i) (b !!! i)) /\
    (forall i, len <= i -> a' !!! i = a !!! i).
Proof.
  intros Hlen. eexists. split; [reflexivity|].
  unfold utility_svvcopy, cblas_scopy, vDSP_vmul.
  destruct (for_fill len (fun i => i) (fun i => fmul binary32 (a !!! i) (b !!! i))
              (malloc_buf len)) as (Hl & Hw & _).
  { auto. }
  { intros r Hr. unfold malloc_buf. rewrite length_replicate. exact Hr. }
  match goal with |- context [for_ len (fun i y => <[i := ?t !!! i]> y) a] =>
    destruct (for_fill len (fun i => i) (fun i => t !!! i) a) as (Hl2 & Hw2 & Hu2) end.
  { auto. }
  { intros r Hr. lia. }
  split; [exact Hl2|]. split.
  - intros i Hi. rewrite Hw2 by exact Hi. apply Hw. exact Hi.
  - intros i Hi. apply Hu2. intros r Hr. lia.
Qed.

Lemma utility_svsmul_backend_in_place (bld : build) (a : list float) (s : float)
    (len : nat) :
  bld <> PLAIN -> len <= length a ->
  exists a' : list float,
    utility_svsmul bld a s len NULL = Some (a', NULL) /\
    length a' = length a /\
    (forall i, i < len -> a' !!! i = fmul binary32 s (a !!! i)) /\
    (forall i, len <= i -> a' !!! i = a !!! i).
Proof.
  intros Hb Hlen. exists (cblas_scal binary32 len s a 0).
  split; [destruct bld; [reflexivity..|congruence]|].
  unfold cblas_scal.
  destruct (for_update len (fun r => 0 + r) (fun _ x => fmul binary32 s x) a)
    as (Hl & Hw & Hu).
  { intros; lia. }
  { intros; lia. }
  split; [exact Hl|]. split.
  - intros i Hi. apply (Hw i Hi).
  - intros i Hi. apply Hu. intros r Hr. lia.
Qed.

(** [utility_svsdiv] has no in-place case in any build. *)
Lemma utility_svsdiv_null_output (bld : build) (a : list float) (s : float) (len : nat) :
  0 < len -> utility_svsdiv bld a s len NULL = None.
Proof.
  intros Hlen. unfold utility_svsdiv.
  destruct (feq s f0_0); [reflexivity|].
  destruct bld; [reflexivity|..];
    apply (forM_store_null a (fun a i => fdiv binary32 (a !!! i) s) len Hlen).
Qed.

(** C3: without a backend (neither [__ACCELERATE__] nor [INTEL_MKL_VERSION])
    a call of [utility_svvmul] or [utility_svsmul] with [c == NULL] and a
    positive length stores through the null pointer instead of working in
    place on [a]; so does [utility_svvmul] in the MKL build. *)
Theorem vector_primitives_null_output (a b : list float) (s : float) (len : nat) :
  0 < len ->
  utility_svvmul PLAIN a b len NULL = None /\
  utility_svsmul PLAIN a s len NULL = None /\
  utility_svvmul INTEL_MKL a b len NULL = None.
Proof.
  intros Hlen. split; [|split].
  - apply (forM_store_null a (fun a i => fmul binary32 (a !!! i) (b !!! i)) len Hlen).
  - apply (forM_store_null a (fun a i => fmul binary32 (a !!! i) s) len Hlen).
  - reflexivity.
Qed.

Lemma vector_primitives_null_output_witness :
  0 < 2 /\
  utility_svvmul PLAIN [fZ 1; fZ 2] [fZ 3; fZ 4] 2 NULL = None /\
  utility_svsmul PLAIN [fZ 1; fZ 2] (fZ 3) 2 NULL = None /\
  utility_svvmul INTEL_MKL [fZ 1; fZ 2] [fZ 3; fZ 4] 2 NULL = None.
Proof.
  split; [lia|].
  apply (vector_primitives_null_output [fZ 1; fZ 2] [fZ 3; fZ 4] (fZ 3) 2). lia.
Defined.

(** ** Pseudo-inverse *)

(** The literals are the binary32 values nearest to 1e-5 and 1e-9. *)
Lemma f1e_5_nearest :
  exists m, f1e_5 = S754_finite false m (-40) /\
    valid_binary 24 128 f1e_5 = true /\
    ((2 * Zpos m - 1) * 10 ^ 5 < 2 ^ 41 < (2 * Zpos m + 1) * 10 ^ 5)%Z.
Proof. eexists. split; [reflexivity|]. split; [reflexivity|]. lia. Qed.

Lemma f1e_9_nearest :
  exists m, f1e_9 = S754_finite false m (-53) /\
    valid_binary 24 128 f1e_9 = true /\
    ((2 * Zpos m - 1) * 10 ^ 9 < 2 ^ 54 < (2 * Zpos m + 1) * 10 ^ 9)%Z.
Proof. eexists. split; [reflexivity|]. split; [reflexivity|]. lia. Qed.

(** [d1e_9] is the binary64 value nearest to 1e-9; the literal [1.0e-9f],
    converted to [double], is below it, and [d1e_9_pred] lies between the
    two. *)
Lemma d1e_9_nearest :
  exists m, d1e_9 = S754_finite false m (-82) /\
    valid_binary 53 1024 d1e_9 = true /\
    ((2 * Zpos m - 1) * 10 ^ 9 < 2 ^ 83 < (2 * Zpos m + 1) * 10 ^ 9)%Z /\
    flt (float_to_double f1e_9) d1e_9_pred = true /\
    flt d1e_9_pred d1e_9 = true.
Proof.
  eexists. split; [reflexivity|]. split; [reflexivity|]. split; [lia|].
  split; reflexivity.
Qed.

Lemma pinv_rank (m n : nat) : (if m <? n then m else n) = m `min` n.
Proof. destruct (Nat.ltb_spec m n); lia. Qed.

Section Pinv.
Variables (fm : format) (lay : layout float) (tol one zero : float).
Variables (gesvd : gesvd_t) (gemm : gemm_t).
Variables (inM : list float) (dim1 dim2 : nat) (outM : list float).

Let r := pinv_factor gesvd inM dim1 dim2.
Let k := dim1 `min` dim2.

(** On failure the driver is one [memset] of [dim1*dim2*sizeof(float)]
    bytes, whatever the element type of [outM]. *)
Lemma pinv_failure :
  (0 < gesvd_info r)%Z ->
  pinv fm lay tol one zero gesvd gemm inM dim1 dim2 outM
  = memset lay outM 0 (dim1 * dim2 * sizeof lay_float).
Proof.
  intros Hinfo. unfold pinv. fold r.
  destruct (Z.ltb_spec 0 (gesvd_info r)); [reflexivity|lia].
Qed.

(** The scaling loop multiplies column [i] of [u] by the clamped
    reciprocal of [s[i]]. *)
Lemma pinv_scale_spec (s u : list float) :
  dim1 * k <= length u ->
  let u' := pinv_scale fm tol one s u dim1 k in
  length u' = length u /\
  (forall i row, i < k -> row < dim1 ->
     u' !!! (i * dim1 + row)
     = fmul fm (clamped_reciprocal fm tol one (s !!! i)) (u !!! (i * dim1 + row))) /\
  (forall j, dim1 * k <= j -> u' !!! j = u !!! j).
Proof.
  intros Hlen. unfold pinv_scale, cblas_scal.
  destruct (for2_update k dim1 (fun i row => i * dim1 + row)
              (fun i _ x => fmul fm (clamped_reciprocal fm tol one (s !!! i)) x) u)
    as (Hl & Hw & Hu).
  - intros i j i' j' Hi Hj Hi' Hj' Heq. exact (index_inj dim1 i j i' j' Hj Hj' Heq).
  - intros i j Hi Hj. pose proof (index_lt dim1 k i j Hi Hj). lia.
  - split; [exact Hl|]. split.
    + intros i row Hi Hrow. apply (Hw i row Hi Hrow).
    + intros j Hj. apply Hu. intros i row Hi Hrow.
      pose proof (index_lt dim1 k i row Hi Hrow). lia.
Qed.

(** On success [outM] is the transpose of what [?gemm] is given to write. *)
Lemma pinv_success :
  (gesvd_info r <= 0)%Z ->
  length outM = dim2 * dim1 ->
  let u' := pinv_scale fm tol one (gesvd_s r) (gesvd_u r) dim1 k in
  let inva :=
    gemm CblasTrans CblasTrans dim2 dim1 k one (gesvd_vt r) k u' dim1 zero
         (malloc_buf (dim2 * dim1)) dim2 in
  let out := pinv fm lay tol one zero gesvd gemm inM dim1 dim2 outM in
  length out = dim2 * dim1 /\
  forall i j, i < dim1 -> j < dim2 -> out !!! (j * dim1 + i) = inva !!! (i * dim2 + j).
Proof.
  intros Hinfo Hlen. cbv zeta. unfold pinv. fold r.
  destruct (Z.ltb_spec 0 (gesvd_info r)); [lia|].
  rewrite pinv_rank. fold k.
  match goal with |- context [gemm ?a ?b ?c ?d ?e ?f ?g ?h ?i ?j ?l ?m ?n] =>
    set (inva := gemm a b c d e f g h i j l m n) end.
  destruct (for2_fill dim1 dim2 (fun i j => j * dim1 + i)
              (fun i j => inva !!! (i * dim2 + j)) outM) as (Hl & Hw & _).
  - intros i j i' j' Hi Hj Hi' Hj' Heq.
    destruct (index_inj dim1 j i j' i' Hi Hi' Heq). auto.
  - intros i j Hi Hj. rewrite Hlen. apply index_lt; assumption.
  - split; [congruence|]. intros i j Hi Hj. apply (Hw i j Hi Hj).
Qed.
End Pinv.

(** C1: when the economy SVD reports [info > 0], [utility_spinv] leaves [+0]
    in all [dim2*dim1] elements of [outM]; [utility_dpinv] clears
    [dim1*dim2*sizeof(float)] bytes of its [double] buffer, so that only the
    elements of the first half are [+0] and every element of the second half
    keeps the value it had. *)
Theorem pinv_failure_zero_fill (sgesvd dgesvd : gesvd_t) (sgemm dgemm : gemm_t)
    (inM : list float) (dim1 dim2 : nat) (outM : list float) :
  length outM = dim2 * dim1 ->
  ((0 < gesvd_info (pinv_factor sgesvd inM dim1 dim2))%Z ->
     forall i, i < dim2 * dim1 ->
       utility_spinv sgesvd sgemm inM dim1 dim2 outM !!! i = fzero) /\
  ((0 < gesvd_info (pinv_factor dgesvd inM dim1 dim2))%Z ->
     (forall i, 2 * (i + 1) <= dim1 * dim2 ->
        utility_dpinv dgesvd dgemm inM dim1 dim2 outM !!! i = fzero) /\
     (forall i, dim1 * dim2 <= 2 * i ->
        utility_dpinv dgesvd dgemm inM dim1 dim2 outM !!! i = outM !!! i)).
Proof.
  intros Hlen. split.
  - intros Hinfo i Hi. unfold utility_spinv. rewrite pinv_failure by exact Hinfo.
    apply memset_float_zero; lia.
  - intros Hinfo. unfold utility_dpinv. rewrite pinv_failure by exact Hinfo. split.
    + intros i Hi. rewrite memset_lookup_covered.
      * apply decode_zero_double.
      * nia.
      * simpl. lia.
    + intros i Hi. apply memset_lookup_beyond; simpl; lia.
Qed.

Lemma pinv_failure_zero_fill_witness :
  length [dZ 7; dZ 7] = 2 * 1 /\
  (0 < gesvd_info (pinv_factor gesvd_diverged [dZ 1; dZ 2] 1 2))%Z /\
  utility_dpinv gesvd_diverged (gemm_ref binary64) [dZ 1; dZ 2] 1 2 [dZ 7; dZ 7] !!! 0
    = fzero /\
  utility_dpinv gesvd_diverged (gemm_ref binary64) [dZ 1; dZ 2] 1 2 [dZ 7; dZ 7] !!! 1
    = [dZ 7; dZ 7] !!! 1.
Proof.
  split; [reflexivity|]. split; [reflexivity|].
  destruct (pinv_failure_zero_fill gesvd_diverged gesvd_diverged
              (gemm_ref binary32) (gemm_ref binary64) [dZ 1; dZ 2] 1 2 [dZ 7; dZ 7]
              eq_refl) as [_ Hd].
  destruct (Hd eq_refl) as [H0 H1].
  split; [apply H0; simpl; lia|apply H1; simpl; lia].
Defined.

(** The failing input of C1, evaluated: the second element is not cleared. *)
Example utility_dpinv_failure_example :
  utility_dpinv gesvd_diverged (gemm_ref binary64) [dZ 1; dZ 2] 1 2 [dZ 7; dZ 7]
  = [fzero; dZ 7].
Proof. reflexivity. Qed.

(** C7: on success, in both drivers, column [i] of the economy [u]
    ([i < k = min(dim1,dim2)]) is multiplied by [1/s[i]] when [s[i]] exceeds
    the tolerance and by [s[i]] itself otherwise, and [outM] is the row-major
    [dim2 x dim1] transpose of the product [?gemm] forms from [vt] and the
    scaled [u].  The tolerance is the literal [1.0e-5f] in [utility_spinv];
    in [utility_dpinv] it is the [float] literal [1.0e-9f] converted to
    [double], 9.99999971718068537e-10, which is below 1e-9. *)
Theorem pinv_clamped_reciprocal (sgesvd dgesvd : gesvd_t) (sgemm dgemm : gemm_t)
    (inM : list float) (dim1 dim2 : nat) (outM : list float) :
  length outM = dim2 * dim1 ->
  let k := dim1 `min` dim2 in
  (let r := pinv_factor sgesvd inM dim1 dim2 in
   (gesvd_info r <= 0)%Z -> dim1 * k <= length (gesvd_u r) ->
   exists u' : list float,
     (forall i row, i < k -> row < dim1 ->
        u' !!! (i * dim1 + row)
        = fmul binary32
            (if fgt (gesvd_s r !!! i) f1e_5
             then fdiv binary32 f1_0 (gesvd_s r !!! i) else gesvd_s r !!! i)
            (gesvd_u r !!! (i * dim1 + row))) /\
     (forall i j, i < dim1 -> j < dim2 ->
        utility_spinv sgesvd sgemm inM dim1 dim2 outM !!! (j * dim1 + i)
        = sgemm CblasTrans CblasTrans dim2 dim1 k f1_0 (gesvd_vt r) k u' dim1 f0_0
            (malloc_buf (dim2 * dim1)) dim2 !!! (i * dim2 + j))) /\
  (let r := pinv_factor dgesvd inM dim1 dim2 in
   (gesvd_info r <= 0)%Z -> dim1 * k <= length (gesvd_u r) ->
   exists u' : list float,
     (forall i row, i < k -> row < dim1 ->
        u' !!! (i * dim1 + row)
        = fmul binary64
            (if fgt (gesvd_s r !!! i) (float_to_double f1e_9)
             then fdiv binary64 (float_to_double f1_0) (gesvd_s r !!! i)
             else gesvd_s r !!! i)
            (gesvd_u r !!! (i * dim1 + row))) /\
     (forall i j, i < dim1 -> j < dim2 ->
        utility_dpinv dgesvd dgemm inM dim1 dim2 outM !!! (j * dim1 + i)
        = dgemm CblasTrans CblasTrans dim2 dim1 k (float_to_double f1_0) (gesvd_vt r) k
            u' dim1 (float_to_double f0_0) (malloc_buf (dim2 * dim1)) dim2
          !!! (i * dim2 + j))).
Proof.
  intros Hlen k. split; intros r Hinfo Hu.
  - exists (pinv_scale binary32 f1e_5 f1_0 (gesvd_s r) (gesvd_u r) dim1 k). split.
    + apply (pinv_scale_spec binary32 f1e_5 f1_0 dim1 dim2). exact Hu.
    + apply (pinv_success binary32 lay_float f1e_5 f1_0 f0_0 sgesvd sgemm
               inM dim1 dim2 outM Hinfo Hlen).
  - exists (pinv_scale binary64 (float_to_double f1e_9) (float_to_double f1_0)
              (gesvd_s r) (gesvd_u r) dim1 k). split.
    + apply (pinv_scale_spec binary64 (float_to_double f1e_9) (float_to_double f1_0)
               dim1 dim2). exact Hu.
    + apply (pinv_success binary64 lay_double (float_to_double f1e_9)
               (float_to_double f1_0) (float_to_double f0_0) dgesvd dgemm
               inM dim1 dim2 outM Hinfo Hlen).
Qed.

Lemma pinv_clamped_reciprocal_witness :
  let inM := [fZ 4; fZ 0; fZ 0; fZ 2] in
  let outM := replicate 4 (fZ 9) in
  let r := pinv_factor (gesvd_diag42 binary32) inM 2 2 in
  length outM = 2 * 2 /\
  (gesvd_info r <= 0)%Z /\
  2 * (2 `min` 2) <= length (gesvd_u r) /\
  exists u' : list float,
     (forall i row, i < 2 `min` 2 -> row < 2 ->
        u' !!! (i * 2 + row)
        = fmul binary32
            (if fgt (gesvd_s r !!! i) f1e_5
             then fdiv binary32 f1_0 (gesvd_s r !!! i) else gesvd_s r !!! i)
            (gesvd_u r !!! (i * 2 + row))) /\
     (forall i j, i < 2 -> j < 2 ->
        utility_spinv (gesvd_diag42 binary32) (gemm_ref binary32) inM 2 2 outM
          !!! (j * 2 + i)
        = gemm_ref binary32 CblasTrans CblasTrans 2 2 (2 `min` 2) f1_0 (gesvd_vt r)
            (2 `min` 2) u' 2 f0_0 (malloc_buf (2 * 2)) 2 !!! (i * 2 + j)).
Proof.
  intros inM outM r.
  split; [reflexivity|]. split; [vm_compute; discriminate|]. split; [simpl; lia|].
  destruct (pinv_clamped_reciprocal (gesvd_diag42 binary32) (gesvd_diag42 binary64)
              (gemm_ref binary32) (gemm_ref binary64) inM 2 2 outM eq_refl) as [Hs _].
  apply Hs; [vm_compute; discriminate|simpl; lia].
Defined.

(** The tolerance of [utility_dpinv] against 1e-9.  The singular value
    [s = 4835703278458516 * 2^-82] does not exceed 1e-9, neither the real
    number nor the binary64 value nearest to it, so that a tolerance of 1e-9
    has the column multiplied by [s] itself and [outM = (s)]; but [s] exceeds
    [(double)1.0e-9f], and the driver leaves [outM = (1/s)], about 1e9. *)
Lemma utility_dpinv_tolerance_counterexample :
  let s := d1e_9_pred in
  let r := pinv_factor (gesvd_scalar s) [s] 1 1 in
  let out := utility_dpinv (gesvd_scalar s) (gemm_ref binary64) [s] 1 1 [dZ 7] in
  ((gesvd_info r <= 0)%Z /\ gesvd_s r = [s] /\ gesvd_u r = [dZ 1] /\ gesvd_vt r = [dZ 1]) /\
  (exists m, s = S754_finite false m (-82) /\ (Zpos m * 10 ^ 9 < 2 ^ 82)%Z) /\
  fgt s d1e_9 = false /\
  clamped_reciprocal binary64 d1e_9 (dZ 1) s = s /\
  fgt s (float_to_double f1e_9) = true /\
  pinv_scale binary64 (float_to_double f1e_9) (float_to_double f1_0) (gesvd_s r)
    (gesvd_u r) 1 1 = [fdiv binary64 (dZ 1) s] /\
  out = [fdiv binary64 (dZ 1) s] /\
  out <> [fmul binary64 (clamped_reciprocal binary64 d1e_9 (dZ 1) s) (dZ 1)] /\
  flt (dZ 999999999) (out !!! 0) = true.
Proof.
  cbv zeta.
  split; [repeat split; vm_compute; discriminate|].
  split; [eexists; split; [reflexivity|lia]|].
  repeat split; try reflexivity.
  vm_compute. discriminate.
Qed.

(** The pseudo-inverse of diag(4, 2) is diag(1/4, 1/2). *)
Example utility_spinv_example :
  utility_spinv (gesvd_diag42 binary32) (gemm_ref binary32)
    [fZ 4; fZ 0; fZ 0; fZ 2] 2 2 (replicate 4 (fZ 9))
  = [lit binary32 1 (-2); fzero; fzero; lit binary32 1 (-1)].
Proof. reflexivity. Qed.

(** ** Symmetric eigendecomposition *)

Section Sseig.
Variable ssyev : syev_t.
Variables (A : list float) (dim : nat) (V D : list float).
Hypothesis HV : length V = dim * dim.
Hypothesis HD : length D = dim * dim.

Let r := sseig_solve ssyev A dim.
Let D0 := memset lay_float D 0 (dim * dim * sizeof lay_float).

Lemma sseig_D0_zero k : k < dim * dim -> D0 !!! k = fzero.
Proof. intros Hk. apply memset_float_zero; [exact Hk|lia]. Qed.

Lemma sseig_D0_length : length D0 = dim * dim.
Proof. unfold D0. rewrite length_memset. exact HD. Qed.

(** The loops of the success branch, for a column selection [sel] and
    an eigenvalue selection [pick]. *)
Lemma sseig_loops (sel : nat -> nat -> nat) (pick : nat -> nat) :
  let '(V', D') :=
    for_ dim (fun i '(V, D) =>
      let V := for_ dim (fun j V => <[i * dim + j := syev_a r !!! sel i j]> V) V in
      let D := <[i * dim + i := syev_w r !!! pick i]> D in
      (V, D)) (V, D0) in
  length V' = dim * dim /\ length D' = dim * dim /\
  (forall i j, i < dim -> j < dim -> V' !!! (i * dim + j) = syev_a r !!! sel i j) /\
  (forall i, i < dim -> D' !!! (i * dim + i) = syev_w r !!! pick i) /\
  (forall i j, i < dim -> j < dim -> i <> j -> D' !!! (i * dim + j) = fzero).
Proof.
  rewrite (for_prod dim
    (fun i V => for_ dim (fun j V => <[i * dim + j := syev_a r !!! sel i j]> V) V)
    (fun i D => <[i * dim + i := syev_w r !!! pick i]> D) V D0).
  destruct (for2_fill dim dim (fun i j => i * dim + j)
              (fun i j => syev_a r !!! sel i j) V) as (HlV & HwV & _).
  { intros i j i' j' _ Hj _ Hj' Heq. exact (index_inj dim i j i' j' Hj Hj' Heq). }
  { intros i j Hi Hj. rewrite HV. apply index_lt; assumption. }
  destruct (for_fill dim (fun i => i * dim + i) (fun i => syev_w r !!! pick i) D0)
    as (HlD & HwD & HuD).
  { intros i i' _ _ Heq. exact (index_diag_inj dim i i' Heq). }
  { intros i Hi. rewrite sseig_D0_length. apply index_lt; assumption. }
  split; [congruence|]. split; [rewrite HlD; apply sseig_D0_length|].
  split; [exact HwV|]. split; [exact HwD|].
  intros i j Hi Hj Hne. rewrite HuD.
  - apply sseig_D0_zero. apply index_lt; assumption.
  - intros i' Hi' Heq. destruct (index_inj dim i' i' i j Hi' Hj Heq). lia.
Qed.
End Sseig.

(** C4: for [dim*dim] buffers [V] and [D], when [ssyev] returns [info <= 0]
    and ascending eigenvalues [w], [utility_sseig] with [sortDecFLAG = 1]
    gives [D[i][i] = w[dim-1-i]] (non-increasing along the diagonal) and
    [V[i][j] = a[(dim-1-j)*dim+i]] (columns reversed); with [sortDecFLAG = 0]
    it gives [D[i][i] = w[i]] (non-decreasing) and [V[i][j] = a[j*dim+i]] (the
    transpose of the backend's column-major eigenvectors); off the diagonal
    [D] is [+0]. *)
Theorem utility_sseig_sorted (ssyev : syev_t) (A : list float) (dim : nat)
    (sortDecFLAG : Z) (V D : list float) :
  length V = dim * dim -> length D = dim * dim ->
  let r := sseig_solve ssyev A dim in
  (syev_info r <= 0)%Z ->
  (forall i j, i <= j -> j < dim -> fle (syev_w r !!! i) (syev_w r !!! j) = true) ->
  let V' := (utility_sseig ssyev A dim sortDecFLAG V D).1 in
  let D' := (utility_sseig ssyev A dim sortDecFLAG V D).2 in
  (sortDecFLAG = 1%Z ->
     (forall i, i < dim -> D' !!! (i * dim + i) = syev_w r !!! (dim - 1 - i)) /\
     (forall i j, i < dim -> j < dim ->
        V' !!! (i * dim + j) = syev_a r !!! ((dim - 1 - j) * dim + i)) /\
     (forall i j, i <= j -> j < dim ->
        fle (D' !!! (j * dim + j)) (D' !!! (i * dim + i)) = true)) /\
  (sortDecFLAG = 0%Z ->
     (forall i, i < dim -> D' !!! (i * dim + i) = syev_w r !!! i) /\
     (forall i j, i < dim -> j < dim ->
        V' !!! (i * dim + j) = syev_a r !!! (j * dim + i)) /\
     (forall i j, i <= j -> j < dim ->
        fle (D' !!! (i * dim + i)) (D' !!! (j * dim + j)) = true)) /\
  (forall i j, i < dim -> j < dim -> i <> j -> D' !!! (i * dim + j) = fzero) /\
  length V' = dim * dim /\ length D' = dim * dim.
Proof.
  intros HV HD r Hinfo Hasc V' D'.
  assert (Hno : (0 <? syev_info r)%Z = false) by (apply Z.ltb_ge; exact Hinfo).
  destruct (Z.eqb_spec sortDecFLAG 0) as [Hflag|Hflag].
  - pose proof (sseig_loops ssyev A dim V D HV HD (fun i j => j * dim + i) (fun i => i))
      as Hloops.
    assert (Hrun : utility_sseig ssyev A dim sortDecFLAG V D =
      for_ dim (fun i '(V, D) =>
        let V := for_ dim (fun j V => <[i * dim + j := syev_a r !!! (j * dim + i)]> V) V in
        let D := <[i * dim + i := syev_w r !!! i]> D in
        (V, D)) (V, memset lay_float D 0 (dim * dim * sizeof lay_float))).
    { unfold utility_sseig. fold r. rewrite Hno. subst sortDecFLAG. reflexivity. }
    subst V' D'. rewrite Hrun. cbv zeta in Hloops.
    destruct (for_ dim _ _) as [V1 D1]. simpl.
    destruct Hloops as (HlV & HlD & HVw & HDw & HDz).
    split; [intros ?; lia|]. split; [|auto].
    intros _. split; [exact HDw|]. split; [exact HVw|].
    intros i j Hij Hj. rewrite !HDw by lia. apply Hasc; assumption.
  - pose proof (sseig_loops ssyev A dim V D HV HD
                  (fun i j => (dim - j - 1) * dim + i) (fun i => dim - i - 1)) as Hloops.
    assert (Hrun : utility_sseig ssyev A dim sortDecFLAG V D =
      for_ dim (fun i '(V, D) =>
        let V :=
          for_ dim (fun j V => <[i * dim + j := syev_a r !!! ((dim - j - 1) * dim + i)]> V) V in
        let D := <[i * dim + i := syev_w r !!! (dim - i - 1)]> D in
        (V, D)) (V, memset lay_float D 0 (dim * dim * sizeof lay_float))).
    { unfold utility_sseig. fold r. rewrite Hno.
      destruct (Z.eqb_spec sortDecFLAG 0); [contradiction|reflexivity]. }
    subst V' D'. rewrite Hrun. cbv zeta in Hloops.
    destruct (for_ dim _ _) as [V1 D1]. simpl.
    destruct Hloops as (HlV & HlD & HVw & HDw & HDz).
    split; [|split; [intros ?; contradiction|auto]].
    intros _. split; [|split].
    + intros i Hi. rewrite HDw by exact Hi. f_equal. lia.
    + intros i j Hi Hj. rewrite HVw by assumption. f_equal. lia.
    + intros i j Hij Hj. rewrite !HDw by lia. apply Hasc; lia.
Qed.

Lemma utility_sseig_sorted_witness :
  let A := [fZ 4; fZ 0; fZ 0; fZ 9] in
  let V := replicate 4 (fZ 7) in
  let D := replicate 4 (fZ 7) in
  let r := sseig_solve ssyev_diag49 A 2 in
  let V' := (utility_sseig ssyev_diag49 A 2 1 V D).1 in
  let D' := (utility_sseig ssyev_diag49 A 2 1 V D).2 in
  length V = 2 * 2 /\ length D = 2 * 2 /\ (syev_info r <= 0)%Z /\
  (forall i j, i <= j -> j < 2 -> fle (syev_w r !!! i) (syev_w r !!! j) = true) /\
  (forall i, i < 2 -> D' !!! (i * 2 + i) = syev_w r !!! (2 - 1 - i)) /\
  (forall i j, i <= j -> j < 2 ->
     fle (D' !!! (j * 2 + j)) (D' !!! (i * 2 + i)) = true).
Proof.
  intros A V D r V' D'.
  assert (Hasc : forall i j, i <= j -> j < 2 ->
            fle (syev_w r !!! i) (syev_w r !!! j) = true).
  { intros i j Hij Hj.
    destruct j as [|[|j]]; [| |lia]; destruct i as [|[|i]]; try lia; reflexivity. }
  split; [reflexivity|]. split; [reflexivity|].
  split; [vm_compute; discriminate|]. split; [exact Hasc|].
  destruct (utility_sseig_sorted ssyev_diag49 A 2 1 V D eq_refl eq_refl
              ltac:(vm_compute; discriminate) Hasc) as [Hdesc _].
  destruct (Hdesc eq_refl) as (HD & _ & Hord).
  split; [exact HD|exact Hord].
Defined.

(** The scenario of the specification: diag(4, 9), both orders. *)
Example utility_sseig_example :
  utility_sseig ssyev_diag49 [fZ 4; fZ 0; fZ 0; fZ 9] 2 0
    (replicate 4 (fZ 7)) (replicate 4 (fZ 7))
  = ([fZ 1; fZ 0; fZ 0; fZ 1], [fZ 4; fZ 0; fZ 0; fZ 9]) /\
  utility_sseig ssyev_diag49 [fZ 4; fZ 0; fZ 0; fZ 9] 2 1
    (replicate 4 (fZ 7)) (replicate 4 (fZ 7))
  = ([fZ 0; fZ 1; fZ 1; fZ 0], [fZ 9; fZ 0; fZ 0; fZ 4]).
Proof. split; reflexivity. Qed.

(** ** Singular value decomposition *)

Lemma for_alter (n : nat) (f : nat -> list float -> list float) (p : nat) (h : heap) :
  for_ n (fun i h => alter (f i) p h) h = alter (for_ n f) p h.
Proof.
  induction n as [|n IH].
  - rewrite for_0. symmetry. apply alter_id. reflexivity.
  - rewrite for_S, IH, alter_alter_eq.
    apply alter_ext. intros b _. simpl. rewrite for_S. reflexivity.
Qed.

(** Two nested loops of stores into one block. *)
Lemma for2_poke (n m : nat) (pos : nat -> nat -> nat) (v : nat -> nat -> float)
    (p : nat) (h : heap) :
  for_ n (fun i h => for_ m (fun j h => poke h p (pos i j) (v i j)) h) h
  = alter (for_ n (fun i b => for_ m (fun j b => <[pos i j := v i j]> b) b)) p h.
Proof.
  rewrite <- for_alter. apply for_ext. intros i t _.
  unfold poke. apply (for_alter m (fun j b => <[pos i j := v i j]> b)).
Qed.

Lemma for_poke (n : nat) (pos : nat -> nat) (v : nat -> float) (p : nat) (h : heap) :
  for_ n (fun i h => poke h p (pos i) (v i)) h
  = alter (for_ n (fun i b => <[pos i := v i]> b)) p h.
Proof. unfold poke. apply (for_alter n (fun i b => <[pos i := v i]> b)). Qed.

(** The three calls of [free] succeed on valid, distinct pointers. *)
Lemma free_three {R : Type} (h : heap) (U S V : option nat) (k : heap -> M R) :
  valid_ptr h U -> valid_ptr h S -> valid_ptr h V ->
  distinct_ptrs U S -> distinct_ptrs U V -> distinct_ptrs S V ->
  (h <- free h U;; h <- free h S;; h <- free h V;; k h)
  = k (release V (release S (release U h))).
Proof.
  intros HU HS HV HUS HUV HSV.
  assert (Hfree : forall (g : heap) p, valid_ptr g p -> free g p = ret (release p g)).
  { intros g [l|] Hp; [|reflexivity]. simpl.
    destruct (Hp l eq_refl) as [b ->]. reflexivity. }
  assert (Hkeep : forall (g : heap) p q,
            valid_ptr g q -> distinct_ptrs p q -> valid_ptr (release p g) q).
  { intros g [l|] q Hq Hpq l' ->; simpl; [|apply Hq; reflexivity].
    rewrite lookup_delete_ne; [apply Hq; reflexivity|].
    intros ->. exact (Hpq l' eq_refl eq_refl). }
  rewrite (Hfree h U HU). simpl.
  rewrite (Hfree _ S (Hkeep h U S HS HUS)). simpl.
  rewrite (Hfree _ V (Hkeep _ S V (Hkeep h U V HV HUV) HSV)). reflexivity.
Qed.

Lemma release_lookup_freed (p : option nat) (h : heap) l :
  p = Some l -> release p h !! l = None.
Proof. intros ->. apply lookup_delete_eq. Qed.

Lemma release_lookup_other (p : option nat) (h : heap) l :
  p <> Some l -> release p h !! l = h !! l.
Proof.
  destruct p as [l'|]; [|reflexivity]. intros Hne. simpl.
  apply lookup_delete_ne. congruence.
Qed.

Lemma release_lookup_None (p : option nat) (h : heap) l :
  h !! l = None -> release p h !! l = None.
Proof.
  destruct p as [l'|]; [|auto]. intros Hl. simpl.
  rewrite lookup_delete. destruct (decide _); auto.
Qed.

(** C5: when [*U], [*S] and [*V] are valid arguments of [free] (null or
    live, no block twice) and [sgesvd] reports [info > 0], [utility_ssvd]
    returns; the three blocks are no longer live, the three pointers are
    [NULL], and every other block of the heap is as before. *)
Theorem utility_ssvd_failure (sgesvd : gesvd_t) (A : list float) (dim1 dim2 : nat)
    (h : heap) (U S V : option nat) :
  valid_ptr h U -> valid_ptr h S -> valid_ptr h V ->
  distinct_ptrs U S -> distinct_ptrs U V -> distinct_ptrs S V ->
  (0 < gesvd_info (ssvd_factor sgesvd A dim1 dim2))%Z ->
  exists h' : heap,
    utility_ssvd sgesvd A dim1 dim2 h U S V = Some (h', NULL, NULL, NULL) /\
    (forall l, U = Some l \/ S = Some l \/ V = Some l -> h' !! l = None) /\
    (forall l, U <> Some l -> S <> Some l -> V <> Some l -> h' !! l = h !! l).
Proof.
  intros HU HS HV HUS HUV HSV Hinfo.
  exists (release V (release S (release U h))). split; [|split].
  - unfold utility_ssvd. rewrite free_three by assumption.
    destruct (Z.ltb_spec 0 (gesvd_info (ssvd_factor sgesvd A dim1 dim2)));
      [reflexivity|lia].
  - intros l [Hl|[Hl|Hl]].
    + apply release_lookup_None, release_lookup_None, release_lookup_freed, Hl.
    + apply release_lookup_None, release_lookup_freed, Hl.
    + apply release_lookup_freed, Hl.
  - intros l Hl1 Hl2 Hl3. rewrite !release_lookup_other by assumption. reflexivity.
Qed.

Lemma utility_ssvd_failure_witness :
  let h : heap := <[5 := [fZ 1]]> (<[6 := [fZ 2]]> ∅) in
  let A := [fZ 1; fZ 2] in
  valid_ptr h (Some 5) /\ valid_ptr h (Some 6) /\ valid_ptr h NULL /\
  distinct_ptrs (Some 5) (Some 6) /\ distinct_ptrs (Some 5) NULL /\
  distinct_ptrs (Some 6) NULL /\
  (0 < gesvd_info (ssvd_factor gesvd_diverged A 1 2))%Z /\
  exists h' : heap,
    utility_ssvd gesvd_diverged A 1 2 h (Some 5) (Some 6) NULL
      = Some (h', NULL, NULL, NULL) /\
    (forall l, Some 5 = Some l \/ Some 6 = Some l \/ @None nat = Some l ->
       h' !! l = None) /\
    (forall l, Some 5 <> Some l -> Some 6 <> Some l -> @None nat <> Some l ->
       h' !! l = h !! l).
Proof.
  intros h A.
  assert (H5 : valid_ptr h (Some 5)).
  { intros l [= <-]. exists [fZ 1]. reflexivity. }
  assert (H6 : valid_ptr h (Some 6)).
  { intros l [= <-]. exists [fZ 2]. reflexivity. }
  assert (H0 : valid_ptr h NULL) by (intros l; discriminate).
  assert (H56 : distinct_ptrs (Some 5) (Some 6)) by (intros l [= <-]; discriminate).
  assert (H50 : distinct_ptrs (Some 5) NULL) by (intros l _; discriminate).
  assert (H60 : distinct_ptrs (Some 6) NULL) by (intros l _; discriminate).
  assert (Hinfo : (0 < gesvd_info (ssvd_factor gesvd_diverged A 1 2))%Z) by reflexivity.
  repeat (split; [assumption|]).
  exact (utility_ssvd_failure gesvd_diverged A 1 2 h (Some 5) (Some 6) NULL
           H5 H6 H0 H56 H50 H60 Hinfo).
Defined.

(** The three allocations of the success branch. *)
Lemma ssvd_alloc (h0 h1 h2 h3 : heap) (nU nS nV U' S' V' : nat) :
  malloc h0 nU = (U', h1) -> calloc h1 nS = (S', h2) -> malloc h2 nV = (V', h3) ->
  h0 !! U' = None /\ h0 !! S' = None /\ h0 !! V' = None /\
  U' <> S' /\ U' <> V' /\ S' <> V' /\
  h3 !! U' = Some (malloc_buf nU) /\
  h3 !! S' = Some (replicate nS fzero) /\
  h3 !! V' = Some (malloc_buf nV) /\
  (forall l, l <> U' -> l <> S' -> l <> V' -> h3 !! l = h0 !! l).
Proof.
  unfold malloc, calloc. intros [= HU' Hh1] [= HS' Hh2] [= HV' Hh3].
  assert (HU : h0 !! U' = None) by (rewrite <- HU'; apply not_elem_of_dom, is_fresh).
  assert (HS : h1 !! S' = None) by (rewrite <- HS'; apply not_elem_of_dom, is_fresh).
  assert (HV : h2 !! V' = None) by (rewrite <- HV'; apply not_elem_of_dom, is_fresh).
  rewrite HU' in Hh1. rewrite HS' in Hh2. rewrite HV' in Hh3.
  clear HU' HS' HV'. subst h3 h2 h1.
  apply lookup_insert_None in HV as [HV HSV].
  apply lookup_insert_None in HS as [HS HUS].
  apply lookup_insert_None in HV as [HV HUV].
  split; [exact HU|]. split; [exact HS|]. split; [exact HV|].
  split; [exact HUS|]. split; [exact HUV|]. split; [exact HSV|].
  split; [|split; [|split]].
  - rewrite lookup_insert_ne, lookup_insert_ne by congruence.
    apply lookup_insert_eq.
  - rewrite lookup_insert_ne by congruence. apply lookup_insert_eq.
  - apply lookup_insert_eq.
  - intros l HlU HlS HlV.
    rewrite !lookup_insert_ne by congruence. reflexivity.
Qed.

(** C6: when [*U], [*S], [*V] are valid arguments of [free] and [sgesvd]
    returns [info <= 0], [utility_ssvd] returns three new blocks, distinct
    from each other and from every block that stays live: [U] of
    [dim1*dim1] elements with [U[i][j] = u[j*dim1+i]], [V] of [dim2*dim2]
    elements with [V[i][j] = vt[i*dim2+j]], and [S] of [dim1*dim2] elements
    with [s[i]] at [(i,i)] and [+0] elsewhere. *)
Theorem utility_ssvd_success (sgesvd : gesvd_t) (A : list float) (dim1 dim2 : nat)
    (h : heap) (U S V : option nat) :
  valid_ptr h U -> valid_ptr h S -> valid_ptr h V ->
  distinct_ptrs U S -> distinct_ptrs U V -> distinct_ptrs S V ->
  let r := ssvd_factor sgesvd A dim1 dim2 in
  (gesvd_info r <= 0)%Z ->
  let h0 := release V (release S (release U h)) in
  exists (h' : heap) (pU pS pV : nat) (bU bS bV : list float),
    utility_ssvd sgesvd A dim1 dim2 h U S V = Some (h', Some pU, Some pS, Some pV) /\
    h0 !! pU = None /\ h0 !! pS = None /\ h0 !! pV = None /\
    pU <> pS /\ pU <> pV /\ pS <> pV /\
    h' !! pU = Some bU /\ h' !! pS = Some bS /\ h' !! pV = Some bV /\
    length bU = dim1 * dim1 /\ length bS = dim1 * dim2 /\ length bV = dim2 * dim2 /\
    (forall i j, i < dim1 -> j < dim1 ->
       bU !!! (i * dim1 + j) = gesvd_u r !!! (j * dim1 + i)) /\
    (forall i j, i < dim1 -> j < dim2 ->
       bS !!! (i * dim2 + j) = if decide (i = j) then gesvd_s r !!! i else fzero) /\
    (forall i j, i < dim2 -> j < dim2 ->
       bV !!! (i * dim2 + j) = gesvd_vt r !!! (i * dim2 + j)) /\
    (forall l, l <> pU -> l <> pS -> l <> pV -> h' !! l = h0 !! l).
Proof.
  intros HU HS HV HUS HUV HSV r Hinfo h0.
  unfold utility_ssvd. rewrite free_three by assumption.
  fold r. fold h0.
  destruct (Z.ltb_spec 0 (gesvd_info r)) as [Hlt|_]; [lia|].
  destruct (malloc h0 (dim1 * dim1)) as [pU h1] eqn:E1.
  destruct (calloc h1 (dim1 * dim2)) as [pS h2] eqn:E2.
  destruct (malloc h2 (dim2 * dim2)) as [pV h3] eqn:E3.
  destruct (ssvd_alloc h0 h1 h2 h3 _ _ _ pU pS pV E1 E2 E3)
    as (HpU & HpS & HpV & HneUS & HneUV & HneSV & HbU & HbS & HbV & Hrest).
  rewrite for2_poke.
  rewrite (for_poke (dim1 `min` dim2) (fun i => i * dim2 + i) (fun i => gesvd_s r !!! i)).
  rewrite for2_poke.
  destruct (for2_fill dim1 dim1 (fun i j => i * dim1 + j)
              (fun i j => gesvd_u r !!! (j * dim1 + i)) (malloc_buf (dim1 * dim1)))
    as (HlU & HwU & _).
  { intros i j i' j' _ Hj _ Hj' Heq. exact (index_inj dim1 i j i' j' Hj Hj' Heq). }
  { intros i j Hi Hj. unfold malloc_buf. rewrite length_replicate.
    apply index_lt; assumption. }
  destruct (for_fill (dim1 `min` dim2) (fun i => i * dim2 + i)
              (fun i => gesvd_s r !!! i) (replicate (dim1 * dim2) fzero))
    as (HlS & HwS & HuS).
  { intros i i' _ _ Heq. exact (index_diag_inj dim2 i i' Heq). }
  { intros i Hi. rewrite length_replicate. apply index_lt; lia. }
  destruct (for2_fill dim2 dim2 (fun i j => i * dim2 + j)
              (fun i j => gesvd_vt r !!! (i * dim2 + j)) (malloc_buf (dim2 * dim2)))
    as (HlV & HwV & _).
  { intros i j i' j' _ Hj _ Hj' Heq. exact (index_inj dim2 i j i' j' Hj Hj' Heq). }
  { intros i j Hi Hj. unfold malloc_buf. rewrite length_replicate.
    apply index_lt; assumption. }
  eexists _, pU, pS, pV, _, _, _.
  split; [reflexivity|].
  do 6 (split; [assumption|]).
  split.
  { rewrite lookup_alter_ne, lookup_alter_ne by congruence.
    rewrite lookup_alter_eq, HbU. reflexivity. }
  split.
  { rewrite lookup_alter_ne by congruence.
    rewrite lookup_alter_eq, lookup_alter_ne, HbS by congruence. reflexivity. }
  split.
  { rewrite lookup_alter_eq, lookup_alter_ne, lookup_alter_ne, HbV by congruence.
    reflexivity. }
  split; [rewrite HlU; apply length_replicate|].
  split; [rewrite HlS; apply length_replicate|].
  split; [rewrite HlV; apply length_replicate|].
  split; [exact HwU|]. split; [|split; [exact HwV|]].
  - intros i j Hi Hj. destruct (decide (i = j)) as [<-|Hne].
    + apply HwS. lia.
    + rewrite HuS.
      * apply lookup_total_replicate_2. apply index_lt; assumption.
      * intros i' Hi' Heq.
        destruct (index_inj dim2 i' i' i j ltac:(lia) Hj Heq). lia.
  - intros l HlU' HlS' HlV'.
    rewrite !lookup_alter_ne by congruence. apply Hrest; assumption.
Qed.

(** ** The order of the floats *)

Lemma SFcompare_fkey (x y : float) :
  is_nan x = false -> is_nan y = false ->
  SFcompare x y = Some (kcmp (fkey x) (fkey y)).
Proof.
  intros Hx Hy.
  destruct x as [sx|sx| |sx mx ex], y as [sy|sy| |sy my ey];
    try discriminate; try destruct sx; try destruct sy; try reflexivity.
  unfold kcmp, fkey, SFcompare. cbn [fst snd Z.compare].
  rewrite Z.compare_opp, (Z.compare_antisym ex ey).
  destruct (ex ?= ey)%Z; reflexivity.
Qed.

Lemma kcmp_Lt k k' :
  kcmp k k' = Lt <->
  (k.1.1 < k'.1.1 \/ (k.1.1 = k'.1.1 /\
     (k.1.2 < k'.1.2 \/ (k.1.2 = k'.1.2 /\ k.2 < k'.2))))%Z.
Proof.
  unfold kcmp.
  destruct (Z.compare_spec k.1.1 k'.1.1), (Z.compare_spec k.1.2 k'.1.2),
    (Z.compare_spec k.2 k'.2); split; intros H'; try discriminate; try reflexivity;
    try lia.
Qed.

Lemma kcmp_Gt k k' : kcmp k k' = Gt <-> kcmp k' k = Lt.
Proof.
  rewrite kcmp_Lt. unfold kcmp.
  destruct (Z.compare_spec k.1.1 k'.1.1), (Z.compare_spec k.1.2 k'.1.2),
    (Z.compare_spec k.2 k'.2); split; intros H'; try discriminate; try reflexivity;
    try lia.
Qed.

(** [x < y] and [x <= y] on values that are not NaN, through the keys. *)
Lemma flt_fkey x y :
  is_nan x = false -> is_nan y = false ->
  (flt x y = true <-> kcmp (fkey x) (fkey y) = Lt).
Proof.
  intros Hx Hy. unfold flt, SFltb. rewrite SFcompare_fkey by assumption.
  destruct (kcmp _ _); split; intros; congruence.
Qed.

Lemma fle_fkey x y :
  is_nan x = false -> is_nan y = false ->
  (fle x y = true <-> kcmp (fkey y) (fkey x) <> Lt).
Proof.
  intros Hx Hy. unfold fle, SFleb. rewrite SFcompare_fkey by assumption.
  pose proof (kcmp_Gt (fkey x) (fkey y)) as HGt.
  destruct (kcmp (fkey x) (fkey y)) eqn:Hc.
  - split; [|reflexivity]. intros _ Hlt.
    apply kcmp_Lt in Hlt. assert (HE := Hc).
    unfold kcmp in HE.
    destruct (Z.compare_spec (fkey x).1.1 (fkey y).1.1); try discriminate.
    destruct (Z.compare_spec (fkey x).1.2 (fkey y).1.2); try discriminate.
    destruct (Z.compare_spec (fkey x).2 (fkey y).2); try discriminate. lia.
  - split; [|reflexivity]. intros _ Hlt.
    apply kcmp_Lt in Hlt. apply kcmp_Lt in Hc. lia.
  - split; [discriminate|]. intros Hn. exfalso. apply Hn. apply HGt. reflexivity.
Qed.

Lemma cmp_asc_float_le (a1 a2 : sort_float) :
  (cmp_asc_float a1 a2 <= 0)%Z <-> (flt (val a1) (val a2) = true \/ flt (val a2) (val a1) = false).
Proof.
  unfold cmp_asc_float, fgt, flt.
  destruct (SFltb (val a1) (val a2)), (SFltb (val a2) (val a1)); split; intros H;
    try lia; auto; destruct H; congruence.
Qed.

Lemma cmp_desc_float_le (a1 a2 : sort_float) :
  (cmp_desc_float a1 a2 <= 0)%Z <-> (flt (val a2) (val a1) = true \/ flt (val a1) (val a2) = false).
Proof.
  unfold cmp_desc_float, fgt, flt.
  destruct (SFltb (val a1) (val a2)), (SFltb (val a2) (val a1)); split; intros H;
    try lia; auto; destruct H; congruence.
Qed.

Lemma flt_false_fkey x y :
  is_nan x = false -> is_nan y = false ->
  (flt x y = false <-> kcmp (fkey x) (fkey y) <> Lt).
Proof.
  intros Hx Hy. pose proof (flt_fkey x y Hx Hy) as H.
  destruct (flt x y); split; intros H'; try congruence.
  - exfalso. apply H'. apply H. reflexivity.
  - intros Hk. apply H in Hk. discriminate.
Qed.

Lemma cmp_asc_float_fkey (a1 a2 : sort_float) :
  is_nan (val a1) = false -> is_nan (val a2) = false ->
  ((cmp_asc_float a1 a2 <= 0)%Z <-> kcmp (fkey (val a2)) (fkey (val a1)) <> Lt).
Proof.
  intros H1 H2. rewrite cmp_asc_float_le.
  rewrite (flt_fkey _ _ H1 H2), (flt_false_fkey _ _ H2 H1).
  split; [|auto]. intros [Hlt|Hn]; [|exact Hn].
  intros Hk. apply kcmp_Lt in Hlt. apply kcmp_Lt in Hk. lia.
Qed.

Lemma cmp_desc_float_fkey (a1 a2 : sort_float) :
  is_nan (val a1) = false -> is_nan (val a2) = false ->
  ((cmp_desc_float a1 a2 <= 0)%Z <-> kcmp (fkey (val a1)) (fkey (val a2)) <> Lt).
Proof.
  intros H1 H2. rewrite cmp_desc_float_le.
  rewrite (flt_fkey _ _ H2 H1), (flt_false_fkey _ _ H1 H2).
  split; [|auto]. intros [Hlt|Hn]; [|exact Hn].
  intros Hk. apply kcmp_Lt in Hlt. apply kcmp_Lt in Hk. lia.
Qed.

Lemma kcmp_total k k' : kcmp k k' <> Lt \/ kcmp k' k <> Lt.
Proof.
  destruct (kcmp k k') eqn:Hc; try (left; discriminate).
  right. intros Hk. apply kcmp_Lt in Hc. apply kcmp_Lt in Hk. lia.
Qed.

Lemma kcmp_trans k1 k2 k3 :
  kcmp k2 k1 <> Lt -> kcmp k3 k2 <> Lt -> kcmp k3 k1 <> Lt.
Proof.
  rewrite !kcmp_Lt. lia.
Qed.

Lemma cmp_asc_float_consistent (l : list sort_float) :
  no_nan l -> consistent cmp_asc_float l.
Proof.
  intros Hl x y z Hx Hy Hz.
  pose proof (Hl x Hx). pose proof (Hl y Hy). pose proof (Hl z Hz).
  rewrite !cmp_asc_float_fkey by assumption. split.
  - destruct (kcmp_total (fkey (val y)) (fkey (val x))); auto.
  - apply kcmp_trans.
Qed.

Lemma cmp_desc_float_consistent (l : list sort_float) :
  no_nan l -> consistent cmp_desc_float l.
Proof.
  intros Hl x y z Hx Hy Hz.
  pose proof (Hl x Hx). pose proof (Hl y Hy). pose proof (Hl z Hz).
  rewrite !cmp_desc_float_fkey by assumption. split.
  - apply kcmp_total.
  - intros H12 H23. exact (kcmp_trans _ _ _ H23 H12).
Qed.

(** ** The reference [qsort] meets the contract *)

Section Isort.
Context {T : Type} (cmp : T -> T -> Z).

Let le (x y : T) : Prop := (cmp x y <= 0)%Z.

Lemma insert_by_perm x l : insert_by cmp x l ≡ₚ x :: l.
Proof.
  induction l as [|y l IH]; simpl; [reflexivity|].
  destruct (cmp x y <=? 0)%Z; [reflexivity|].
  rewrite IH. apply Permutation_swap.
Qed.

Lemma isort_perm l : isort cmp l ≡ₚ l.
Proof.
  induction l as [|x l IH]; simpl; [reflexivity|].
  rewrite insert_by_perm, IH. reflexivity.
Qed.

Variable P : T -> Prop.
Hypothesis Htotal : forall x y, P x -> P y -> le x y \/ le y x.
Hypothesis Htrans : forall x y z, P x -> P y -> P z -> le x y -> le y z -> le x z.

Lemma insert_by_sorted x l :
  P x -> Forall P l -> StronglySorted le l -> StronglySorted le (insert_by cmp x l).
Proof.
  intros Hx Hl Hs. induction Hs as [|y l Hs IH Hy]; simpl.
  - constructor; constructor.
  - apply Forall_cons in Hl as [HPy HPl].
    destruct (Z.leb_spec (cmp x y) 0) as [Hle|Hgt].
    + constructor; [constructor; assumption|].
      constructor; [exact Hle|].
      rewrite Forall_forall in Hy, HPl |- *. intros z Hz.
      apply (Htrans x y z); auto.
    + constructor; [apply IH; exact HPl|].
      rewrite (insert_by_perm x l). constructor; [|exact Hy].
      destruct (Htotal x y Hx HPy) as [H'|H']; [unfold le in H'; lia|exact H'].
Qed.

Lemma isort_sorted l : Forall P l -> StronglySorted le (isort cmp l).
Proof.
  induction l as [|x l IH]; intros Hl; simpl; [constructor|].
  apply Forall_cons in Hl as [Hx Hl].
  apply insert_by_sorted; [exact Hx| |apply IH; exact Hl].
  rewrite isort_perm. exact Hl.
Qed.

Lemma StronglySorted_sorted_by l : StronglySorted le l -> sorted_by cmp l.
Proof.
  induction 1 as [|x l Hs IH Hx]; intros i j a b Hij Ha Hb.
  - rewrite lookup_nil in Ha. discriminate.
  - destruct j as [|j]; [lia|]. simpl in Hb.
    destruct i as [|i]; simpl in Ha.
    + injection Ha as <-. rewrite Forall_forall in Hx. apply Hx.
      apply list_elem_of_lookup. eauto.
    + apply (IH i j a b); [lia|assumption..].
Qed.
End Isort.

Lemma isort_contract : qsort_contract isort.
Proof.
  intros cmp l Hc. split; [apply isort_perm|].
  apply StronglySorted_sorted_by.
  apply (isort_sorted cmp (fun x => x ∈ l)).
  - intros x y Hx Hy. apply (Hc x y y Hx Hy Hy).
  - intros x y z Hx Hy Hz. apply (Hc x y z Hx Hy Hz).
  - apply Forall_forall. auto.
Qed.

(** ** [sortf] *)

(** A buffer of [n] elements filled from the front. *)
Lemma for_fill_all {T} `{!Inhabited T} (n : nat) (v : nat -> T) (b : list T) :
  length b = n -> for_ n (fun i b => <[i := v i]> b) b = v <$> seq 0 n.
Proof.
  intros Hb.
  destruct (for_fill n (fun i => i) v b) as (Hl & Hw & _); [auto|lia|].
  apply (list_eq_same_length _ _ n).
  - rewrite length_fmap. apply length_seq.
  - congruence.
  - intros i x y Hi Hx Hy.
    apply list_lookup_total_correct in Hx. rewrite Hw in Hx by exact Hi.
    rewrite list_lookup_fmap, lookup_seq_lt in Hy by exact Hi.
    simpl in Hy. congruence.
Qed.

(** The first [n] elements of a buffer after they are filled. *)
Lemma for_fill_take {T} `{!Inhabited T} (n : nat) (v : nat -> T) (b : list T) :
  n <= length b -> take n (for_ n (fun i b => <[i := v i]> b) b) = v <$> seq 0 n.
Proof.
  intros Hb.
  destruct (for_fill n (fun i => i) v b) as (Hl & Hw & _); [auto|lia|].
  apply (list_eq_same_length _ _ n).
  - rewrite length_fmap. apply length_seq.
  - rewrite length_take. lia.
  - intros i x y Hi Hx Hy.
    rewrite lookup_take_lt in Hx by exact Hi.
    apply list_lookup_total_correct in Hx. rewrite Hw in Hx by exact Hi.
    rewrite list_lookup_fmap, lookup_seq_lt in Hy by exact Hi.
    simpl in Hy. congruence.
Qed.

(** The last loop of [sortf], as three independent fills. *)
Lemma sortf_loop (data : list sort_float) (in_vec : list float) (out_vec : ptr float)
    (new_idices : ptr nat) (len : nat) :
  let fillv := for_ len (fun i (b : list float) => <[i := val (data !!! i)]> b) in
  let filli := for_ len (fun i (b : list nat) => <[i := idx (data !!! i)]> b) in
  for_ len
    (fun i '(in_vec, out_vec, new_idices) =>
       let '(in_vec, out_vec) :=
         match out_vec with
         | Some o => (in_vec, Some (<[i := val (data !!! i)]> o))
         | NULL => (<[i := val (data !!! i)]> in_vec, NULL)
         end in
       let new_idices :=
         match new_idices with
         | Some ni => Some (<[i := idx (data !!! i)]> ni)
         | NULL => NULL
         end in
       (in_vec, out_vec, new_idices))
    (in_vec, out_vec, new_idices)
  = (match out_vec with Some _ => in_vec | NULL => fillv in_vec end,
     fillv <$> out_vec, filli <$> new_idices).
Proof.
  cbv zeta.
  destruct out_vec as [o|], new_idices as [ni|]; simpl;
    induction len as [|n IH]; try reflexivity; rewrite !for_S, IH; reflexivity.
Qed.

Lemma sortf_unfold
    (qsort : (sort_float -> sort_float -> Z) -> list sort_float -> list sort_float)
    (in_vec : list float) (len : nat) (descendFLAG : Z)
    (out_vec : ptr float) (new_idices : ptr nat) :
  let data := sortf_sorted qsort in_vec len descendFLAG in
  let fillv := for_ len (fun i (b : list float) => <[i := val (data !!! i)]> b) in
  let filli := for_ len (fun i (b : list nat) => <[i := idx (data !!! i)]> b) in
  sortf qsort in_vec out_vec new_idices len descendFLAG
  = (match out_vec with Some _ => in_vec | NULL => fillv in_vec end,
     fillv <$> out_vec, filli <$> new_idices).
Proof.
  intros data fillv filli. unfold sortf.
  rewrite (for_fill_all len (fun i => Build_sort_float (in_vec !!! i) i))
    by apply length_replicate.
  apply (sortf_loop data).
Qed.

Lemma fmap_lookup_total_seq {A B} `{!Inhabited A} (f : A -> B) (l : list A) :
  (fun i => f (l !!! i)) <$> seq 0 (length l) = f <$> l.
Proof.
  apply (list_eq_same_length _ _ (length l)).
  - apply length_fmap.
  - rewrite length_fmap. apply length_seq.
  - intros i x y Hi Hx Hy.
    rewrite list_lookup_fmap, lookup_seq_lt in Hx by exact Hi. simpl in Hx.
    rewrite list_lookup_fmap in Hy.
    destruct (lookup_lt_is_Some_2 l i Hi) as [a Ha].
    rewrite (list_lookup_total_correct l i a Ha) in Hx.
    rewrite Ha in Hy. simpl in Hy. congruence.
Qed.

Lemma take_lookup_total_seq {A} `{!Inhabited A} (l : list A) n :
  n <= length l -> (fun i => l !!! i) <$> seq 0 n = take n l.
Proof.
  intros Hn. apply (list_eq_same_length _ _ n).
  - rewrite length_take. lia.
  - rewrite length_fmap. apply length_seq.
  - intros i x y Hi Hx Hy.
    rewrite list_lookup_fmap, lookup_seq_lt in Hx by exact Hi. simpl in Hx.
    rewrite lookup_take_lt in Hy by exact Hi.
    apply list_lookup_total_correct in Hy. congruence.
Qed.

Lemma kcmp_refl k : kcmp k k <> Lt.
Proof. rewrite kcmp_Lt. lia. Qed.

Section SortfSpec.
Variable qsort : (sort_float -> sort_float -> Z) -> list sort_float -> list sort_float.
Hypothesis Hq : qsort_contract qsort.
Variables (in_vec : list float) (len : nat) (descendFLAG : Z).
Hypothesis Hlen : len <= length in_vec.
Hypothesis Hnan : forall i, i < len -> is_nan (in_vec !!! i) = false.

Let records := sortf_records in_vec len.
Let data := sortf_sorted qsort in_vec len descendFLAG.
Let cmp := if (descendFLAG =? 0)%Z then cmp_asc_float else cmp_desc_float.

Lemma sortf_records_elem d :
  d ∈ records -> idx d < len /\ val d = in_vec !!! idx d /\ is_nan (val d) = false.
Proof.
  unfold records, sortf_records. intros Hd.
  apply list_elem_of_fmap in Hd as (i & -> & Hi).
  apply elem_of_seq in Hi. simpl. split; [lia|]. split; [reflexivity|].
  apply Hnan. lia.
Qed.

Lemma sortf_data_contract : data ≡ₚ records /\ sorted_by cmp data.
Proof.
  assert (Hnn : no_nan records) by (intros d Hd; apply sortf_records_elem, Hd).
  unfold data, sortf_sorted, cmp. fold records.
  destruct (descendFLAG =? 0)%Z; apply Hq.
  - apply cmp_asc_float_consistent, Hnn.
  - apply cmp_desc_float_consistent, Hnn.
Qed.

Lemma sortf_data_length : length data = len.
Proof.
  destruct sortf_data_contract as [Hp _]. rewrite Hp.
  unfold records, sortf_records. rewrite length_fmap. apply length_seq.
Qed.

Lemma sortf_data_elem i :
  i < len ->
  idx (data !!! i) < len /\ val (data !!! i) = in_vec !!! idx (data !!! i) /\
  is_nan (val (data !!! i)) = false.
Proof.
  intros Hi. apply sortf_records_elem.
  destruct sortf_data_contract as [Hp _]. rewrite <- Hp.
  apply list_elem_of_lookup. exists i.
  apply list_lookup_lookup_total_lt. rewrite sortf_data_length. exact Hi.
Qed.

Lemma sortf_data_vals : val <$> data ≡ₚ take len in_vec.
Proof.
  destruct sortf_data_contract as [Hp _]. rewrite Hp.
  unfold records, sortf_records. rewrite <- list_fmap_compose.
  rewrite <- (take_lookup_total_seq in_vec len Hlen). reflexivity.
Qed.

Lemma sortf_data_idxs : idx <$> data ≡ₚ seq 0 len.
Proof.
  destruct sortf_data_contract as [Hp _]. rewrite Hp.
  unfold records, sortf_records. rewrite <- list_fmap_compose.
  rewrite <- (list_fmap_id (seq 0 len)) at 2. reflexivity.
Qed.

Lemma sortf_data_ordered i j :
  i <= j -> j < len ->
  kcmp (fkey (val (data !!! (if (descendFLAG =? 0)%Z then j else i))))
       (fkey (val (data !!! (if (descendFLAG =? 0)%Z then i else j)))) <> Lt.
Proof.
  intros Hij Hj.
  destruct (decide (i = j)) as [->|Hne].
  { destruct (descendFLAG =? 0)%Z; apply kcmp_refl. }
  destruct sortf_data_contract as [_ Hs].
  assert (Hc : (cmp (data !!! i) (data !!! j) <= 0)%Z).
  { apply (Hs i j); [lia|apply list_lookup_lookup_total_lt; rewrite sortf_data_length; lia..]. }
  destruct (sortf_data_elem i ltac:(lia)) as (_ & _ & Hni).
  destruct (sortf_data_elem j Hj) as (_ & _ & Hnj).
  unfold cmp in Hc. destruct (descendFLAG =? 0)%Z.
  - apply cmp_asc_float_fkey in Hc; assumption.
  - apply cmp_desc_float_fkey in Hc; assumption.
Qed.

(** What a buffer of at least [len] elements holds after the value loop. *)
Lemma sortf_values (b : list float) :
  len <= length b ->
  let values := for_ len (fun i b => <[i := val (data !!! i)]> b) b in
  length values = length b /\
  (forall i, i < len -> values !!! i = val (data !!! i)) /\
  take len values ≡ₚ take len in_vec /\
  ((descendFLAG =? 0)%Z = true ->
     forall i j, i <= j -> j < len -> fle (values !!! i) (values !!! j) = true) /\
  ((descendFLAG =? 0)%Z = false ->
     forall i j, i <= j -> j < len -> fle (values !!! j) (values !!! i) = true).
Proof.
  intros Hb values.
  destruct (for_fill len (fun i => i) (fun i => val (data !!! i)) b)
    as (Hl & Hw & _); [auto|lia|].
  fold values in Hl, Hw.
  split; [exact Hl|]. split; [exact Hw|]. split; [|split].
  - unfold values. rewrite for_fill_take by exact Hb.
    etransitivity; [|apply sortf_data_vals].
    rewrite <- sortf_data_length.
    rewrite (fmap_lookup_total_seq val data). reflexivity.
  - intros Hf i j Hij Hj. rewrite !Hw by lia.
    pose proof (sortf_data_ordered i j Hij Hj) as Ho. rewrite Hf in Ho.
    apply fle_fkey; [apply sortf_data_elem; lia..|exact Ho].
  - intros Hf i j Hij Hj. rewrite !Hw by lia.
    pose proof (sortf_data_ordered i j Hij Hj) as Ho. rewrite Hf in Ho.
    apply fle_fkey; [apply sortf_data_elem; lia..|exact Ho].
Qed.

(** ... and after the index loop. *)
Lemma sortf_indices (ni : list nat) :
  len <= length ni ->
  let ni' := for_ len (fun i b => <[i := idx (data !!! i)]> b) ni in
  take len ni' ≡ₚ seq 0 len /\
  (forall i, i < len ->
     ni' !!! i < len /\ in_vec !!! (ni' !!! i) = val (data !!! i)).
Proof.
  intros Hb ni'.
  destruct (for_fill len (fun i => i) (fun i => idx (data !!! i)) ni)
    as (Hl & Hw & _); [auto|lia|].
  fold ni' in Hl, Hw. split.
  - unfold ni'. rewrite for_fill_take by exact Hb.
    etransitivity; [|apply sortf_data_idxs].
    rewrite <- sortf_data_length.
    rewrite (fmap_lookup_total_seq idx data). reflexivity.
  - intros i Hi. rewrite Hw by exact Hi.
    destruct (sortf_data_elem i Hi) as (H1 & H2 & _). split; [exact H1|].
    symmetry. exact H2.
Qed.
End SortfSpec.

(** The scenario of the specification, for every [qsort] that meets the
    contract: the three values are distinct, so the order is forced. *)
Lemma sortf_scenario
    (qsort : (sort_float -> sort_float -> Z) -> list sort_float -> list sort_float) :
  qsort_contract qsort ->
  sortf qsort [fZ 3; fZ 1; fZ 2] NULL (Some [0; 0; 0]) 3 1
  = ([fZ 3; fZ 2; fZ 1], NULL, Some [0; 2; 1]).
Proof.
  intros Hq. rewrite sortf_unfold. cbv zeta.
  assert (Hdata : sortf_sorted qsort [fZ 3; fZ 1; fZ 2] 3 1
                  = [Build_sort_float (fZ 3) 0; Build_sort_float (fZ 2) 2;
                     Build_sort_float (fZ 1) 1]).
  { unfold sortf_sorted. change (1 =? 0)%Z with false. cbv iota.
    set (recs := sortf_records [fZ 3; fZ 1; fZ 2] 3).
    assert (Hrecs : recs = [Build_sort_float (fZ 3) 0; Build_sort_float (fZ 1) 1;
                            Build_sort_float (fZ 2) 2]) by reflexivity.
    assert (Hc : consistent cmp_desc_float recs).
    { apply cmp_desc_float_consistent. intros x Hx. rewrite Hrecs in Hx.
      repeat (apply elem_of_cons in Hx as [->|Hx]; [reflexivity|]).
      apply elem_of_nil in Hx. contradiction. }
    destruct (Hq cmp_desc_float recs Hc) as [Hp Hs].
    remember (qsort cmp_desc_float recs) as L eqn:HL. clear HL.
    rewrite Hrecs in Hp. symmetry in Hp.
    apply permutations_Permutation in Hp.
    match type of Hp with
    | _ ∈ ?P => let ps := eval vm_compute in P in change P with ps in Hp
    end.
    repeat (apply elem_of_cons in Hp as [->|Hp]);
      try (apply elem_of_nil in Hp; contradiction);
      try reflexivity; exfalso;
      first
        [ solve [pose proof (Hs 0 1 _ _ ltac:(lia) eq_refl eq_refl) as H';
                 vm_compute in H'; apply H'; reflexivity]
        | solve [pose proof (Hs 0 2 _ _ ltac:(lia) eq_refl eq_refl) as H';
                 vm_compute in H'; apply H'; reflexivity]
        | solve [pose proof (Hs 1 2 _ _ ltac:(lia) eq_refl eq_refl) as H';
                 vm_compute in H'; apply H'; reflexivity] ].
  }
  rewrite Hdata. reflexivity.
Qed.

(** C8: for every [qsort] that meets its contract and every input whose
    first [len] values are not NaN, [sortf] leaves in [out_vec] (in
    [in_vec] when [out_vec] is null) a rearrangement of the first [len]
    values, ascending when [descendFLAG] is [0] and descending when it is
    not (in particular when it is [1]); when [new_idices] is not null,
    [new_idices[i]] is the position in [in_vec] of the value at position
    [i]; and [sortf([3,1,2], descending)] gives [[3,2,1]] and [[0,2,1]]. *)
Theorem sortf_sorts
    (qsort : (sort_float -> sort_float -> Z) -> list sort_float -> list sort_float)
    (in_vec : list float) (out_vec : ptr float) (new_idices : ptr nat)
    (len : nat) (descendFLAG : Z) :
  qsort_contract qsort ->
  len <= length in_vec ->
  (forall o, out_vec = Some o -> len <= length o) ->
  (forall ni, new_idices = Some ni -> len <= length ni) ->
  (forall i, i < len -> is_nan (in_vec !!! i) = false) ->
  let res := sortf qsort in_vec out_vec new_idices len descendFLAG in
  exists values : list float,
    match out_vec with
    | Some _ => res.1.2 = Some values /\ res.1.1 = in_vec
    | NULL => res.1.2 = NULL /\ res.1.1 = values
    end /\
    take len values ≡ₚ take len in_vec /\
    (descendFLAG = 0%Z ->
       forall i j, i <= j -> j < len -> fle (values !!! i) (values !!! j) = true) /\
    (descendFLAG <> 0%Z ->
       forall i j, i <= j -> j < len -> fle (values !!! j) (values !!! i) = true) /\
    match new_idices with
    | Some _ =>
        exists ni : list nat,
          res.2 = Some ni /\ take len ni ≡ₚ seq 0 len /\
          forall i, i < len -> ni !!! i < len /\ in_vec !!! (ni !!! i) = values !!! i
    | NULL => res.2 = NULL
    end /\
    sortf qsort [fZ 3; fZ 1; fZ 2] NULL (Some [0; 0; 0]) 3 1
    = ([fZ 3; fZ 2; fZ 1], NULL, Some [0; 2; 1]).
Proof.
  intros Hq Hlen Hout Hidx Hnan res.
  unfold res. rewrite sortf_unfold. cbv zeta.
  set (data := sortf_sorted qsort in_vec len descendFLAG).
  set (b := match out_vec with Some o => o | NULL => in_vec end).
  assert (Hb : len <= length b) by (unfold b; destruct out_vec; auto).
  destruct (sortf_values qsort Hq in_vec len descendFLAG Hlen Hnan b Hb)
    as (_ & Hv & Hperm & Hasc & Hdesc).
  fold data in Hv, Hperm, Hasc, Hdesc.
  exists (for_ len (fun i b => <[i := val (data !!! i)]> b) b).
  split; [unfold b; destruct out_vec; simpl; auto|].
  split; [exact Hperm|].
  split; [intros ->; apply Hasc; reflexivity|].
  split; [intros Hne; apply Hdesc, Z.eqb_neq, Hne|].
  split; [|apply sortf_scenario, Hq].
  destruct new_idices as [ni|]; simpl; [|reflexivity].
  destruct (sortf_indices qsort Hq in_vec len descendFLAG Hlen Hnan ni (Hidx ni eq_refl))
    as (Hp & Hi).
  fold data in Hp, Hi.
  eexists. split; [reflexivity|]. split; [exact Hp|].
  intros i Hlt. destruct (Hi i Hlt) as [H1 H2]. split; [exact H1|].
  rewrite H2. symmetry. apply Hv. exact Hlt.
Qed.

Lemma sortf_sorts_witness :
  let in_vec := [fZ 3; fZ 1; fZ 2] in
  let res := sortf isort in_vec NULL (Some [0; 0; 0]) 3 1 in
  qsort_contract isort /\
  3 <= length in_vec /\
  (forall i, i < 3 -> is_nan (in_vec !!! i) = false) /\
  exists values : list float,
    (res.1.2 = NULL /\ res.1.1 = values) /\
    take 3 values ≡ₚ take 3 in_vec /\
    (forall i j, i <= j -> j < 3 -> fle (values !!! j) (values !!! i) = true) /\
    exists ni : list nat,
      res.2 = Some ni /\ take 3 ni ≡ₚ seq 0 3 /\
      forall i, i < 3 -> ni !!! i < 3 /\ in_vec !!! (ni !!! i) = values !!! i.
Proof.
  intros in_vec res.
  assert (Hnan : forall i, i < 3 -> is_nan (in_vec !!! i) = false).
  { intros i Hi. destruct i as [|[|[|i]]]; [reflexivity..|lia]. }
  split; [exact isort_contract|]. split; [simpl; lia|]. split; [exact Hnan|].
  destruct (sortf_sorts isort in_vec NULL (Some [0; 0; 0]) 3 1 isort_contract
              ltac:(simpl; lia) ltac:(discriminate)
              ltac:(intros ni [= <-]; simpl; lia) Hnan)
    as (values & Hout & Hperm & _ & Hdesc & Hni & _).
  exists values. split; [exact Hout|]. split; [exact Hperm|].
  split; [apply Hdesc; discriminate|exact Hni].
Defined.

(** Why the values must not be NaN: every comparison with a NaN is false,
    [cmp_asc_float] calls it equal to everything, and the reference
    [qsort] leaves [[2, NaN, 1]] as it is. *)
Example sortf_nan_example :
  sortf isort [fZ 2; S754_nan; fZ 1] NULL NULL 3 0
  = ([fZ 2; S754_nan; fZ 1], NULL, NULL).
Proof. reflexivity. Qed.

(** With a NaN among the values [sortf] does not sort: asked for ascending
    order, with a [qsort] that meets its contract, it leaves [[2, NaN, 1]]
    as it is, with [1] after [2]. *)
Lemma sortf_nan_counterexample :
  let out := (sortf isort [fZ 2; S754_nan; fZ 1] NULL NULL 3 0).1.1 in
  qsort_contract isort /\
  out = [fZ 2; S754_nan; fZ 1] /\
  flt (out !!! 2) (out !!! 0) = true /\
  ~ (forall i j, i <= j -> j < 3 -> fle (out !!! i) (out !!! j) = true).
Proof.
  cbv zeta. split; [exact isort_contract|]. split; [reflexivity|].
  split; [reflexivity|].
  intros H. specialize (H 0 2 ltac:(lia) ltac:(lia)). vm_compute in H. discriminate.
Qed.

(** ** General eigendecomposition *)

Lemma forM_store {T} (n : nat) (pos : nat -> nat) (v : nat -> T) (b : list T) :
  forM n (fun j p => store p (pos j) (v j)) (Some b)
  = ret (Some (for_ n (fun j b => <[pos j := v j]> b) b)).
Proof.
  unfold forM. induction n as [|n IH]; [reflexivity|].
  rewrite !for_S, IH. reflexivity.
Qed.

Lemma for_fmap_option {A} (n : nat) (g : nat -> A -> A) (x : option A) :
  for_ n (fun i x => g i <$> x) x = for_ n g <$> x.
Proof.
  induction n as [|n IH]; [destruct x; reflexivity|].
  rewrite for_S, IH. destruct x; simpl; [rewrite for_S|]; reflexivity.
Qed.

Section Ceig.
Variable cgeev : geev_t.
Variable qsort : (sort_float -> sort_float -> Z) -> list sort_float -> list sort_float.
Variables (A : list float_complex) (dim : nat) (sortDecFLAG : Z).

Let r := ceig_solve cgeev A dim.
Let wr := (ceig_sort qsort (geev_w r) dim sortDecFLAG).1.
Let sort_idx := (ceig_sort qsort (geev_w r) dim sortDecFLAG).2.

(** The driver never faults; a null pointer stays null, a buffer is
    transformed. *)
Lemma utility_ceig_run (VL VR D : ptr float_complex) :
  utility_ceig cgeev qsort A dim sortDecFLAG VL VR D
  = if (0 <? geev_info r)%Z
    then Some (ceig_clear dim <$> VL, ceig_clear dim <$> VR, ceig_clear dim <$> D)
    else Some (ceig_vectors dim sort_idx (geev_vl r) <$> VL,
               ceig_vectors dim sort_idx (geev_vr r) <$> VR,
               ceig_values dim wr <$> D).
Proof.
  unfold utility_ceig. fold r.
  assert (Hs : ceig_sort qsort (geev_w r) dim sortDecFLAG = (wr, sort_idx))
    by (unfold wr, sort_idx; destruct (ceig_sort _ _ _ _); reflexivity).
  rewrite Hs.
  assert (HD : (if D is Some _
                then memset_at lay_float_complex D 0
                       (dim * dim * sizeof lay_float_complex)
                else ret D) = ret (ceig_clear dim <$> D)) by (destruct D; reflexivity).
  rewrite HD. unfold ret at 1. unfold bind at 1.
  destruct (0 <? geev_info r)%Z.
  - destruct VL, VR; reflexivity.
  - set (gL := fun (i : nat) (b : list float_complex) => for_ dim (fun j b =>
         <[i * dim + j := geev_vl r !!! ((sort_idx !!! j) * dim + i)]> b) b).
    set (gR := fun (i : nat) (b : list float_complex) => for_ dim (fun j b =>
         <[i * dim + j := geev_vr r !!! ((sort_idx !!! j) * dim + i)]> b) b).
    set (gD := fun (i : nat) (b : list float_complex) =>
         <[i * dim + i := cmplxf (wr !!! i) f0_0]> b).
    rewrite (forM_pure dim _
      (fun i '(VL, VR, D) => (gL i <$> VL, gR i <$> VR, gD i <$> D))).
    + pose proof (for_prod3 dim (fun i x => gL i <$> x) (fun i x => gR i <$> x)
                    (fun i x => gD i <$> x) VL VR (ceig_clear dim <$> D)) as Hp.
      cbv beta in Hp. etransitivity; [apply (f_equal ret); exact Hp|].
      rewrite (for_fmap_option dim gL), (for_fmap_option dim gR),
        (for_fmap_option dim gD).
      unfold ret. f_equal. f_equal. destruct D; reflexivity.
    + intros i [[vl vr] d] _. unfold gL, gR, gD.
      destruct vl as [vl|], vr as [vr|], d as [d|]; simpl;
        rewrite ?forM_store; reflexivity.
Qed.
End Ceig.

Lemma ceig_sort_wr
    (qsort : (sort_float -> sort_float -> Z) -> list sort_float -> list sort_float)
    (w : list float_complex) (dim : nat) (sortDecFLAG : Z) :
  (ceig_sort qsort w dim sortDecFLAG).1
  = (sortf qsort ((fun i => crealf (w !!! i)) <$> seq 0 dim) NULL
       (Some (malloc_buf dim)) dim sortDecFLAG).1.1.
Proof.
  unfold ceig_sort.
  rewrite (for_fill_all dim (fun i => crealf (w !!! i))) by apply length_replicate.
  destruct (sortf _ _ _ _ _ _) as [[wr o] [ni|]]; reflexivity.
Qed.

Lemma ceig_clear_zero (dim : nat) (b : list float_complex) k :
  length b = dim * dim -> k < dim * dim -> ceig_clear dim b !!! k = cmplxf fzero fzero.
Proof.
  intros Hb Hk. unfold ceig_clear. apply memset_float_complex_zero; [exact Hk|lia].
Qed.

Lemma ceig_values_spec (dim : nat) (wr : list float) (b : list float_complex) :
  length b = dim * dim ->
  length (ceig_values dim wr b) = dim * dim /\
  (forall i, i < dim -> ceig_values dim wr b !!! (i * dim + i) = cmplxf (wr !!! i) fzero) /\
  (forall i j, i < dim -> j < dim -> i <> j ->
     ceig_values dim wr b !!! (i * dim + j) = cmplxf fzero fzero).
Proof.
  intros Hb. unfold ceig_values.
  assert (Hc : length (ceig_clear dim b) = dim * dim)
    by (unfold ceig_clear; rewrite length_memset; exact Hb).
  destruct (for_fill dim (fun i => i * dim + i) (fun i => cmplxf (wr !!! i) f0_0)
              (ceig_clear dim b)) as (Hl & Hw & Hu).
  { intros i i' _ _ Heq. exact (index_diag_inj dim i i' Heq). }
  { intros i Hi. rewrite Hc. apply index_lt; assumption. }
  split; [congruence|]. split; [exact Hw|].
  intros i j Hi Hj Hne. rewrite Hu.
  - apply ceig_clear_zero; [exact Hb|apply index_lt; assumption].
  - intros i' Hi' Heq. destruct (index_inj dim i' i' i j Hi' Hj Heq). lia.
Qed.

(** With a [qsort] that meets its contract and real parts that are not NaN,
    the diagonal of [D] holds a rearrangement of the real parts of [w]. *)
Lemma ceig_sorted_real_parts
    (qsort : (sort_float -> sort_float -> Z) -> list sort_float -> list sort_float)
    (w : list float_complex) (dim : nat) (sortDecFLAG : Z) :
  qsort_contract qsort ->
  (forall i, i < dim -> is_nan (crealf (w !!! i)) = false) ->
  take dim (ceig_sort qsort w dim sortDecFLAG).1
  ≡ₚ (fun i => crealf (w !!! i)) <$> seq 0 dim.
Proof.
  intros Hq Hnan. rewrite ceig_sort_wr, sortf_unfold. cbv zeta. simpl.
  set (re := (fun i => crealf (w !!! i)) <$> seq 0 dim).
  assert (Hre : length re = dim) by (unfold re; rewrite length_fmap; apply length_seq).
  assert (Hnan' : forall i, i < dim -> is_nan (re !!! i) = false).
  { intros i Hi. unfold re.
    rewrite (list_lookup_total_alt _ i), list_lookup_fmap, lookup_seq_lt by exact Hi.
    simpl. apply Hnan. exact Hi. }
  destruct (sortf_values qsort Hq re dim sortDecFLAG ltac:(lia) Hnan' re ltac:(lia))
    as (_ & _ & Hperm & _).
  rewrite Hperm. rewrite take_ge by lia. reflexivity.
Qed.

(** The eigenvalues [i] and [2]: the diagonal holds [2] and [0]. *)
Example utility_ceig_example :
  utility_ceig (cgeev_diag 0) isort [] 2 1 NULL NULL
    (Some (replicate 4 (cmplxf (fZ 9) (fZ 9))))
  = Some (NULL, NULL,
          Some [cmplxf (fZ 2) fzero; cmplxf fzero fzero;
                cmplxf fzero fzero; cmplxf fzero fzero]).
Proof. reflexivity. Qed.

(** C10: [utility_ceig] returns for every combination of null and
    non-null [VL], [VR], [D], on success and on failure: no store goes
    through a null pointer, a null pointer is null at exit, and a [D] that
    is not null is cleared by [memset] before its diagonal is written (on
    success) or left cleared (on failure). *)
Theorem utility_ceig_null_outputs (cgeev : geev_t)
    (qsort : (sort_float -> sort_float -> Z) -> list sort_float -> list sort_float)
    (A : list float_complex) (dim : nat) (sortDecFLAG : Z)
    (VL VR D : ptr float_complex) :
  let r := ceig_solve cgeev A dim in
  let wr := (ceig_sort qsort (geev_w r) dim sortDecFLAG).1 in
  exists VL' VR' D' : ptr float_complex,
    utility_ceig cgeev qsort A dim sortDecFLAG VL VR D = Some (VL', VR', D') /\
    (VL = NULL <-> VL' = NULL) /\
    (VR = NULL <-> VR' = NULL) /\
    (D = NULL <-> D' = NULL) /\
    (forall d, D = Some d ->
       D' = Some (if (0 <? geev_info r)%Z then ceig_clear dim d
                  else ceig_values dim wr d)) /\
    (forall d k, length d = dim * dim -> k < dim * dim ->
       ceig_clear dim d !!! k = cmplxf fzero fzero).
Proof.
  intros r wr. rewrite utility_ceig_run. fold r. fold wr.
  destruct (0 <? geev_info r)%Z; eexists _, _, _; (split; [reflexivity|]);
    (split; [destruct VL; simpl; split; congruence|]);
    (split; [destruct VR; simpl; split; congruence|]);
    (split; [destruct D; simpl; split; congruence|]);
    (split; [intros d ->; reflexivity|]);
    intros d k Hd Hk; apply ceig_clear_zero; assumption.
Qed.

(** All three pointers null, on success and on failure. *)
Example utility_ceig_all_null :
  utility_ceig (cgeev_diag 0) isort [] 2 0 NULL NULL NULL = Some (NULL, NULL, NULL) /\
  utility_ceig (cgeev_diag 1) isort [] 2 0 NULL NULL NULL = Some (NULL, NULL, NULL).
Proof. split; reflexivity. Qed.

Lemma utility_ssvd_success_witness :
  let h : heap := <[5 := [fZ 1]]> ∅ in
  let A := [fZ 4; fZ 0; fZ 0; fZ 2] in
  let r := ssvd_factor (gesvd_diag42 binary32) A 2 2 in
  valid_ptr h (Some 5) /\ valid_ptr h NULL /\
  distinct_ptrs (Some 5) NULL /\ distinct_ptrs (@None nat) NULL /\
  (gesvd_info r <= 0)%Z /\
  exists (h' : heap) (pU pS pV : nat) (bU bS bV : list float),
    utility_ssvd (gesvd_diag42 binary32) A 2 2 h (Some 5) NULL NULL
      = Some (h', Some pU, Some pS, Some pV) /\
    pU <> pS /\ pU <> pV /\ pS <> pV /\
    h' !! pU = Some bU /\ h' !! pS = Some bS /\ h' !! pV = Some bV /\
    length bU = 2 * 2 /\ length bS = 2 * 2 /\ length bV = 2 * 2 /\
    (forall i j, i < 2 -> j < 2 ->
       bS !!! (i * 2 + j) = if decide (i = j) then gesvd_s r !!! i else fzero).
Proof.
  intros h A r.
  assert (H5 : valid_ptr h (Some 5)).
  { intros l [= <-]. exists [fZ 1]. reflexivity. }
  assert (H0 : valid_ptr h NULL) by (intros l; discriminate).
  assert (H50 : distinct_ptrs (Some 5) NULL) by (intros l _; discriminate).
  assert (H00 : distinct_ptrs (@None nat) NULL) by (intros l; discriminate).
  assert (Hinfo : (gesvd_info r <= 0)%Z) by (vm_compute; discriminate).
  repeat (split; [assumption|]).
  destruct (utility_ssvd_success (gesvd_diag42 binary32) A 2 2 h (Some 5) NULL NULL
              H5 H0 H0 H50 H50 H00 Hinfo)
    as (h' & pU & pS & pV & bU & bS & bV & Hrun & _ & _ & _ & H1 & H2 & H3 &
        H4 & H5' & H6 & H7 & H8 & H9 & _ & HS & _).
  exists h', pU, pS, pV, bU, bS, bV. repeat (split; [assumption|]). exact HS.
Defined.

Lemma utility_ceig_null_outputs_witness :
  exists VL' VR' D' : ptr float_complex,
    utility_ceig (cgeev_diag 1) isort [] 2 1
      (Some (replicate 4 (cmplxf (fZ 9) (fZ 9)))) NULL NULL = Some (VL', VR', D') /\
    (@None (list float_complex) = NULL <-> VR' = NULL) /\
    (@None (list float_complex) = NULL <-> D' = NULL).
Proof.
  destruct (utility_ceig_null_outputs (cgeev_diag 1) isort [] 2 1
              (Some (replicate 4 (cmplxf (fZ 9) (fZ 9)))) NULL NULL)
    as (VL' & VR' & D' & Hrun & _ & HR & HD & _).
  exists VL', VR', D'. split; [exact Hrun|]. split; [exact HR|exact HD].
Defined.

(** * Further facts *)

(** ** Arithmetic and comparisons *)

Lemma fmul_comm (fm : format) (x y : float) : fmul fm x y = fmul fm y x.
Proof.
  unfold fmul, SFmul.
  destruct x as [sx|sx| |sx mx ex], y as [sy|sy| |sy my ey];
    try reflexivity; rewrite (xorb_comm sx sy); try reflexivity.
  rewrite (Pos.mul_comm mx my), (Z.add_comm ex ey). reflexivity.
Qed.

(** [x < y] excludes [y < x], for all values. *)
Lemma flt_asym (x y : float) : flt x y = true -> flt y x = false.
Proof.
  intros Hxy.
  destruct (is_nan x) eqn:Hx.
  { destruct x, y; discriminate. }
  destruct (is_nan y) eqn:Hy.
  { destruct x, y; discriminate. }
  apply (flt_fkey x y Hx Hy) in Hxy.
  apply (flt_false_fkey y x Hy Hx). intros Hyx.
  apply kcmp_Lt in Hxy. apply kcmp_Lt in Hyx. lia.
Qed.

(** X1: the two comparison functions are antisymmetric on all values, NaN
    included, and [cmp_desc_float] is [cmp_asc_float] with its arguments
    exchanged. *)
Theorem cmp_float_antisymmetric (a1 a2 : sort_float) :
  cmp_asc_float a1 a2 = (- cmp_asc_float a2 a1)%Z /\
  cmp_desc_float a1 a2 = (- cmp_desc_float a2 a1)%Z /\
  cmp_desc_float a1 a2 = cmp_asc_float a2 a1.
Proof.
  pose proof (flt_asym (val a1) (val a2)) as H12.
  pose proof (flt_asym (val a2) (val a1)) as H21.
  unfold cmp_asc_float, cmp_desc_float, fgt, flt in *.
  destruct (SFltb (val a1) (val a2)), (SFltb (val a2) (val a1));
    try (specialize (H12 eq_refl)); try (specialize (H21 eq_refl));
    try discriminate; repeat split; reflexivity.
Qed.

(** X2: a record whose value is a NaN compares equal to every record, in
    either position and for both comparison functions. *)
Theorem cmp_float_nan_equal (a1 a2 : sort_float) :
  is_nan (val a1) = true ->
  cmp_asc_float a1 a2 = 0%Z /\ cmp_asc_float a2 a1 = 0%Z /\
  cmp_desc_float a1 a2 = 0%Z /\ cmp_desc_float a2 a1 = 0%Z.
Proof.
  intros Hnan. unfold cmp_asc_float, cmp_desc_float, fgt, flt, SFltb.
  destruct (val a1); try discriminate.
  destruct (val a2); repeat split; reflexivity.
Qed.

Lemma cmp_float_nan_equal_witness :
  is_nan (val (Build_sort_float S754_nan 0)) = true /\
  cmp_asc_float (Build_sort_float S754_nan 0) (Build_sort_float (fZ 1) 1) = 0%Z /\
  cmp_asc_float (Build_sort_float (fZ 1) 1) (Build_sort_float S754_nan 0) = 0%Z.
Proof.
  split; [reflexivity|].
  destruct (cmp_float_nan_equal (Build_sort_float S754_nan 0)
              (Build_sort_float (fZ 1) 1) eq_refl) as (H1 & H2 & _).
  split; [exact H1|exact H2].
Defined.

(** ** The vector primitives with an output buffer *)

(** A loop of stores through a pointer that is not null, for any element
    type. *)
Lemma forM_store_buf {T : Type} (a : list T) (v : list T -> nat -> T) len (buf : list T) :
  forM len (fun i '(a, c) => c <- store c i (v a i);; ret (a, c)) (a, Some buf)
  = ret (a, Some (for_ len (fun i b => <[i := v a i]> b) buf)).
Proof.
  unfold forM. induction len as [|n IH]; [reflexivity|].
  rewrite !for_S, IH. reflexivity.
Qed.

Lemma forM_store_nullptr {T : Type} (a : list T) (v : list T -> nat -> T) len :
  0 < len ->
  forM len (fun i '(a, c) => c <- store c i (v a i);; ret (a, c)) (a, @None (list T))
  = None.
Proof. intros Hlen. apply forM_fault; [exact Hlen|reflexivity]. Qed.

(** What a loop [for (i...) c[i] = v i] leaves in a buffer of at least [len]
    elements. *)
Lemma for_fill_front {T} `{!Inhabited T} (len : nat) (v : nat -> T) (buf : list T) :
  len <= length buf ->
  let c' := for_ len (fun i b => <[i := v i]> b) buf in
  length c' = length buf /\
  (forall i, i < len -> c' !!! i = v i) /\
  (forall i, len <= i -> c' !!! i = buf !!! i).
Proof.
  intros Hlen. destruct (for_fill len (fun i => i) v buf) as (Hl & Hw & Hu);
    [auto|lia|].
  split; [exact Hl|]. split; [exact Hw|].
  intros i Hi. apply Hu. intros r Hr. lia.
Qed.

Lemma memcpy_elements {T} `{!Inhabited T} (lay : layout T) (dst src : list T) (len : nat) :
  0 < sizeof lay ->
  memcpy lay dst src (len * sizeof lay) = for_ len (fun i dst => <[i := src !!! i]> dst) dst.
Proof. intros Hsz. unfold memcpy. rewrite Nat.div_mul by lia. reflexivity. Qed.

(** X3: in every build [utility_svvcopy] and [utility_cvvcopy] copy the
    first [len] elements of [a] into [c] and leave the rest of [c] as it
    was. *)
Theorem utility_vvcopy_spec (bld : build) (len : nat)
    (a c : list float) (ac cc : list float_complex) :
  len <= length c -> len <= length cc ->
  (length (utility_svvcopy bld a len c) = length c /\
   (forall i, i < len -> utility_svvcopy bld a len c !!! i = a !!! i) /\
   (forall i, len <= i -> utility_svvcopy bld a len c !!! i = c !!! i)) /\
  (length (utility_cvvcopy bld ac len cc) = length cc /\
   (forall i, i < len -> utility_cvvcopy bld ac len cc !!! i = ac !!! i) /\
   (forall i, len <= i -> utility_cvvcopy bld ac len cc !!! i = cc !!! i)).
Proof.
  intros Hc Hcc. split.
  - assert (Heq : utility_svvcopy bld a len c
                  = for_ len (fun i b => <[i := a !!! i]> b) c).
    { destruct bld; try reflexivity. apply memcpy_elements. simpl. lia. }
    rewrite Heq. apply (for_fill_front len (fun i => a !!! i) c Hc).
  - assert (Heq : utility_cvvcopy bld ac len cc
                  = for_ len (fun i b => <[i := ac !!! i]> b) cc).
    { destruct bld; try reflexivity. apply memcpy_elements. simpl. lia. }
    rewrite Heq. apply (for_fill_front len (fun i => ac !!! i) cc Hcc).
Qed.

Lemma utility_vvcopy_spec_witness :
  let a := [fZ 1; fZ 2] in
  let c := [fZ 7; fZ 8; fZ 9] in
  2 <= length c /\
  (forall i, i < 2 -> utility_svvcopy PLAIN a 2 c !!! i = a !!! i) /\
  (forall i, 2 <= i -> utility_svvcopy PLAIN a 2 c !!! i = c !!! i).
Proof.
  intros a c. split; [simpl; lia|].
  destruct (utility_vvcopy_spec PLAIN 2 a c [] (replicate 2 inhabitant)
              ltac:(simpl; lia) ltac:(simpl; lia)) as [(_ & H1 & H2) _].
  split; [exact H1|exact H2].
Defined.

(** X4: with an output buffer of at least [len] elements, in every build,
    [utility_svvmul] returns with [c[i] = a[i] * b[i]] for [i < len], and
    leaves [a] and the rest of [c] as they were. *)
Theorem utility_svvmul_spec (bld : build) (a b : list float) (len : nat)
    (buf : list float) :
  len <= length buf ->
  exists c' : list float,
    utility_svvmul bld a b len (Some buf) = Some (a, Some c') /\
    length c' = length buf /\
    (forall i, i < len -> c' !!! i = fmul binary32 (a !!! i) (b !!! i)) /\
    (forall i, len <= i -> c' !!! i = buf !!! i).
Proof.
  intros Hlen.
  exists (for_ len (fun i c => <[i := fmul binary32 (a !!! i) (b !!! i)]> c) buf).
  split.
  - destruct bld; [reflexivity|reflexivity|].
    apply (forM_store_buf a (fun a i => fmul binary32 (a !!! i) (b !!! i))).
  - apply (for_fill_front len (fun i => fmul binary32 (a !!! i) (b !!! i)) buf Hlen).
Qed.

Lemma utility_svvmul_spec_witness :
  2 <= length [fZ 7; fZ 8; fZ 9] /\
  exists c' : list float,
    utility_svvmul INTEL_MKL [fZ 1; fZ 2] [fZ 3; fZ 4] 2 (Some [fZ 7; fZ 8; fZ 9])
      = Some ([fZ 1; fZ 2], Some c') /\
    length c' = length [fZ 7; fZ 8; fZ 9] /\
    (forall i, i < 2 ->
       c' !!! i = fmul binary32 ([fZ 1; fZ 2] !!! i) ([fZ 3; fZ 4] !!! i)) /\
    (forall i, 2 <= i -> c' !!! i = [fZ 7; fZ 8; fZ 9] !!! i).
Proof.
  split; [simpl; lia|].
  apply (utility_svvmul_spec INTEL_MKL [fZ 1; fZ 2] [fZ 3; fZ 4] 2 [fZ 7; fZ 8; fZ 9]).
  simpl; lia.
Defined.

(** X5: [utility_svvmul] does not depend on the order of its two inputs:
    with the same output buffer, [(a, b)] and [(b, a)] leave the same [c],
    in every build. *)
Theorem utility_svvmul_comm (bld : build) (a b : list float) (len : nat)
    (buf : list float) :
  exists c' : list float,
    utility_svvmul bld a b len (Some buf) = Some (a, Some c') /\
    utility_svvmul bld b a len (Some buf) = Some (b, Some c').
Proof.
  exists (for_ len (fun i c => <[i := fmul binary32 (a !!! i) (b !!! i)]> c) buf).
  assert (Hswap : for_ len (fun i c => <[i := fmul binary32 (b !!! i) (a !!! i)]> c) buf
                  = for_ len (fun i c => <[i := fmul binary32 (a !!! i) (b !!! i)]> c) buf).
  { apply for_ext. intros i t _. rewrite fmul_comm. reflexivity. }
  split.
  - destruct bld; [reflexivity|reflexivity|].
    apply (forM_store_buf a (fun a i => fmul binary32 (a !!! i) (b !!! i))).
  - rewrite <- Hswap. destruct bld; [reflexivity|reflexivity|].
    apply (forM_store_buf b (fun b i => fmul binary32 (b !!! i) (a !!! i))).
Qed.

(** X6: with an output buffer of at least [len] elements, every build of
    [utility_svsmul] returns the same result: [c[i] = a[i] * s[0]] for
    [i < len], with [a] and the rest of [c] as they were. *)
Theorem utility_svsmul_spec (bld : build) (a : list float) (s : float) (len : nat)
    (buf : list float) :
  len <= length buf ->
  exists c' : list float,
    utility_svsmul bld a s len (Some buf) = Some (a, Some c') /\
    length c' = length buf /\
    (forall i, i < len -> c' !!! i = fmul binary32 (a !!! i) s) /\
    (forall i, len <= i -> c' !!! i = buf !!! i).
Proof.
  intros Hlen.
  pose proof (for_fill_front len (fun i => fmul binary32 (a !!! i) s) buf Hlen) as Hfill.
  destruct bld.
  - eexists. split; [reflexivity|]. exact Hfill.
  - (* memcpy, then cblas_sscal on the copy *)
    exists (cblas_scal binary32 len s (memcpy lay_float buf a (len * sizeof lay_float)) 0).
    split; [reflexivity|].
    rewrite memcpy_elements by (simpl; lia).
    destruct (for_fill_front len (fun i => a !!! i) buf Hlen) as (Hl1 & Hw1 & Hu1).
    set (c1 := for_ len (fun i dst => <[i := a !!! i]> dst) buf) in *.
    unfold cblas_scal.
    destruct (for_update len (fun r => 0 + r) (fun _ x => fmul binary32 s x) c1)
      as (Hl2 & Hw2 & Hu2); [intros; lia|intros; simpl; lia|].
    split; [congruence|]. split.
    + intros i Hi. pose proof (Hw2 i Hi) as Hi2. cbn [Nat.add] in Hi2.
      etransitivity; [exact Hi2|]. rewrite Hw1 by exact Hi. apply fmul_comm.
    + intros i Hi. pose proof (Hu2 i) as Hi2. cbn [Nat.add] in Hi2.
      etransitivity; [apply Hi2; intros r Hr; lia|]. apply Hu1. exact Hi.
  - eexists. split.
    + apply (forM_store_buf a (fun a i => fmul binary32 (a !!! i) s)).
    + exact Hfill.
Qed.

Lemma utility_svsmul_spec_witness :
  2 <= length [fZ 7; fZ 8; fZ 9] /\
  exists c' : list float,
    utility_svsmul INTEL_MKL [fZ 1; fZ 2] (fZ 3) 2 (Some [fZ 7; fZ 8; fZ 9])
      = Some ([fZ 1; fZ 2], Some c') /\
    length c' = length [fZ 7; fZ 8; fZ 9] /\
    (forall i, i < 2 -> c' !!! i = fmul binary32 ([fZ 1; fZ 2] !!! i) (fZ 3)) /\
    (forall i, 2 <= i -> c' !!! i = [fZ 7; fZ 8; fZ 9] !!! i).
Proof.
  split; [simpl; lia|].
  apply (utility_svsmul_spec INTEL_MKL [fZ 1; fZ 2] (fZ 3) 2 [fZ 7; fZ 8; fZ 9]).
  simpl; lia.
Defined.

(** X7: with [c == NULL], [utility_svvmul] in the Accelerate build and
    [utility_svsmul] in the Accelerate and MKL builds work in place: the
    call returns, [a[i]] is the product for [i < len], and the rest of [a]
    is as it was. *)
Theorem vector_primitives_in_place (bld : build) (a b : list float) (s : float)
    (len : nat) :
  len <= length a ->
  (exists a' : list float,
     utility_svvmul ACCELERATE a b len NULL = Some (a', NULL) /\
     length a' = length a /\
     (forall i, i < len -> a' !!! i = fmul binary32 (a !!! i) (b !!! i)) /\
     (forall i, len <= i -> a' !!! i = a !!! i)) /\
  (bld <> PLAIN ->
   exists a' : list float,
     utility_svsmul bld a s len NULL = Some (a', NULL) /\
     length a' = length a /\
     (forall i, i < len -> a' !!! i = fmul binary32 (a !!! i) s) /\
     (forall i, len <= i -> a' !!! i = a !!! i)).
Proof.
  intros Hlen. split.
  - apply utility_svvmul_accelerate_in_place. exact Hlen.
  - intros Hb.
    destruct (utility_svsmul_backend_in_place bld a s len Hb Hlen)
      as (a' & Hrun & Hl & Hw & Hu).
    exists a'. split; [exact Hrun|]. split; [exact Hl|]. split; [|exact Hu].
    intros i Hi. rewrite Hw by exact Hi. apply fmul_comm.
Qed.

Lemma vector_primitives_in_place_witness :
  2 <= length [fZ 1; fZ 2; fZ 5] /\
  exists a' : list float,
    utility_svvmul ACCELERATE [fZ 1; fZ 2; fZ 5] [fZ 3; fZ 4] 2 NULL = Some (a', NULL) /\
    (forall i, i < 2 ->
       a' !!! i = fmul binary32 ([fZ 1; fZ 2; fZ 5] !!! i) ([fZ 3; fZ 4] !!! i)) /\
    (forall i, 2 <= i -> a' !!! i = [fZ 1; fZ 2; fZ 5] !!! i).
Proof.
  split; [simpl; lia|].
  destruct (vector_primitives_in_place ACCELERATE [fZ 1; fZ 2; fZ 5] [fZ 3; fZ 4]
              (fZ 3) 2 ltac:(simpl; lia)) as [(a' & Hrun & _ & Hw & Hu) _].
  exists a'. split; [exact Hrun|]. split; [exact Hw|exact Hu].
Defined.

(** X8: with an output buffer of at least [len] elements, [utility_svsadd]
    (in every build) and [utility_svssub] return with [c[i] = a[i] + s[0]],
    respectively [a[i] - s[0]], for [i < len]; [a] and the rest of [c] are
    as they were. *)
Theorem utility_svsadd_svssub_spec (bld : build) (a : list float) (s : float)
    (len : nat) (buf : list float) :
  len <= length buf ->
  (exists c' : list float,
     utility_svsadd bld a s len (Some buf) = Some (a, Some c') /\
     length c' = length buf /\
     (forall i, i < len -> c' !!! i = fadd binary32 (a !!! i) s) /\
     (forall i, len <= i -> c' !!! i = buf !!! i)) /\
  (exists c' : list float,
     utility_svssub a s len (Some buf) = Some (a, Some c') /\
     length c' = length buf /\
     (forall i, i < len -> c' !!! i = fsub binary32 (a !!! i) s) /\
     (forall i, len <= i -> c' !!! i = buf !!! i)).
Proof.
  intros Hlen. split.
  - eexists. split.
    + destruct bld; [reflexivity|..];
        apply (forM_store_buf a (fun a i => fadd binary32 (a !!! i) s)).
    + apply (for_fill_front len (fun i => fadd binary32 (a !!! i) s) buf Hlen).
  - eexists. split.
    + apply (forM_store_buf a (fun a i => fsub binary32 (a !!! i) s)).
    + apply (for_fill_front len (fun i => fsub binary32 (a !!! i) s) buf Hlen).
Qed.

Lemma utility_svsadd_svssub_spec_witness :
  2 <= length [fZ 7; fZ 8; fZ 9] /\
  (exists c' : list float,
     utility_svsadd PLAIN [fZ 1; fZ 2] (fZ 3) 2 (Some [fZ 7; fZ 8; fZ 9])
       = Some ([fZ 1; fZ 2], Some c') /\
     (forall i, i < 2 -> c' !!! i = fadd binary32 ([fZ 1; fZ 2] !!! i) (fZ 3))) /\
  (exists c' : list float,
     utility_svssub [fZ 1; fZ 2] (fZ 3) 2 (Some [fZ 7; fZ 8; fZ 9])
       = Some ([fZ 1; fZ 2], Some c') /\
     (forall i, i < 2 -> c' !!! i = fsub binary32 ([fZ 1; fZ 2] !!! i) (fZ 3))).
Proof.
  split; [simpl; lia|].
  destruct (utility_svsadd_svssub_spec PLAIN [fZ 1; fZ 2] (fZ 3) 2 [fZ 7; fZ 8; fZ 9]
              ltac:(simpl; lia))
    as [(c1 & Hr1 & _ & Hw1 & _) (c2 & Hr2 & _ & Hw2 & _)].
  split; [exists c1|exists c2]; split; assumption.
Defined.

(** X9: [utility_svsdiv], [utility_svsadd] and [utility_svssub] have no
    in-place mode: with [c == NULL] and a positive length they store through
    the null pointer in every build (for [utility_svsdiv] also when
    [s[0] == 0.0f], in the [memset]). *)
Theorem vector_primitives_no_in_place (bld : build) (a : list float) (s : float)
    (len : nat) :
  0 < len ->
  utility_svsdiv bld a s len NULL = None /\
  utility_svsadd bld a s len NULL = None /\
  utility_svssub a s len NULL = None.
Proof.
  intros Hlen. split; [|split].
  - unfold utility_svsdiv. destruct (feq s f0_0); [reflexivity|].
    destruct bld; [reflexivity|..];
      apply (forM_store_nullptr a (fun a i => fdiv binary32 (a !!! i) s) len Hlen).
  - destruct bld; [reflexivity|..];
      apply (forM_store_nullptr a (fun a i => fadd binary32 (a !!! i) s) len Hlen).
  - apply (forM_store_nullptr a (fun a i => fsub binary32 (a !!! i) s) len Hlen).
Qed.

Lemma vector_primitives_no_in_place_witness :
  0 < 2 /\
  utility_svsdiv PLAIN [fZ 1; fZ 2] (fZ 4) 2 NULL = None /\
  utility_svsadd ACCELERATE [fZ 1; fZ 2] (fZ 4) 2 NULL = None /\
  utility_svssub [fZ 1; fZ 2] (fZ 4) 2 NULL = None.
Proof.
  split; [lia|].
  destruct (vector_primitives_no_in_place PLAIN [fZ 1; fZ 2] (fZ 4) 2 ltac:(lia))
    as (H1 & _ & H3).
  destruct (vector_primitives_no_in_place ACCELERATE [fZ 1; fZ 2] (fZ 4) 2 ltac:(lia))
    as (_ & H2 & _).
  split; [exact H1|]. split; [exact H2|exact H3].
Defined.

(** ** Dot products *)


(** The two factors of a multiply-add can be exchanged, contracted or not. *)
Lemma mul_add_comm (fc : fp_contract) (fm : format) (z x y : float) :
  mul_add fc fm z x y = mul_add fc fm z y x.
Proof.
  destruct fc; unfold mul_add.
  - rewrite (fmul_comm fm x y). reflexivity.
  - unfold fma.
    destruct x as [sx|sx| |sx mx ex], y as [sy|sy| |sy my ey];
      try (f_equal; apply fmul_comm).
    destruct z as [sz|sz| |sz mz ez]; try reflexivity; [apply fmul_comm|].
    rewrite (xorb_comm sx sy), (Pos.mul_comm mx my), (Z.add_comm ex ey). reflexivity.
Qed.



(** The dot product of (1, 2) and (3, 4) is 11, contracted or not. *)
Example utility_svvdot_example (fc : fp_contract) :
  utility_svvdot (sdot_ref fc) PLAIN fc [fZ 1; fZ 2] [fZ 3; fZ 4] 2 [fZ 9; fZ 8]
  = [fZ 11; fZ 8].
Proof. destruct fc; reflexivity. Qed.

(** The two evaluations differ where the product is not exact: with
    [x = 1 + 2^-12], whose square [1 + 2^-11 + 2^-24] rounds to [1 + 2^-11],
    the dot product of [(1 + 2^-11, x)] and [(-1, x)] is [+0] when the
    product is rounded first and [2^-24] when it is fused. *)
Example utility_svvdot_contraction :
  let x := S754_finite false 4097 (-12) in
  let r := S754_finite false 2049 (-11) in
  utility_svvdot (sdot_ref FP_CONTRACT_OFF) PLAIN FP_CONTRACT_OFF
    [r; x] [SFopp (fZ 1); x] 2 [fZ 9] = [fzero] /\
  utility_svvdot (sdot_ref FP_CONTRACT_ON) PLAIN FP_CONTRACT_ON
    [r; x] [SFopp (fZ 1); x] 2 [fZ 9] = [S754_finite false 8388608 (-47)].
Proof. split; reflexivity. Qed.

(** X11: without a backend the dot product does not depend on the order of
    its two inputs: [utility_svvdot(a, b)] and [utility_svvdot(b, a)] leave
    the same [c]. *)
Theorem utility_svvdot_comm (cblas_sdot : nat -> list float -> list float -> float)
    (fc : fp_contract) (a b : list float) (len : nat) (c : list float) :
  utility_svvdot cblas_sdot PLAIN fc a b len c = utility_svvdot cblas_sdot PLAIN fc b a len c.
Proof.
  unfold utility_svvdot. apply for_ext. intros i t _.
  rewrite (mul_add_comm fc binary32 (t !!! 0) (a !!! i) (b !!! i)). reflexivity.
Qed.

(** X12: without a backend, [utility_cvvdot] with the flag [CONJ] is
    [utility_cvvdot] with any other flag on the conjugated first input, for
    [a] of at least [len] elements. *)
Theorem utility_cvvdot_conj
    (ccaddf ccmulf : float_complex -> float_complex -> float_complex)
    (conjf : float_complex -> float_complex) (CONJ : Z)
    (cdotu cdotc : nat -> list float_complex -> list float_complex -> float_complex)
    (a b : list float_complex) (len : nat) (flag : Z) (c : list float_complex) :
  len <= length a -> flag <> CONJ ->
  utility_cvvdot ccaddf ccmulf conjf CONJ cdotu cdotc PLAIN a b len CONJ c
  = utility_cvvdot ccaddf ccmulf conjf CONJ cdotu cdotc PLAIN (conjf <$> a) b len flag c.
Proof.
  intros Hlen Hflag. unfold utility_cvvdot.
  rewrite Z.eqb_refl. destruct (Z.eqb_spec flag CONJ) as [|_]; [contradiction|].
  apply for_ext. intros i t Hi.
  rewrite (list_lookup_total_fmap conjf a i) by lia. reflexivity.
Qed.

Lemma utility_cvvdot_conj_witness :
  let a := [cmplxf (fZ 1) (fZ 2)] in
  let b := [cmplxf (fZ 3) (fZ 4)] in
  let c := [cmplxf (fZ 9) (fZ 9)] in
  1 <= length a /\ 1%Z <> 2%Z /\
  utility_cvvdot ccaddf_ref ccmulf_ref conjf_ref 2 (fun _ _ _ => inhabitant)
    (fun _ _ _ => inhabitant) PLAIN a b 1 2 c
  = utility_cvvdot ccaddf_ref ccmulf_ref conjf_ref 2 (fun _ _ _ => inhabitant)
      (fun _ _ _ => inhabitant) PLAIN (conjf_ref <$> a) b 1 1 c.
Proof.
  intros a b c. split; [simpl; lia|]. split; [lia|].
  apply (utility_cvvdot_conj ccaddf_ref ccmulf_ref conjf_ref 2); [simpl; lia|lia].
Defined.

(** (1 - 2i)(3 + 4i) = 11 - 2i. *)
Example utility_cvvdot_example :
  utility_cvvdot ccaddf_ref ccmulf_ref conjf_ref 2 (fun _ _ _ => inhabitant)
    (fun _ _ _ => inhabitant) PLAIN [cmplxf (fZ 1) (fZ 2)] [cmplxf (fZ 3) (fZ 4)] 1 2
    [cmplxf (fZ 9) (fZ 9)]
  = [cmplxf (fZ 11) (fZ (-2))].
Proof. reflexivity. Qed.

(** X13: [utility_cvsmul] with an output buffer of at least [len] elements
    returns, in every build, with [c[i] = ccmulf(a[i], s[0])] for [i < len]
    and [a] and the rest of [c] as they were; with [c == NULL] it hands [a]
    to [cblas_cscal] in the builds with a backend and stores through the
    null pointer in the build without. *)
Theorem utility_cvsmul_spec
    (ccmulf : float_complex -> float_complex -> float_complex)
    (cscal : nat -> float_complex -> list float_complex -> list float_complex)
    (bld : build) (a : list float_complex) (s : float_complex) (len : nat)
    (buf : list float_complex) :
  len <= length buf -> 0 < len ->
  (exists c' : list float_complex,
     utility_cvsmul ccmulf cscal bld a s len (Some buf) = Some (a, Some c') /\
     length c' = length buf /\
     (forall i, i < len -> c' !!! i = ccmulf (a !!! i) s) /\
     (forall i, len <= i -> c' !!! i = buf !!! i)) /\
  (bld <> PLAIN ->
   utility_cvsmul ccmulf cscal bld a s len NULL = Some (cscal len s a, NULL)) /\
  utility_cvsmul ccmulf cscal PLAIN a s len NULL = None.
Proof.
  intros Hlen Hpos. split; [|split].
  - eexists. split.
    + destruct bld; apply (forM_store_buf a (fun a i => ccmulf (a !!! i) s)).
    + apply (for_fill_front len (fun i => ccmulf (a !!! i) s) buf Hlen).
  - intros Hb. destruct bld; [reflexivity|reflexivity|congruence].
  - apply (forM_store_nullptr a (fun a i => ccmulf (a !!! i) s) len Hpos).
Qed.

Lemma utility_cvsmul_spec_witness :
  let a := [cmplxf (fZ 1) (fZ 2)] in
  let s := cmplxf (fZ 3) (fZ 4) in
  let buf := [cmplxf (fZ 9) (fZ 9); cmplxf (fZ 8) (fZ 8)] in
  1 <= length buf /\ 0 < 1 /\
  (exists c' : list float_complex,
     utility_cvsmul ccmulf_ref (fun _ _ x => x) PLAIN a s 1 (Some buf)
       = Some (a, Some c') /\
     (forall i, i < 1 -> c' !!! i = ccmulf_ref (a !!! i) s)) /\
  utility_cvsmul ccmulf_ref (fun _ _ x => x) PLAIN a s 1 NULL = None.
Proof.
  intros a s buf. split; [simpl; lia|]. split; [lia|].
  destruct (utility_cvsmul_spec ccmulf_ref (fun _ _ x => x) PLAIN a s 1 buf
              ltac:(simpl; lia) ltac:(lia))
    as ((c' & Hrun & _ & Hw & _) & _ & Hnull).
  split; [exists c'; split; assumption|exact Hnull].
Defined.

(** ** The linear solvers *)

Section Lslv.
Context {T : Type} `{!Inhabited T}.
Variables (lay : layout T) (kernel : solve_t T).
Variables (A : list T) (dim : nat) (B : list T) (nCol : nat) (X : list T).

Let r := kernel dim nCol (lslv_a A dim) dim (lslv_b B dim nCol) dim.

(** The copies handed to the kernel are the column-major transposes. *)
Lemma lslv_a_spec :
  length (lslv_a A dim) = dim * dim /\
  forall i j, i < dim -> j < dim -> lslv_a A dim !!! (j * dim + i) = A !!! (i * dim + j).
Proof.
  unfold lslv_a.
  destruct (for2_fill dim dim (fun i j => j * dim + i) (fun i j => A !!! (i * dim + j))
              (malloc_buf (dim * dim))) as (Hl & Hw & _).
  - intros i j i' j' Hi _ Hi' _ Heq.
    destruct (index_inj dim j i j' i' Hi Hi' Heq). auto.
  - intros i j Hi Hj. unfold malloc_buf. rewrite length_replicate.
    apply index_lt; assumption.
  - split; [rewrite Hl; apply length_replicate|exact Hw].
Qed.

Lemma lslv_b_spec :
  length (lslv_b B dim nCol) = dim * nCol /\
  forall i j, i < dim -> j < nCol ->
    lslv_b B dim nCol !!! (j * dim + i) = B !!! (i * nCol + j).
Proof.
  unfold lslv_b.
  destruct (for2_fill dim nCol (fun i j => j * dim + i) (fun i j => B !!! (i * nCol + j))
              (malloc_buf (dim * nCol))) as (Hl & Hw & _).
  - intros i j i' j' Hi _ Hi' _ Heq.
    destruct (index_inj dim j i j' i' Hi Hi' Heq). auto.
  - intros i j Hi Hj. unfold malloc_buf. rewrite length_replicate.
    rewrite (Nat.mul_comm dim nCol). apply index_lt; assumption.
  - split; [rewrite Hl; apply length_replicate|exact Hw].
Qed.

Lemma lslv_failure :
  (0 < solve_info r)%Z ->
  lslv lay kernel A dim B nCol X = memset lay X 0 (dim * nCol * sizeof lay).
Proof.
  intros Hinfo. unfold lslv. fold r.
  destruct (Z.ltb_spec 0 (solve_info r)); [reflexivity|lia].
Qed.

Lemma lslv_success :
  (solve_info r <= 0)%Z -> length X = dim * nCol ->
  length (lslv lay kernel A dim B nCol X) = dim * nCol /\
  forall i j, i < dim -> j < nCol ->
    lslv lay kernel A dim B nCol X !!! (i * nCol + j) = solve_b r !!! (j * dim + i).
Proof.
  intros Hinfo HX. unfold lslv. fold r.
  destruct (Z.ltb_spec 0 (solve_info r)); [lia|].
  destruct (for2_fill dim nCol (fun i j => i * nCol + j)
              (fun i j => solve_b r !!! (j * dim + i)) X) as (Hl & Hw & _).
  - intros i j i' j' _ Hj _ Hj' Heq. exact (index_inj nCol i j i' j' Hj Hj' Heq).
  - intros i j Hi Hj. rewrite HX. apply index_lt; assumption.
  - split; [congruence|exact Hw].
Qed.
End Lslv.

(** X14: when the kernel reports [info > 0], each of the four solvers
    leaves [+0] (respectively [0 + 0i]) in all [dim*nCol] elements of [X]. *)
Theorem solvers_failure_zero_fill (sgesv sposv : solve_t float)
    (cgesv cposv : solve_t float_complex)
    (A B X : list float) (Ac Bc Xc : list float_complex) (dim nCol : nat) :
  length X = dim * nCol -> length Xc = dim * nCol ->
  ((0 < solve_info (sgesv dim nCol (lslv_a A dim) dim (lslv_b B dim nCol) dim))%Z ->
     forall k, k < dim * nCol -> utility_sglslv sgesv A dim B nCol X !!! k = fzero) /\
  ((0 < solve_info (sposv dim nCol (lslv_a A dim) dim (lslv_b B dim nCol) dim))%Z ->
     forall k, k < dim * nCol -> utility_sslslv sposv A dim B nCol X !!! k = fzero) /\
  ((0 < solve_info (cgesv dim nCol (lslv_a Ac dim) dim (lslv_b Bc dim nCol) dim))%Z ->
     forall k, k < dim * nCol ->
       utility_cglslv cgesv Ac dim Bc nCol Xc !!! k = cmplxf fzero fzero) /\
  ((0 < solve_info (cposv dim nCol (lslv_a Ac dim) dim (lslv_b Bc dim nCol) dim))%Z ->
     forall k, k < dim * nCol ->
       utility_cslslv cposv Ac dim Bc nCol Xc !!! k = cmplxf fzero fzero).
Proof.
  intros HX HXc.
  split; [|split; [|split]]; intros Hinfo k Hk.
  - unfold utility_sglslv. rewrite lslv_failure by exact Hinfo.
    apply memset_float_zero; lia.
  - unfold utility_sslslv. rewrite lslv_failure by exact Hinfo.
    apply memset_float_zero; lia.
  - unfold utility_cglslv. rewrite lslv_failure by exact Hinfo.
    apply memset_float_complex_zero; lia.
  - unfold utility_cslslv. rewrite lslv_failure by exact Hinfo.
    apply memset_float_complex_zero; lia.
Qed.

Lemma solvers_failure_zero_fill_witness :
  let A := [fZ 0; fZ 0; fZ 0; fZ 0] in
  let B := [fZ 1; fZ 2] in
  let X := [fZ 7; fZ 7] in
  let Xc := replicate 2 (cmplxf (fZ 7) (fZ 7)) in
  length X = 2 * 1 /\ length Xc = 2 * 1 /\
  (forall k, k < 2 * 1 -> utility_sglslv solve_singular A 2 B 1 X !!! k = fzero) /\
  (forall k, k < 2 * 1 ->
     utility_cslslv solve_singular [] 2 [] 1 Xc !!! k = cmplxf fzero fzero).
Proof.
  intros A B X Xc. split; [reflexivity|]. split; [reflexivity|].
  destruct (solvers_failure_zero_fill solve_singular solve_singular solve_singular
              solve_singular A B X [] [] Xc 2 1 eq_refl eq_refl)
    as (Hs & _ & _ & Hc).
  split; [apply Hs; reflexivity|apply Hc; reflexivity].
Defined.

(** X15: each solver hands the kernel the column-major transposes of [A]
    and [B] ([a[j*dim+i] = A[i*dim+j]], [b[j*dim+i] = B[i*nCol+j]]) and, when
    the kernel returns [info <= 0], leaves in [X] the row-major transpose of
    what the kernel left in [b]: [X[i*nCol+j] = b[j*dim+i]]. *)
Theorem solvers_success_transpose (sgesv sposv : solve_t float)
    (cgesv cposv : solve_t float_complex)
    (A B X : list float) (Ac Bc Xc : list float_complex) (dim nCol : nat) :
  length X = dim * nCol -> length Xc = dim * nCol ->
  (forall i j, i < dim -> j < dim ->
     lslv_a A dim !!! (j * dim + i) = A !!! (i * dim + j) /\
     lslv_a Ac dim !!! (j * dim + i) = Ac !!! (i * dim + j)) /\
  (forall i j, i < dim -> j < nCol ->
     lslv_b B dim nCol !!! (j * dim + i) = B !!! (i * nCol + j) /\
     lslv_b Bc dim nCol !!! (j * dim + i) = Bc !!! (i * nCol + j)) /\
  (let r := sgesv dim nCol (lslv_a A dim) dim (lslv_b B dim nCol) dim in
   (solve_info r <= 0)%Z -> forall i j, i < dim -> j < nCol ->
     utility_sglslv sgesv A dim B nCol X !!! (i * nCol + j) = solve_b r !!! (j * dim + i)) /\
  (let r := sposv dim nCol (lslv_a A dim) dim (lslv_b B dim nCol) dim in
   (solve_info r <= 0)%Z -> forall i j, i < dim -> j < nCol ->
     utility_sslslv sposv A dim B nCol X !!! (i * nCol + j) = solve_b r !!! (j * dim + i)) /\
  (let r := cgesv dim nCol (lslv_a Ac dim) dim (lslv_b Bc dim nCol) dim in
   (solve_info r <= 0)%Z -> forall i j, i < dim -> j < nCol ->
     utility_cglslv cgesv Ac dim Bc nCol Xc !!! (i * nCol + j)
     = solve_b r !!! (j * dim + i)) /\
  (let r := cposv dim nCol (lslv_a Ac dim) dim (lslv_b Bc dim nCol) dim in
   (solve_info r <= 0)%Z -> forall i j, i < dim -> j < nCol ->
     utility_cslslv cposv Ac dim Bc nCol Xc !!! (i * nCol + j)
     = solve_b r !!! (j * dim + i)).
Proof.
  intros HX HXc.
  split; [intros i j Hi Hj; split; apply lslv_a_spec; assumption|].
  split; [intros i j Hi Hj; split; apply lslv_b_spec; assumption|].
  split; [|split; [|split]]; intros r Hinfo.
  - apply (lslv_success lay_float sgesv A dim B nCol X Hinfo HX).
  - apply (lslv_success lay_float sposv A dim B nCol X Hinfo HX).
  - apply (lslv_success lay_float_complex cgesv Ac dim Bc nCol Xc Hinfo HXc).
  - apply (lslv_success lay_float_complex cposv Ac dim Bc nCol Xc Hinfo HXc).
Qed.

Lemma solvers_success_transpose_witness :
  let A := [fZ 1; fZ 0; fZ 0; fZ 1] in
  let B := [fZ 1; fZ 2; fZ 3; fZ 4; fZ 5; fZ 6] in
  let X := replicate 6 (fZ 7) in
  let r := @solve_identity float 2 3 (lslv_a A 2) 2 (lslv_b B 2 3) 2 in
  length X = 2 * 3 /\ (solve_info r <= 0)%Z /\
  forall i j, i < 2 -> j < 3 ->
    utility_sglslv solve_identity A 2 B 3 X !!! (i * 3 + j) = solve_b r !!! (j * 2 + i).
Proof.
  intros A B X r. split; [reflexivity|]. split; [vm_compute; discriminate|].
  destruct (solvers_success_transpose solve_identity solve_identity solve_identity
              solve_identity A B X [] [] (replicate 6 inhabitant) 2 3 eq_refl eq_refl)
    as (_ & _ & Hs & _).
  apply Hs. vm_compute; discriminate.
Defined.

(** X16: the two transpositions cancel: when the kernel returns [info <= 0]
    and leaves [b] as it received it (the answer for the identity matrix),
    a solver copies [B] into [X]. *)
Theorem solvers_round_trip {T : Type} `{!Inhabited T} (lay : layout T)
    (kernel : solve_t T) (A : list T) (dim : nat) (B : list T) (nCol : nat)
    (X : list T) :
  length X = dim * nCol ->
  let r := kernel dim nCol (lslv_a A dim) dim (lslv_b B dim nCol) dim in
  (solve_info r <= 0)%Z -> solve_b r = lslv_b B dim nCol ->
  forall i j, i < dim -> j < nCol ->
    lslv lay kernel A dim B nCol X !!! (i * nCol + j) = B !!! (i * nCol + j).
Proof.
  intros HX r Hinfo Hb i j Hi Hj.
  destruct (lslv_success lay kernel A dim B nCol X Hinfo HX) as [_ Hw].
  rewrite Hw by assumption. fold r. rewrite Hb.
  apply lslv_b_spec; assumption.
Qed.

Lemma solvers_round_trip_witness :
  let A := [fZ 1; fZ 0; fZ 0; fZ 1] in
  let B := [fZ 1; fZ 2; fZ 3; fZ 4; fZ 5; fZ 6] in
  let X := replicate 6 (fZ 7) in
  let r := @solve_identity float 2 3 (lslv_a A 2) 2 (lslv_b B 2 3) 2 in
  length X = 2 * 3 /\ (solve_info r <= 0)%Z /\ solve_b r = lslv_b B 2 3 /\
  forall i j, i < 2 -> j < 3 ->
    utility_sglslv solve_identity A 2 B 3 X !!! (i * 3 + j) = B !!! (i * 3 + j).
Proof.
  intros A B X r. split; [reflexivity|]. split; [vm_compute; discriminate|].
  split; [reflexivity|].
  apply (solvers_round_trip lay_float solve_identity A 2 B 3 X eq_refl);
    [vm_compute; discriminate|reflexivity].
Defined.

(** With the identity kernel, [X] is [B]. *)
Example utility_sglslv_example :
  utility_sglslv solve_identity [fZ 1; fZ 0; fZ 0; fZ 1] 2
    [fZ 1; fZ 2; fZ 3; fZ 4; fZ 5; fZ 6] 3 (replicate 6 (fZ 7))
  = [fZ 1; fZ 2; fZ 3; fZ 4; fZ 5; fZ 6].
Proof. reflexivity. Qed.

(** ** Eigendecompositions: failure, and the pairing of values and vectors *)

(** X17: when [ssyev] reports [info > 0], [utility_sseig] leaves [+0] in
    every element of the [dim*dim] buffers [V] and [D], for either value of
    the sort flag. *)
Theorem utility_sseig_failure (ssyev : syev_t) (A : list float) (dim : nat)
    (sortDecFLAG : Z) (V D : list float) :
  length V = dim * dim -> length D = dim * dim ->
  (0 < syev_info (sseig_solve ssyev A dim))%Z ->
  forall k, k < dim * dim ->
    (utility_sseig ssyev A dim sortDecFLAG V D).1 !!! k = fzero /\
    (utility_sseig ssyev A dim sortDecFLAG V D).2 !!! k = fzero.
Proof.
  intros HV HD Hinfo k Hk. unfold utility_sseig.
  destruct (Z.ltb_spec 0 (syev_info (sseig_solve ssyev A dim))); [|lia].
  simpl. split; apply memset_float_zero; lia.
Qed.

Lemma utility_sseig_failure_witness :
  let ssyev : syev_t := fun _ a _ _ => Syev_out 1 a [] fzero in
  let V := replicate 4 (fZ 7) in
  length V = 2 * 2 /\ (0 < syev_info (sseig_solve ssyev [] 2))%Z /\
  forall k, k < 2 * 2 ->
    (utility_sseig ssyev [] 2 1 V V).1 !!! k = fzero /\
    (utility_sseig ssyev [] 2 1 V V).2 !!! k = fzero.
Proof.
  intros ssyev V. split; [reflexivity|]. split; [reflexivity|].
  apply (utility_sseig_failure ssyev [] 2 1 V V eq_refl eq_refl). reflexivity.
Defined.

(** X18: when [cgeev] reports [info > 0], [utility_ceig] returns and every
    output buffer that is not null (of [dim*dim] elements) holds [0 + 0i]
    in every element. *)
Theorem utility_ceig_failure (cgeev : geev_t)
    (qsort : (sort_float -> sort_float -> Z) -> list sort_float -> list sort_float)
    (A : list float_complex) (dim : nat) (sortDecFLAG : Z)
    (VL VR D : ptr float_complex) :
  (0 < geev_info (ceig_solve cgeev A dim))%Z ->
  exists VL' VR' D' : ptr float_complex,
    utility_ceig cgeev qsort A dim sortDecFLAG VL VR D = Some (VL', VR', D') /\
    (forall b, VL = Some b -> length b = dim * dim ->
       exists b', VL' = Some b' /\ length b' = dim * dim /\
         forall k, k < dim * dim -> b' !!! k = cmplxf fzero fzero) /\
    (forall b, VR = Some b -> length b = dim * dim ->
       exists b', VR' = Some b' /\ length b' = dim * dim /\
         forall k, k < dim * dim -> b' !!! k = cmplxf fzero fzero) /\
    (forall b, D = Some b -> length b = dim * dim ->
       exists b', D' = Some b' /\ length b' = dim * dim /\
         forall k, k < dim * dim -> b' !!! k = cmplxf fzero fzero).
Proof.
  intros Hinfo. rewrite utility_ceig_run.
  destruct (Z.ltb_spec 0 (geev_info (ceig_solve cgeev A dim))); [|lia].
  assert (Hclear : forall (p : ptr float_complex) b,
            p = Some b -> length b = dim * dim ->
            exists b', ceig_clear dim <$> p = Some b' /\ length b' = dim * dim /\
              forall k, k < dim * dim -> b' !!! k = cmplxf fzero fzero).
  { intros p b -> Hb. exists (ceig_clear dim b). split; [reflexivity|].
    split; [unfold ceig_clear; rewrite length_memset; exact Hb|].
    intros k Hk. apply ceig_clear_zero; assumption. }
  eexists _, _, _. split; [reflexivity|].
  split; [apply Hclear|]. split; apply Hclear.
Qed.

Lemma utility_ceig_failure_witness :
  let b := replicate 4 (cmplxf (fZ 9) (fZ 9)) in
  (0 < geev_info (ceig_solve (cgeev_diag 1) [] 2))%Z /\ length b = 2 * 2 /\
  exists VL' VR' D' : ptr float_complex,
    utility_ceig (cgeev_diag 1) isort [] 2 0 (Some b) NULL (Some b) = Some (VL', VR', D') /\
    exists b', VL' = Some b' /\ length b' = 2 * 2 /\
      forall k, k < 2 * 2 -> b' !!! k = cmplxf fzero fzero.
Proof.
  intros b. split; [reflexivity|]. split; [reflexivity|].
  destruct (utility_ceig_failure (cgeev_diag 1) isort [] 2 0 (Some b) NULL (Some b)
              eq_refl) as (VL' & VR' & D' & Hrun & HL & _).
  exists VL', VR', D'. split; [exact Hrun|]. apply (HL b eq_refl eq_refl).
Defined.

(** [ceig_sort] in terms of the records [qsort] returns. *)
Lemma ceig_sort_unfold
    (qsort : (sort_float -> sort_float -> Z) -> list sort_float -> list sort_float)
    (w : list float_complex) (dim : nat) (sortDecFLAG : Z) :
  let re := (fun i => crealf (w !!! i)) <$> seq 0 dim in
  let data := sortf_sorted qsort re dim sortDecFLAG in
  ceig_sort qsort w dim sortDecFLAG
  = (for_ dim (fun i (b : list float) => <[i := val (data !!! i)]> b) re,
     for_ dim (fun i (b : list nat) => <[i := idx (data !!! i)]> b) (malloc_buf dim)).
Proof.
  intros re data. unfold ceig_sort.
  rewrite (for_fill_all dim (fun i => crealf (w !!! i))) by apply length_replicate.
  fold re. rewrite sortf_unfold. reflexivity.
Qed.

(** X19: for a [qsort] that meets its contract and backend eigenvalues whose
    real parts are not NaN, on success the outputs of [utility_ceig] are
    paired: there is a permutation [sort_idx] of [0..dim-1] such that column
    [j] of [VL] and of [VR] is the backend's eigenvector [sort_idx[j]] and
    [D[j][j]] is the real part of the backend's eigenvalue [sort_idx[j]]. *)
Theorem utility_ceig_pairing (cgeev : geev_t)
    (qsort : (sort_float -> sort_float -> Z) -> list sort_float -> list sort_float)
    (A : list float_complex) (dim : nat) (sortDecFLAG : Z)
    (vl vr d : list float_complex) :
  qsort_contract qsort ->
  length vl = dim * dim -> length vr = dim * dim -> length d = dim * dim ->
  let r := ceig_solve cgeev A dim in
  (geev_info r <= 0)%Z ->
  (forall i, i < dim -> is_nan (crealf (geev_w r !!! i)) = false) ->
  exists (sort_idx : list nat) (vl' vr' d' : list float_complex),
    utility_ceig cgeev qsort A dim sortDecFLAG (Some vl) (Some vr) (Some d)
      = Some (Some vl', Some vr', Some d') /\
    take dim sort_idx ≡ₚ seq 0 dim /\
    (forall j, j < dim -> sort_idx !!! j < dim) /\
    (forall i j, i < dim -> j < dim ->
       vl' !!! (i * dim + j) = geev_vl r !!! ((sort_idx !!! j) * dim + i) /\
       vr' !!! (i * dim + j) = geev_vr r !!! ((sort_idx !!! j) * dim + i)) /\
    (forall j, j < dim ->
       d' !!! (j * dim + j) = cmplxf (crealf (geev_w r !!! (sort_idx !!! j))) fzero).
Proof.
  intros Hq Hvl Hvr Hd r Hinfo Hnan.
  rewrite utility_ceig_run. fold r.
  destruct (Z.ltb_spec 0 (geev_info r)) as [Hlt|_]; [lia|].
  rewrite ceig_sort_unfold. cbv zeta. simpl.
  set (re := (fun i => crealf (geev_w r !!! i)) <$> seq 0 dim).
  set (data := sortf_sorted qsort re dim sortDecFLAG).
  assert (Hre : length re = dim) by (unfold re; rewrite length_fmap; apply length_seq).
  assert (Hrei : forall i, i < dim -> re !!! i = crealf (geev_w r !!! i)).
  { intros i Hi. unfold re.
    rewrite (list_lookup_total_alt _ i), list_lookup_fmap, lookup_seq_lt by exact Hi.
    reflexivity. }
  assert (Hnan' : forall i, i < dim -> is_nan (re !!! i) = false).
  { intros i Hi. rewrite Hrei by exact Hi. apply Hnan. exact Hi. }
  destruct (sortf_values qsort Hq re dim sortDecFLAG ltac:(lia) Hnan' re ltac:(lia))
    as (_ & Hv & _).
  destruct (sortf_indices qsort Hq re dim sortDecFLAG ltac:(lia) Hnan'
              (malloc_buf dim) ltac:(unfold malloc_buf; rewrite length_replicate; lia))
    as (Hperm & Hidx).
  fold data in Hv, Hperm, Hidx.
  set (wr := for_ dim (fun i (b : list float) => <[i := val (data !!! i)]> b) re) in *.
  set (sort_idx := for_ dim (fun i (b : list nat) => <[i := idx (data !!! i)]> b)
                     (malloc_buf dim)) in *.
  destruct (for2_fill dim dim (fun i j => i * dim + j)
              (fun i j => geev_vl r !!! ((sort_idx !!! j) * dim + i)) vl)
    as (_ & HwL & _).
  { intros i j i' j' _ Hj _ Hj' Heq. exact (index_inj dim i j i' j' Hj Hj' Heq). }
  { intros i j Hi Hj. rewrite Hvl. apply index_lt; assumption. }
  destruct (for2_fill dim dim (fun i j => i * dim + j)
              (fun i j => geev_vr r !!! ((sort_idx !!! j) * dim + i)) vr)
    as (_ & HwR & _).
  { intros i j i' j' _ Hj _ Hj' Heq. exact (index_inj dim i j i' j' Hj Hj' Heq). }
  { intros i j Hi Hj. rewrite Hvr. apply index_lt; assumption. }
  destruct (ceig_values_spec dim wr d Hd) as (_ & Hdiag & _).
  exists sort_idx. eexists _, _, _. split; [reflexivity|].
  split; [exact Hperm|]. split; [intros j Hj; apply Hidx; exact Hj|]. split.
  - intros i j Hi Hj. split; [apply (HwL i j Hi Hj)|apply (HwR i j Hi Hj)].
  - intros j Hj. rewrite Hdiag by exact Hj. f_equal.
    destruct (Hidx j Hj) as [Hlt Heq]. rewrite Hv by exact Hj.
    rewrite <- Heq. apply Hrei. exact Hlt.
Qed.

Lemma utility_ceig_pairing_witness :
  let b := replicate 4 (cmplxf (fZ 9) (fZ 9)) in
  let r := ceig_solve (cgeev_diag 0) [] 2 in
  qsort_contract isort /\ length b = 2 * 2 /\ (geev_info r <= 0)%Z /\
  (forall i, i < 2 -> is_nan (crealf (geev_w r !!! i)) = false) /\
  exists (sort_idx : list nat) (vl' vr' d' : list float_complex),
    utility_ceig (cgeev_diag 0) isort [] 2 1 (Some b) (Some b) (Some b)
      = Some (Some vl', Some vr', Some d') /\
    take 2 sort_idx ≡ₚ seq 0 2 /\
    (forall j, j < 2 ->
       d' !!! (j * 2 + j) = cmplxf (crealf (geev_w r !!! (sort_idx !!! j))) fzero).
Proof.
  intros b r.
  assert (Hnan : forall i, i < 2 -> is_nan (crealf (geev_w r !!! i)) = false).
  { intros i Hi. destruct i as [|[|i]]; [reflexivity..|lia]. }
  split; [exact isort_contract|]. split; [reflexivity|].
  split; [vm_compute; discriminate|]. split; [exact Hnan|].
  destruct (utility_ceig_pairing (cgeev_diag 0) isort [] 2 1 b b b isort_contract
              eq_refl eq_refl eq_refl ltac:(vm_compute; discriminate) Hnan)
    as (si & vl' & vr' & d' & Hrun & Hp & _ & _ & Hd).
  exists si, vl', vr', d'. split; [exact Hrun|]. split; [exact Hp|exact Hd].
Defined.

(** ** [sortf] with any [qsort] *)

(** Stores at the indices below [n] keep the length and the elements from
    [n] on. *)
Lemma for_insert_frame {T} `{!Inhabited T} (n : nat) (v : nat -> T) (b : list T) :
  let b' := for_ n (fun i b => <[i := v i]> b) b in
  length b' = length b /\ forall k, n <= k -> b' !!! k = b !!! k.
Proof.
  cbv zeta.
  apply (for_inv (fun i b' =>
    length b' = length b /\ forall k, i <= k -> b' !!! k = b !!! k)).
  - split; reflexivity.
  - intros i t Hi [Hl Hu]. split; [rewrite length_insert; exact Hl|].
    intros k Hk. rewrite list_lookup_total_insert_ne by lia. apply Hu. lia.
Qed.

(** X20: whatever [qsort] does, [sortf] writes only the first [len]
    elements of its destination ([out_vec], or [in_vec] when [out_vec] is
    null) and of [new_idices]: lengths and the elements from [len] on are
    kept, [in_vec] is untouched when [out_vec] is given, and a null pointer
    stays null. *)
Theorem sortf_frame
    (qsort : (sort_float -> sort_float -> Z) -> list sort_float -> list sort_float)
    (in_vec : list float) (out_vec : ptr float) (new_idices : ptr nat)
    (len : nat) (descendFLAG : Z) :
  let res := sortf qsort in_vec out_vec new_idices len descendFLAG in
  (length res.1.1 = length in_vec /\
   forall k, len <= k -> res.1.1 !!! k = in_vec !!! k) /\
  match out_vec with
  | Some o =>
      res.1.1 = in_vec /\
      exists o', res.1.2 = Some o' /\ length o' = length o /\
        forall k, len <= k -> o' !!! k = o !!! k
  | NULL => res.1.2 = NULL
  end /\
  match new_idices with
  | Some ni =>
      exists ni', res.2 = Some ni' /\ length ni' = length ni /\
        forall k, len <= k -> ni' !!! k = ni !!! k
  | NULL => res.2 = NULL
  end.
Proof.
  intros res. unfold res. rewrite sortf_unfold. cbv zeta.
  set (data := sortf_sorted qsort in_vec len descendFLAG).
  split; [|split].
  - destruct out_vec; simpl; [split; reflexivity|].
    apply (for_insert_frame len (fun i => val (data !!! i)) in_vec).
  - destruct out_vec as [o|]; simpl; [|reflexivity].
    split; [reflexivity|]. eexists. split; [reflexivity|].
    apply (for_insert_frame len (fun i => val (data !!! i)) o).
  - destruct new_idices as [ni|]; simpl; [|reflexivity].
    eexists. split; [reflexivity|].
    apply (for_insert_frame len (fun i => idx (data !!! i)) ni).
Qed.

Section SortfPairing.
Variable qsort : (sort_float -> sort_float -> Z) -> list sort_float -> list sort_float.
Hypothesis Hperm : forall cmp l, qsort cmp l ≡ₚ l.
Variables (in_vec : list float) (len : nat) (descendFLAG : Z).
Hypothesis Hlen : len <= length in_vec.

Let records := sortf_records in_vec len.
Let data := sortf_sorted qsort in_vec len descendFLAG.

Lemma sortf_pairing_data : data ≡ₚ records.
Proof.
  unfold data, sortf_sorted. fold records.
  destruct (descendFLAG =? 0)%Z; apply Hperm.
Qed.

Lemma sortf_pairing_length : length data = len.
Proof.
  rewrite sortf_pairing_data. unfold records, sortf_records.
  rewrite length_fmap. apply length_seq.
Qed.

Lemma sortf_pairing_elem i :
  i < len -> idx (data !!! i) < len /\ val (data !!! i) = in_vec !!! idx (data !!! i).
Proof.
  intros Hi.
  assert (Hin : data !!! i ∈ records).
  { rewrite <- sortf_pairing_data. apply list_elem_of_lookup. exists i.
    apply list_lookup_lookup_total_lt. rewrite sortf_pairing_length. exact Hi. }
  unfold records, sortf_records in Hin.
  apply list_elem_of_fmap in Hin as (k & -> & Hk).
  apply elem_of_seq in Hk. simpl. split; [lia|reflexivity].
Qed.

Lemma sortf_pairing_vals : val <$> data ≡ₚ take len in_vec.
Proof.
  rewrite sortf_pairing_data. unfold records, sortf_records.
  rewrite <- list_fmap_compose.
  rewrite <- (take_lookup_total_seq in_vec len Hlen). reflexivity.
Qed.

Lemma sortf_pairing_idxs : idx <$> data ≡ₚ seq 0 len.
Proof.
  rewrite sortf_pairing_data. unfold records, sortf_records.
  rewrite <- list_fmap_compose.
  rewrite <- (list_fmap_id (seq 0 len)) at 2. reflexivity.
Qed.
End SortfPairing.

(** X21: for a [qsort] that only rearranges the array, whatever order it
    produces and whatever the values (NaN included), [sortf] keeps values
    and indices paired: the first [len] output values are a rearrangement of
    the first [len] inputs, [new_idices] holds a permutation of [0..len-1],
    and the value at position [i] is [in_vec[new_idices[i]]]. *)
Theorem sortf_pairing
    (qsort : (sort_float -> sort_float -> Z) -> list sort_float -> list sort_float)
    (in_vec : list float) (out_vec : ptr float) (ni : list nat)
    (len : nat) (descendFLAG : Z) :
  (forall cmp l, qsort cmp l ≡ₚ l) ->
  len <= length in_vec ->
  (forall o, out_vec = Some o -> len <= length o) ->
  len <= length ni ->
  let res := sortf qsort in_vec out_vec (Some ni) len descendFLAG in
  exists (values : list float) (ni' : list nat),
    match out_vec with
    | Some _ => res.1.2 = Some values
    | NULL => res.1.1 = values
    end /\
    res.2 = Some ni' /\
    take len values ≡ₚ take len in_vec /\
    take len ni' ≡ₚ seq 0 len /\
    forall i, i < len -> ni' !!! i < len /\ values !!! i = in_vec !!! (ni' !!! i).
Proof.
  intros Hperm Hlen Hout Hni res. unfold res. rewrite sortf_unfold. cbv zeta.
  set (data := sortf_sorted qsort in_vec len descendFLAG).
  set (b := match out_vec with Some o => o | NULL => in_vec end).
  assert (Hb : len <= length b) by (unfold b; destruct out_vec; auto).
  destruct (for_fill_front len (fun i => val (data !!! i)) b Hb) as (_ & Hv & _).
  destruct (for_fill_front len (fun i => idx (data !!! i)) ni Hni) as (_ & Hi & _).
  exists (for_ len (fun i b => <[i := val (data !!! i)]> b) b),
         (for_ len (fun i b => <[i := idx (data !!! i)]> b) ni).
  split; [unfold b; destruct out_vec; reflexivity|].
  split; [reflexivity|]. split; [|split].
  - rewrite for_fill_take by exact Hb.
    etransitivity; [|apply (sortf_pairing_vals qsort Hperm in_vec len descendFLAG Hlen)].
    rewrite <- (sortf_pairing_length qsort Hperm in_vec len descendFLAG) at 1.
    fold data. rewrite (fmap_lookup_total_seq val data). reflexivity.
  - rewrite for_fill_take by exact Hni.
    etransitivity; [|apply (sortf_pairing_idxs qsort Hperm in_vec len descendFLAG)].
    rewrite <- (sortf_pairing_length qsort Hperm in_vec len descendFLAG) at 1.
    fold data. rewrite (fmap_lookup_total_seq idx data). reflexivity.
  - intros i Hlt. rewrite Hv, Hi by exact Hlt.
    apply (sortf_pairing_elem qsort Hperm in_vec len descendFLAG Hlen i Hlt).
Qed.

Lemma sortf_pairing_witness :
  let in_vec := [fZ 2; S754_nan; fZ 1] in
  let res := sortf qsort_reverse in_vec NULL (Some [0; 0; 0]) 3 0 in
  (forall cmp l, qsort_reverse cmp l ≡ₚ l) /\ 3 <= length in_vec /\
  exists (values : list float) (ni' : list nat),
    res.1.1 = values /\ res.2 = Some ni' /\
    take 3 ni' ≡ₚ seq 0 3 /\
    forall i, i < 3 -> ni' !!! i < 3 /\ values !!! i = in_vec !!! (ni' !!! i).
Proof.
  intros in_vec res.
  assert (Hp : forall cmp l, qsort_reverse cmp l ≡ₚ l)
    by (intros cmp l; apply reverse_Permutation).
  split; [exact Hp|]. split; [simpl; lia|].
  destruct (sortf_pairing qsort_reverse in_vec NULL [0; 0; 0] 3 0 Hp
              ltac:(simpl; lia) ltac:(discriminate) ltac:(simpl; lia))
    as (values & ni' & H1 & H2 & _ & H4 & H5).
  exists values, ni'. repeat (split; [assumption|]). exact H5.
Defined.

(** ** The diagonal of [D] *)

(** C9: when [cgeev] returns [info <= 0], [D] is a buffer of [dim*dim]
    elements and [qsort] only rearranges its array, [utility_ceig] stores in
    [D] the real parts of the backend eigenvalues and nothing of their
    imaginary parts: [D[j][j]] is [crealf(w[sort_idx[j]]) + 0i] for the
    [sort_idx] that [sortf] returns, a permutation of [0..dim-1]; every
    other element is [+0 + 0i]; so every imaginary part of [D] is [+0].
    When [qsort] meets its contract and no real part is NaN, the diagonal
    is in ascending order for [sortDecFLAG = 0] and in descending order
    otherwise. *)
Theorem utility_ceig_real_diagonal (cgeev : geev_t)
    (qsort : (sort_float -> sort_float -> Z) -> list sort_float -> list sort_float)
    (A : list float_complex) (dim : nat) (sortDecFLAG : Z)
    (VL VR : ptr float_complex) (d : list float_complex) :
  (forall cmp l, qsort cmp l ≡ₚ l) ->
  length d = dim * dim ->
  let r := ceig_solve cgeev A dim in
  (geev_info r <= 0)%Z ->
  let sort_idx := (ceig_sort qsort (geev_w r) dim sortDecFLAG).2 in
  exists (VL' VR' : ptr float_complex) (d' : list float_complex),
    utility_ceig cgeev qsort A dim sortDecFLAG VL VR (Some d) = Some (VL', VR', Some d') /\
    length d' = dim * dim /\
    take dim sort_idx ≡ₚ seq 0 dim /\
    (forall j, j < dim ->
       sort_idx !!! j < dim /\
       d' !!! (j * dim + j) = cmplxf (crealf (geev_w r !!! (sort_idx !!! j))) fzero) /\
    (forall i j, i < dim -> j < dim -> i <> j ->
       d' !!! (i * dim + j) = cmplxf fzero fzero) /\
    (forall i j, i < dim -> j < dim -> cimagf (d' !!! (i * dim + j)) = fzero) /\
    (qsort_contract qsort ->
     (forall i, i < dim -> is_nan (crealf (geev_w r !!! i)) = false) ->
     (sortDecFLAG = 0%Z ->
        forall i j, i <= j -> j < dim ->
          fle (crealf (d' !!! (i * dim + i))) (crealf (d' !!! (j * dim + j))) = true) /\
     (sortDecFLAG <> 0%Z ->
        forall i j, i <= j -> j < dim ->
          fle (crealf (d' !!! (j * dim + j))) (crealf (d' !!! (i * dim + i))) = true)).
Proof.
  intros Hperm Hd r Hinfo sort_idx. unfold sort_idx.
  rewrite utility_ceig_run. fold r.
  destruct (Z.ltb_spec 0 (geev_info r)) as [Hlt|_]; [lia|].
  rewrite ceig_sort_unfold. cbv zeta. simpl.
  set (re := (fun i => crealf (geev_w r !!! i)) <$> seq 0 dim).
  set (data := sortf_sorted qsort re dim sortDecFLAG).
  assert (Hre : length re = dim) by (unfold re; rewrite length_fmap; apply length_seq).
  assert (Hre' : dim <= length re) by lia.
  assert (Hrei : forall i, i < dim -> re !!! i = crealf (geev_w r !!! i)).
  { intros i Hi. unfold re.
    rewrite (list_lookup_total_alt _ i), list_lookup_fmap, lookup_seq_lt by exact Hi.
    reflexivity. }
  assert (Hbuf : dim <= length (malloc_buf dim : list nat))
    by (unfold malloc_buf; rewrite length_replicate; lia).
  destruct (for_fill_front dim (fun i => val (data !!! i)) re Hre') as (_ & Hv & _).
  destruct (for_fill_front dim (fun i => idx (data !!! i)) (malloc_buf dim) Hbuf)
    as (_ & Hi & _).
  set (wr := for_ dim (fun i (b : list float) => <[i := val (data !!! i)]> b) re) in *.
  set (si := for_ dim (fun i (b : list nat) => <[i := idx (data !!! i)]> b)
               (malloc_buf dim)) in *.
  destruct (ceig_values_spec dim wr d Hd) as (Hl & Hdiag & Hoff).
  eexists _, _, _. split; [reflexivity|]. split; [exact Hl|]. split.
  { unfold si. rewrite for_fill_take by exact Hbuf.
    etransitivity; [|apply (sortf_pairing_idxs qsort Hperm re dim sortDecFLAG)].
    rewrite <- (sortf_pairing_length qsort Hperm re dim sortDecFLAG) at 1.
    fold data. rewrite (fmap_lookup_total_seq idx data). reflexivity. }
  split.
  { intros j Hj.
    destruct (sortf_pairing_elem qsort Hperm re dim sortDecFLAG Hre' j Hj) as [H1 H2].
    fold data in H1, H2. rewrite Hi by exact Hj. split; [exact H1|].
    rewrite Hdiag by exact Hj. f_equal.
    rewrite Hv by exact Hj. rewrite H2. apply Hrei. exact H1. }
  split; [exact Hoff|]. split.
  { intros i j Hi' Hj. destruct (decide (i = j)) as [<-|Hne].
    - rewrite Hdiag by exact Hi'. reflexivity.
    - rewrite Hoff by assumption. reflexivity. }
  intros Hq Hnan.
  assert (Hnan' : forall i, i < dim -> is_nan (re !!! i) = false).
  { intros i Hlt. rewrite Hrei by exact Hlt. apply Hnan. exact Hlt. }
  destruct (sortf_values qsort Hq re dim sortDecFLAG Hre' Hnan' re Hre')
    as (_ & _ & _ & Hasc & Hdesc).
  fold data in Hasc, Hdesc. fold wr in Hasc, Hdesc.
  split.
  - intros -> i j Hij Hj. rewrite !Hdiag by lia. simpl. apply Hasc; [reflexivity|lia..].
  - intros Hne i j Hij Hj. rewrite !Hdiag by lia. simpl.
    apply Hdesc; [apply Z.eqb_neq, Hne|lia..].
Qed.

Lemma utility_ceig_real_diagonal_witness :
  let d := replicate 4 (cmplxf (fZ 9) (fZ 9)) in
  let r := ceig_solve (cgeev_diag 0) [] 2 in
  let sort_idx := (ceig_sort isort (geev_w r) 2 1).2 in
  (forall cmp (l : list sort_float), isort cmp l ≡ₚ l) /\ length d = 2 * 2 /\
  (geev_info r <= 0)%Z /\
  exists (VL' VR' : ptr float_complex) (d' : list float_complex),
    utility_ceig (cgeev_diag 0) isort [] 2 1 NULL NULL (Some d) = Some (VL', VR', Some d') /\
    take 2 sort_idx ≡ₚ seq 0 2 /\
    (forall j, j < 2 ->
       sort_idx !!! j < 2 /\
       d' !!! (j * 2 + j) = cmplxf (crealf (geev_w r !!! (sort_idx !!! j))) fzero) /\
    (forall i j, i < 2 -> j < 2 -> cimagf (d' !!! (i * 2 + j)) = fzero).
Proof.
  intros d r sort_idx.
  assert (Hp : forall cmp (l : list sort_float), isort cmp l ≡ₚ l)
    by (intros cmp l; apply isort_perm).
  split; [exact Hp|]. split; [reflexivity|]. split; [vm_compute; discriminate|].
  destruct (utility_ceig_real_diagonal (cgeev_diag 0) isort [] 2 1 NULL NULL d Hp eq_refl
              ltac:(vm_compute; discriminate))
    as (VL' & VR' & d' & Hrun & _ & Hperm & Hdiag & _ & Him & _).
  exists VL', VR', d'. split; [exact Hrun|]. split; [exact Hperm|].
  split; [exact Hdiag|exact Him].
Defined.

(** With a NaN among the real parts the driver does not sort: for the
    eigenvalues [2], [NaN], [1] and ascending order asked for, with a [qsort]
    that meets its contract, the diagonal of [D] is [2], [NaN], [1]. *)
Lemma utility_ceig_nan_counterexample :
  let d := replicate 9 (cmplxf (fZ 9) (fZ 9)) in
  let r := ceig_solve cgeev_nan [] 3 in
  exists d' : list float_complex,
    qsort_contract isort /\
    (geev_info r <= 0)%Z /\
    crealf <$> geev_w r = [fZ 2; S754_nan; fZ 1] /\
    utility_ceig cgeev_nan isort [] 3 0 NULL NULL (Some d) = Some (NULL, NULL, Some d') /\
    [d' !!! 0; d' !!! 4; d' !!! 8]
    = [cmplxf (fZ 2) fzero; cmplxf S754_nan fzero; cmplxf (fZ 1) fzero] /\
    flt (crealf (d' !!! (2 * 3 + 2))) (crealf (d' !!! (0 * 3 + 0))) = true /\
    ~ (forall i j, i <= j -> j < 3 ->
         fle (crealf (d' !!! (i * 3 + i))) (crealf (d' !!! (j * 3 + j))) = true).
Proof.
  cbv zeta. eexists.
  split; [exact isort_contract|]. split; [vm_compute; discriminate|].
  split; [reflexivity|]. split; [reflexivity|]. split; [reflexivity|].
  split; [reflexivity|].
  intros H. specialize (H 0 2 ltac:(lia) ltac:(lia)). vm_compute in H. discriminate.
Qed.

(** ** [utility_ssvd] and its three pointers *)

(** X22: [utility_ssvd] frees [*U], [*S] and [*V] before it looks at
    [info]: a pointer that is not null and not a live block, or one block
    named by both [*U] and [*S], makes the call free an invalid pointer,
    whatever the backend returns. *)
Theorem utility_ssvd_invalid_free (sgesvd : gesvd_t) (A : list float) (dim1 dim2 : nat)
    (h : heap) (l : nat) (S V : option nat) :
  (h !! l = None -> utility_ssvd sgesvd A dim1 dim2 h (Some l) S V = None) /\
  utility_ssvd sgesvd A dim1 dim2 h (Some l) (Some l) V = None.
Proof.
  unfold utility_ssvd. split.
  - intros Hl. simpl. rewrite Hl. reflexivity.
  - simpl. destruct (h !! l) as [b|]; [|reflexivity].
    simpl. rewrite lookup_delete_eq. reflexivity.
Qed.

Lemma utility_ssvd_invalid_free_witness :
  let h : heap := <[5 := [fZ 1]]> ∅ in
  h !! 6 = None /\
  utility_ssvd (gesvd_diag42 binary32) [fZ 4; fZ 0; fZ 0; fZ 2] 2 2 h (Some 6) NULL NULL
    = None /\
  utility_ssvd (gesvd_diag42 binary32) [fZ 4; fZ 0; fZ 0; fZ 2] 2 2 h (Some 5) (Some 5) NULL
    = None.
Proof.
  intros h. split; [reflexivity|].
  split.
  - destruct (utility_ssvd_invalid_free (gesvd_diag42 binary32)
                [fZ 4; fZ 0; fZ 0; fZ 2] 2 2 h 6 NULL NULL) as [H1 _].
    exact (H1 eq_refl).
  - destruct (utility_ssvd_invalid_free (gesvd_diag42 binary32)
                [fZ 4; fZ 0; fZ 0; fZ 2] 2 2 h 5 NULL NULL) as [_ H2].
    exact H2.
Defined.

(** ** A divisor that is not a number *)

Lemma fdiv_nan (fm : format) (x : float) : fdiv fm x S754_nan = S754_nan.
Proof. destruct x; reflexivity. Qed.

(** X23: the zero test of [utility_svsdiv] does not catch a NaN divisor:
    with [s[0]] a NaN and an output buffer of at least [len] elements, every
    one of the first [len] outputs is a NaN, in every build. *)
Theorem utility_svsdiv_nan_divisor (bld : build) (a : list float) (s : float)
    (len : nat) (buf : list float) :
  is_nan s = true -> len <= length buf ->
  exists c' : list float,
    utility_svsdiv bld a s len (Some buf) = Some (a, Some c') /\
    forall i, i < len -> is_nan (c' !!! i) = true.
Proof.
  intros Hs Hlen. destruct s; try discriminate.
  destruct (for_fill_front len (fun i => fdiv binary32 (a !!! i) S754_nan) buf Hlen)
    as (_ & Hw & _).
  eexists. split.
  - unfold utility_svsdiv. change (feq S754_nan f0_0) with false. cbv iota.
    destruct bld; [reflexivity|..];
      apply (forM_store_buf a (fun a i => fdiv binary32 (a !!! i) S754_nan)).
  - intros i Hi. rewrite Hw by exact Hi. rewrite fdiv_nan. reflexivity.
Qed.

Lemma utility_svsdiv_nan_divisor_witness :
  is_nan S754_nan = true /\ 2 <= length [fZ 7; fZ 8] /\
  exists c' : list float,
    utility_svsdiv PLAIN [fZ 1; fZ 2] S754_nan 2 (Some [fZ 7; fZ 8])
      = Some ([fZ 1; fZ 2], Some c') /\
    forall i, i < 2 -> is_nan (c' !!! i) = true.
Proof.
  split; [reflexivity|]. split; [simpl; lia|].
  apply (utility_svsdiv_nan_divisor PLAIN [fZ 1; fZ 2] S754_nan 2 [fZ 7; fZ 8]);
    [reflexivity|simpl; lia].
Defined.

(** ** What the drivers hand to their kernels *)

(** X24: each factorisation driver hands its kernel the column-major
    transpose of its row-major input, first with [lwork = -1], then again
    with the [a] the query left and [lwork = (int)work[0]]. *)
Theorem drivers_kernel_input (sgesvd gesvd : gesvd_t) (ssyev : syev_t) (cgeev : geev_t)
    (A : list float) (Ac : list float_complex) (dim1 dim2 dim : nat) :
  (exists a : list float,
     length a = dim1 * dim2 /\
     (forall i j, i < dim1 -> j < dim2 -> a !!! (j * dim1 + i) = A !!! (i * dim2 + j)) /\
     (let q := sgesvd JobA JobA dim1 dim2 a dim1 dim1 dim2 (-1)%Z in
      ssvd_factor sgesvd A dim1 dim2
      = sgesvd JobA JobA dim1 dim2 (gesvd_a q) dim1 dim1 dim2
          (int_of_float (gesvd_work0 q))) /\
     (let k := dim1 `min` dim2 in
      let q := gesvd JobS JobS dim1 dim2 a dim1 dim1 k (-1)%Z in
      pinv_factor gesvd A dim1 dim2
      = gesvd JobS JobS dim1 dim2 (gesvd_a q) dim1 dim1 k
          (int_of_float (gesvd_work0 q)))) /\
  (exists a : list float,
     length a = dim * dim /\
     (forall i j, i < dim -> j < dim -> a !!! (i * dim + j) = A !!! (j * dim + i)) /\
     (let q := ssyev dim a dim (-1)%Z in
      sseig_solve ssyev A dim
      = ssyev dim (syev_a q) dim (int_of_float (syev_work0 q)))) /\
  (exists a : list float_complex,
     length a = dim * dim /\
     (forall i j, i < dim -> j < dim -> a !!! (i * dim + j) = Ac !!! (j * dim + i)) /\
     (let q := cgeev dim a dim dim dim (-1)%Z in
      ceig_solve cgeev Ac dim
      = cgeev dim (geev_a q) dim dim dim (int_of_float (crealf (geev_work0 q))))).
Proof.
  split; [|split].
  - destruct (for2_fill dim1 dim2 (fun i j => j * dim1 + i)
                (fun i j => A !!! (i * dim2 + j)) (malloc_buf (dim1 * dim2)))
      as (Hl & Hw & _).
    { intros i j i' j' Hi _ Hi' _ Heq.
      destruct (index_inj dim1 j i j' i' Hi Hi' Heq). auto. }
    { intros i j Hi Hj. unfold malloc_buf. rewrite length_replicate.
      rewrite (Nat.mul_comm dim1 dim2). apply index_lt; assumption. }
    eexists. split; [rewrite Hl; apply length_replicate|].
    split; [exact Hw|]. split; [reflexivity|].
    unfold pinv_factor. rewrite pinv_rank. reflexivity.
  - destruct (for2_fill dim dim (fun i j => i * dim + j)
                (fun i j => A !!! (j * dim + i)) (malloc_buf (dim * dim)))
      as (Hl & Hw & _).
    { intros i j i' j' _ Hj _ Hj' Heq. exact (index_inj dim i j i' j' Hj Hj' Heq). }
    { intros i j Hi Hj. unfold malloc_buf. rewrite length_replicate.
      apply index_lt; assumption. }
    eexists. split; [rewrite Hl; apply length_replicate|].
    split; [exact Hw|reflexivity].
  - destruct (for2_fill dim dim (fun i j => i * dim + j)
                (fun i j => Ac !!! (j * dim + i)) (malloc_buf (dim * dim)))
      as (Hl & Hw & _).
    { intros i j i' j' _ Hj _ Hj' Heq. exact (index_inj dim i j i' j' Hj Hj' Heq). }
    { intros i j Hi Hj. unfold malloc_buf. rewrite length_replicate.
      apply index_lt; assumption. }
    eexists. split; [rewrite Hl; apply length_replicate|].
    split; [exact Hw|reflexivity].
Qed.
